(** * mcp-apple-notes: content decoding, chunking and rank fusion

    A shallow embedding of the algorithmic core of the repository:

    - [src/apple-notes-db.ts]: [parseNoteContent],
      [extractTextFromProtobuf], [isGarbageLine] and the row mapping of
      [getAllNotesWithContent];
    - [src/text-chunker.ts]: [chunkText];
    - [src/config.ts]: [loadConfig];
    - [index.ts]: [indexNotes], the fusion part of
      [searchAndCombineResults], the escaping and the script of
      [createNote], and [isIndexReady].

    JavaScript strings are sequences of UTF-16 code units, numbers are
    IEEE 754 binary64 values, a [Map] is an association list in insertion
    order, exceptions are an explicit completion type. *)

From Stdlib Require Import ZArith List Bool Lia Permutation Sorting.Sorted.
From Stdlib Require Import Strings.String Strings.Ascii Strings.Byte.
From Stdlib Require Import Floats.SpecFloat Numbers.DecimalString.
From Stdlib Require Import Numbers.DecimalN Numbers.DecimalPos.
Import ListNotations.
Open Scope Z_scope.

(* ================================================================= *)
(** ** The JavaScript values the code computes with *)

Module JS.

(** *** Strings: lists of UTF-16 code units *)

Definition codeunit := Z.
Definition jsstring := list codeunit.

(** An ASCII literal of the source as a JavaScript string. *)
Definition js (s : string) : jsstring :=
  List.map (fun a => Z.of_N (N_of_ascii a)) (list_ascii_of_string s).

(** [s.length] *)
Definition length (s : jsstring) : Z := Z.of_nat (List.length s).

Definition inRange (lo hi c : Z) : bool := (lo <=? c) && (c <=? hi).

(** The characters matched by [\s] and stripped by [trim]: ECMAScript
    WhiteSpace and LineTerminator. *)
Definition isWhiteSpace (c : codeunit) : bool :=
  inRange 9 13 c || (c =? 32) || (c =? 160) || (c =? 5760)
  || inRange 8192 8202 c || (c =? 8232) || (c =? 8233) || (c =? 8239)
  || (c =? 8287) || (c =? 12288) || (c =? 65279).

(** [\d] *)
Definition isDigit (c : codeunit) : bool := inRange 48 57 c.

Fixpoint trimStart (s : jsstring) : jsstring :=
  match s with
  | [] => []
  | c :: r => if isWhiteSpace c then trimStart r else s
  end.

Definition trimEnd (s : jsstring) : jsstring := rev (trimStart (rev s)).

(** [s.trim()] *)
Definition trim (s : jsstring) : jsstring := trimEnd (trimStart s).

Fixpoint startsWith (p s : jsstring) : bool :=
  match p, s with
  | [], _ => true
  | _ :: _, [] => false
  | a :: p', b :: s' => (a =? b) && startsWith p' s'
  end.

(** [s.split(sep)] for a non-empty separator: the occurrences of [sep]
    are found left to right and do not overlap.  [skip] counts the code
    units of a separator just matched that are still to be passed over,
    [cur] is the current segment, reversed. *)
Fixpoint splitFrom (sep : jsstring) (skip : nat) (cur : jsstring)
         (s : jsstring) : list jsstring :=
  match s with
  | [] => [rev cur]
  | c :: r =>
      match skip with
      | S k => splitFrom sep k cur r
      | O =>
          if startsWith sep s
          then rev cur :: splitFrom sep (Nat.pred (List.length sep)) [] r
          else splitFrom sep O (c :: cur) r
      end
  end.

Definition split (sep s : jsstring) : list jsstring := splitFrom sep O [] s.

(** [a.join(sep)] *)
Fixpoint join (sep : jsstring) (l : list jsstring) : jsstring :=
  match l with
  | [] => []
  | [x] => x
  | x :: r => x ++ sep ++ join sep r
  end.

(** Relative index of [slice]: negative counts from the end. *)
Definition clampIndex (len i : Z) : Z :=
  if i <? 0 then Z.max (len + i) 0 else Z.min i len.

(** [s.slice(a, b)] *)
Definition slice (s : jsstring) (a b : Z) : jsstring :=
  let len := length s in
  let from := clampIndex len a in
  let to := clampIndex len b in
  firstn (Z.to_nat (to - from)) (skipn (Z.to_nat from) s).

Definition LF : codeunit := 10.
Definition REPLACEMENT : codeunit := 65533.

(** *** Numbers: IEEE 754 binary64 *)

Definition number := spec_float.
Definition prec : Z := 53.
Definition emax : Z := 1024.

(** An integer as a number (exact below 2^53). *)
Definition ofZ (z : Z) : number := binary_normalize prec emax z 0 false.
Definition add : number -> number -> number := SFadd prec emax.
Definition sub : number -> number -> number := SFsub prec emax.
Definition div : number -> number -> number := SFdiv prec emax.
Definition ltb : number -> number -> bool := SFltb.
Definition zero : number := S754_zero false.

(** Truthiness of a number: [0], [-0] and [NaN] are falsy. *)
Definition truthy (x : number) : bool :=
  match x with
  | S754_zero _ | S754_nan => false
  | _ => true
  end.

End JS.

Import JS(jsstring, js).

(** Completion of a computation that may throw. *)
Inductive completion (A : Type) : Type :=
| Normal (a : A)
| Throw (reason : jsstring).
Arguments Normal {A} a.
Arguments Throw {A} reason.

Definition bind {A B : Type} (c : completion A) (k : A -> completion B)
  : completion B :=
  match c with
  | Normal a => k a
  | Throw e => Throw e
  end.

(** [try { body } catch (error) { handler }] *)
Definition tryCatch {A : Type} (body : completion A)
           (handler : jsstring -> completion A) : completion A :=
  match body with
  | Normal a => Normal a
  | Throw e => handler e
  end.

Notation "x <- c ;; k" := (bind c (fun x => k))
  (at level 61, c at next level, right associativity).

(* ================================================================= *)
(** ** [Buffer.prototype.toString("utf-8")]

    Lossy UTF-8 decoding as the Encoding Standard defines it: every
    maximal invalid subsequence becomes one U+FFFD, nothing throws. *)

Module Utf8.

(** A sequence in progress: continuation bytes still needed, the bits
    read so far and the range allowed for the next byte. *)
Record pending := { needed : nat; bits : Z; lower : Z; upper : Z }.

Inductive lead := Emit (cp : Z) | Await (p : pending) | Invalid.

(** A byte read while no sequence is in progress. *)
Definition leadByte (b : Z) : lead :=
  if b <=? 127 then Emit b
  else if JS.inRange 194 223 b
       then Await {| needed := 1; bits := Z.land b 31; lower := 128; upper := 191 |}
  else if JS.inRange 224 239 b
       then Await {| needed := 2; bits := Z.land b 15;
                     lower := if b =? 224 then 160 else 128;
                     upper := if b =? 237 then 159 else 191 |}
  else if JS.inRange 240 244 b
       then Await {| needed := 3; bits := Z.land b 7;
                     lower := if b =? 240 then 144 else 128;
                     upper := if b =? 244 then 143 else 191 |}
  else Invalid.

Fixpoint decodeFrom (st : option pending) (bs : list Z) : list Z :=
  match bs with
  | [] => match st with
          | None => []
          | Some _ => [JS.REPLACEMENT]
          end
  | b :: rest =>
      match st with
      | None =>
          match leadByte b with
          | Emit cp => cp :: decodeFrom None rest
          | Await p => decodeFrom (Some p) rest
          | Invalid => JS.REPLACEMENT :: decodeFrom None rest
          end
      | Some p =>
          if JS.inRange (lower p) (upper p) b
          then
            let cp := Z.lor (Z.shiftl (bits p) 6) (Z.land b 63) in
            match needed p with
            | S (S n) =>
                decodeFrom (Some {| needed := S n; bits := cp;
                                    lower := 128; upper := 191 |}) rest
            | _ => cp :: decodeFrom None rest
            end
          else
            (* the byte is read again as the start of a sequence *)
            JS.REPLACEMENT ::
            match leadByte b with
            | Emit cp => cp :: decodeFrom None rest
            | Await q => decodeFrom (Some q) rest
            | Invalid => JS.REPLACEMENT :: decodeFrom None rest
            end
      end
  end.

(** A code point as UTF-16 code units. *)
Definition utf16 (cp : Z) : jsstring :=
  if cp <? 65536 then [cp]
  else [55296 + Z.shiftr (cp - 65536) 10; 56320 + Z.land (cp - 65536) 1023].

Definition toString (data : list byte) : jsstring :=
  flat_map utf16
    (decodeFrom None (List.map (fun b => Z.of_N (Byte.to_N b)) data)).

(** The UTF-8 bytes of an ASCII literal. *)
Definition bytes (s : string) : list byte := list_byte_of_string s.

End Utf8.

(* ================================================================= *)
(** ** src/apple-notes-db.ts *)

Module AppleNotesDB.

Record AppleNote := {
  id : Z;
  title : jsstring;
  snippet : jsstring;
  content : jsstring;
  creationDate : Z;        (* a Date, in milliseconds since the Unix epoch *)
  modificationDate : Z;
  folderId : option Z;
  folderName : option jsstring
}.

(** A row of the query of [getAllNotesWithContent]; [None] is SQL NULL. *)
Record Row := {
  row_id : Z;
  row_title : option jsstring;
  row_snippet : option jsstring;
  row_creationDate : option Z;
  row_modificationDate : option Z;
  row_folderId : option Z;
  row_content : option (list byte)
}.

(** [Date.UTC(2001, 0, 1, 0, 0, 0)] *)
Definition coreDataEpoch : Z := 978307200000.

Definition coreDataTimestampToDate (timestamp : option Z) : Z :=
  match timestamp with
  | None => 0
  | Some t => if t =? 0 then 0 else coreDataEpoch + t * 1000
  end.

(** [/^[*JgG,\s\d\-\.]+$/] *)
Definition isMarker (c : JS.codeunit) : bool :=
  (c =? 42) || (c =? 74) || (c =? 103) || (c =? 71) || (c =? 44)
  || JS.isWhiteSpace c || JS.isDigit c || (c =? 45) || (c =? 46).

Definition markersOnly (line : jsstring) : bool :=
  match line with
  | [] => false
  | _ :: _ => forallb isMarker line
  end.

(** The code points kept by the character class of [cleanLine]. *)
Definition isPrintable (cp : Z) : bool :=
  JS.inRange 32 126 cp || JS.inRange 160 591 cp || JS.inRange 7680 7935 cp
  || JS.inRange 8192 8303 cp || JS.inRange 9728 10175 cp
  || JS.inRange 65024 65039 cp || JS.inRange 127744 129535 cp.

Definition isHighSurrogate (c : Z) : bool := JS.inRange 55296 56319 c.
Definition isLowSurrogate (c : Z) : bool := JS.inRange 56320 57343 c.
Definition codePoint (hi lo : Z) : Z :=
  65536 + (hi - 55296) * 1024 + (lo - 56320).

(** [line.replace(/[^...]/gu, "")]: with the [u] flag the class is
    matched against code points, a surrogate pair counting as one. *)
Fixpoint cleanLine (line : jsstring) : jsstring :=
  match line with
  | [] => []
  | c :: rest =>
      if isHighSurrogate c then
        match rest with
        | d :: rest' =>
            if isLowSurrogate d then
              if isPrintable (codePoint c d)
              then c :: d :: cleanLine rest'
              else cleanLine rest'
            else if isPrintable c then c :: cleanLine rest else cleanLine rest
        | [] => if isPrintable c then [c] else []
        end
      else if isPrintable c then c :: cleanLine rest else cleanLine rest
  end.

(** The literals [0.98] and [0.90] as binary64 values. *)
Definition threshold_short : JS.number := S754_finite false 8827055269646172 (-53).
Definition threshold_long : JS.number := S754_finite false 8106479329266893 (-53).

Definition isGarbageLine (line : jsstring) : bool :=
  if JS.length line <? 3 then true
  else if markersOnly line then true
  else
    let clean := cleanLine line in
    let threshold :=
      if JS.length line <? 10 then threshold_short else threshold_long in
    JS.ltb (JS.div (JS.ofZ (JS.length clean)) (JS.ofZ (JS.length line)))
           threshold.

(** [/[\x00-\x08\x0B\x0C\x0E-\x1F]/] *)
Definition isControl (c : JS.codeunit) : bool :=
  JS.inRange 0 8 c || (c =? 11) || (c =? 12) || JS.inRange 14 31 c.

(** The [lines] of [extractTextFromProtobuf]. *)
Definition linesOf (str : jsstring) : list jsstring :=
  filter (fun line => 0 <? JS.length line)
    (List.map JS.trim
       (JS.split [JS.LF]
          (filter (fun c => negb (c =? JS.REPLACEMENT))
             (List.map (fun c => if isControl c then JS.LF else c) str)))).

Definition maxConsecutiveGarbage : Z := 3.

(** The [for] loop of [extractTextFromProtobuf]; leaving the recursion
    is its [break]. *)
Fixpoint scanLines (lines goodLines : list jsstring)
         (consecutiveGarbageCount : Z) : list jsstring :=
  match lines with
  | [] => goodLines
  | line :: rest =>
      if isGarbageLine line then
        let count := consecutiveGarbageCount + 1 in
        if maxConsecutiveGarbage <=? count then goodLines
        else scanLines rest goodLines count
      else scanLines rest (goodLines ++ [line]) 0
  end.

Definition extractTextFromProtobuf (data : list byte) : jsstring :=
  let str := Utf8.toString data in
  let lines := linesOf str in
  JS.trim (JS.join [JS.LF] (scanLines lines [] 0)).

Section WithPako.

(** [Buffer.from(pako.ungzip(buffer))]: the library call, which
    throws on a stream it cannot inflate. *)
Variable ungzip : list byte -> completion (list byte).

Definition hasGzipMagic (buffer : list byte) : bool :=
  match buffer with
  | b0 :: b1 :: _ => Byte.eqb b0 x1f && Byte.eqb b1 x8b
  | _ => false
  end.

Definition parseNoteContent (data : option (list byte))
  : completion jsstring :=
  match data with
  | None => Normal []
  | Some buffer =>
      tryCatch
        (if hasGzipMagic buffer then
           decompressed <- ungzip buffer ;;
           Normal (extractTextFromProtobuf decompressed)
         else Normal (Utf8.toString buffer))
        (fun _ => Normal [])
  end.

(** [row.title || "Untitled"] *)
Definition orDefault (v : option jsstring) (d : jsstring) : jsstring :=
  match v with
  | None | Some [] => d
  | Some s => s
  end.

Definition noteOfRow (row : Row) : completion AppleNote :=
  text <- parseNoteContent (row_content row) ;;
  Normal {| id := row_id row;
            title := orDefault (row_title row) (js "Untitled");
            snippet := orDefault (row_snippet row) [];
            content := text;
            creationDate := coreDataTimestampToDate (row_creationDate row);
            modificationDate :=
              coreDataTimestampToDate (row_modificationDate row);
            folderId := row_folderId row;
            folderName := None |}.

(** [rows.map(...)] of [getAllNotesWithContent] *)
Fixpoint getAllNotesWithContent (rows : list Row)
  : completion (list AppleNote) :=
  match rows with
  | [] => Normal []
  | row :: rest =>
      note <- noteOfRow row ;;
      notes <- getAllNotesWithContent rest ;;
      Normal (note :: notes)
  end.

End WithPako.

End AppleNotesDB.

(* ================================================================= *)
(** ** src/text-chunker.ts *)

Module TextChunker.

(** The options are integers, as [parseInt] in [loadConfig] gives them
    when the variables of the environment hold numbers. *)
Record ChunkOptions := { maxChunkSize : Z; overlap : Z }.

Definition DEFAULT_OPTIONS : ChunkOptions :=
  {| maxChunkSize := 1000; overlap := 100 |}.

(** [.], [!] or [?] *)
Definition isTerminator (c : JS.codeunit) : bool :=
  (c =? 46) || (c =? 33) || (c =? 63).

(** [s.search(/[.!?]\s/)], counting from [i]. *)
Fixpoint searchFrom (i : Z) (s : jsstring) : Z :=
  match s with
  | c :: ((d :: _) as rest) =>
      if isTerminator c && JS.isWhiteSpace d then i
      else searchFrom (i + 1) rest
  | _ => -1
  end.

Definition searchSentenceEnd (s : jsstring) : Z := searchFrom 0 s.

(** The state of the [while] loop. *)
Record loopState := { start : Z; chunks : list jsstring }.

(** The [end] of the window that starts at [start], moved back to a
    sentence boundary when there is one. *)
Definition windowEnd (text : jsstring) (options : ChunkOptions)
           (start : Z) : Z :=
  let end_ := Z.min (start + maxChunkSize options) (JS.length text) in
  if end_ <? JS.length text then
    let searchStart := Z.max (end_ - 200) start in
    let searchText := JS.slice text searchStart end_ in
    let sentenceEnd := searchSentenceEnd searchText in
    if negb (sentenceEnd =? -1) then searchStart + sentenceEnd + 2
    else end_
  else end_.

(** One pass through the loop body: the next state, and whether the
    body ended in [break]. *)
Definition loopBody (text : jsstring) (options : ChunkOptions)
           (st : loopState) : loopState * bool :=
  let end_ := windowEnd text options (start st) in
  let chunk := JS.trim (JS.slice text (start st) end_) in
  let chunks' :=
    if 0 <? JS.length chunk then chunks st ++ [chunk] else chunks st in
  let nextStart := end_ - overlap options in
  let start' := if nextStart <=? start st then end_ else nextStart in
  ({| start := start'; chunks := chunks' |}, JS.length text <=? end_).

(** The loop, run for at most [fuel] passes; [None] when the loop is
    still running after them. *)
Fixpoint loop (fuel : nat) (text : jsstring) (options : ChunkOptions)
         (st : loopState) : option (list jsstring) :=
  if start st <? JS.length text then
    match fuel with
    | O => None
    | S fuel' =>
        let (st', stop) := loopBody text options st in
        if stop then Some (chunks st') else loop fuel' text options st'
    end
  else Some (chunks st).

Definition chunkText (fuel : nat) (text : jsstring)
           (options : ChunkOptions) : option (list jsstring) :=
  match text with
  | [] => Some []
  | _ :: _ =>
      if JS.length (JS.trim text) =? 0 then Some []
      else if JS.length text <=? maxChunkSize options then Some [text]
      else loop fuel text options {| start := 0; chunks := [] |}
  end.

End TextChunker.

(* ================================================================= *)
(** ** index.ts *)

Module Index.

Import AppleNotesDB(AppleNote).

(** A record of the [notes] table, as [indexNotes] builds it. *)
Record ChunkRecord := {
  chunk_id : jsstring;
  chunk_title : jsstring;
  chunk_content : jsstring;
  creation_date : jsstring;
  modification_date : jsstring
}.

(** [`${n}`] for a non-negative integer. *)
Definition decimal (n : N) : jsstring :=
  js (DecimalString.NilZero.string_of_uint (N.to_uint n)).

Section IndexNotes.

(** [loadConfig()] and [Date.prototype.toLocaleString], which depends
    on the locale of the host. *)
Variable chunkSize chunkOverlap : Z.
Variable toLocaleString : Z -> jsstring.

(** [(n) => n.title] as a condition *)
Definition hasTitle (n : AppleNote) : bool :=
  negb (JS.length (AppleNotesDB.title n) =? 0).

(** The state of the loop over the notes. *)
Record indexState := { chunkIndex : N; records : list ChunkRecord }.

Definition pushChunk (note : AppleNote) (text : jsstring)
           (st : indexState) : indexState :=
  {| chunkIndex := N.succ (chunkIndex st);
     records := records st ++
       [{| chunk_id := decimal (chunkIndex st);
           chunk_title := AppleNotesDB.title note;
           chunk_content := text;
           creation_date := toLocaleString (AppleNotesDB.creationDate note);
           modification_date :=
             toLocaleString (AppleNotesDB.modificationDate note) |}] |}.

(** The body of the loop for one note. *)
Definition indexNote (fuel : nat) (note : AppleNote) (st : indexState)
  : option indexState :=
  match TextChunker.chunkText fuel (AppleNotesDB.content note)
          {| TextChunker.maxChunkSize := chunkSize;
             TextChunker.overlap := chunkOverlap |} with
  | None => None
  | Some [] => Some (pushChunk note (AppleNotesDB.title note) st)
  | Some contentChunks =>
      Some (fold_left (fun acc contentChunk => pushChunk note contentChunk acc)
                      contentChunks st)
  end.

Fixpoint indexLoop (fuel : nat) (notes : list AppleNote) (st : indexState)
  : option indexState :=
  match notes with
  | [] => Some st
  | note :: rest =>
      match indexNote fuel note st with
      | None => None
      | Some st' => indexLoop fuel rest st'
      end
  end.

(** The [chunks] handed to [notesTable.add]; [None] when a call of
    [chunkText] does not return within [fuel] passes of its loop. *)
Definition indexNotes (fuel : nat) (allNotesWithContent : list AppleNote)
  : option (list ChunkRecord) :=
  option_map records
    (indexLoop fuel (filter hasTitle allNotesWithContent)
               {| chunkIndex := 0%N; records := [] |}).

End IndexNotes.

(** *** searchAndCombineResults *)

(** A row returned by one of the two searches. *)
Record SearchResult := { title : jsstring; content : jsstring }.

(** An element of the returned array; [None] is [undefined]. *)
Record Hit := { hit_title : option jsstring; hit_content : option jsstring }.

Definition k : Z := 60.

(** [Map<string, number>], in insertion order. *)
Definition ScoreMap := list (jsstring * JS.number).

Fixpoint strEq (a b : jsstring) : bool :=
  match a, b with
  | [], [] => true
  | x :: a', y :: b' => (x =? y) && strEq a' b'
  | _, _ => false
  end.

Fixpoint mapGet (key : jsstring) (scores : ScoreMap) : option JS.number :=
  match scores with
  | [] => None
  | (key', v) :: rest => if strEq key' key then Some v else mapGet key rest
  end.

(** [scores.set(key, v)]: a key already present keeps its place. *)
Fixpoint mapSet (key : jsstring) (v : JS.number) (scores : ScoreMap)
  : ScoreMap :=
  match scores with
  | [] => [(key, v)]
  | (key', v') :: rest =>
      if strEq key' key then (key', v) :: rest
      else (key', v') :: mapSet key v rest
  end.

(** [scores.get(key) || 0] *)
Definition getOrZero (key : jsstring) (scores : ScoreMap) : JS.number :=
  match mapGet key scores with
  | Some v => if JS.truthy v then v else JS.zero
  | None => JS.zero
  end.

(** [`${result.title}::${result.content}`] *)
Definition keyOf (result : SearchResult) : jsstring :=
  title result ++ js "::" ++ content result.

(** [1 / (k + startRank + idx)]; the sum is an integer below 2^53, on
    which the addition of numbers is exact. *)
Definition contribution (startRank idx : Z) : JS.number :=
  JS.div (JS.ofZ 1) (JS.ofZ (k + startRank + idx)).

(** [results.forEach((result, idx) => ...)], from index [idx] on. *)
Fixpoint processFrom (idx : Z) (results : list SearchResult)
         (startRank : Z) (scores : ScoreMap) : ScoreMap :=
  match results with
  | [] => scores
  | result :: rest =>
      let key := keyOf result in
      let score := contribution startRank idx in
      processFrom (idx + 1) rest startRank
        (mapSet key (JS.add (getOrZero key scores) score) scores)
  end.

Definition processResults (results : list SearchResult) (startRank : Z)
           (scores : ScoreMap) : ScoreMap :=
  processFrom 0 results startRank scores.

(** The scores after both calls of [processResults]. *)
Definition fuse (vectorResults ftsSearchResults : list SearchResult)
  : ScoreMap :=
  processResults ftsSearchResults 0 (processResults vectorResults 0 []).

(** [([, a], [, b]) => b - a] *)
Definition compareFn (x y : jsstring * JS.number) : JS.number :=
  JS.sub (snd y) (snd x).

(** [Array.prototype.sort] is stable; on a consistent comparator its
    result is the one of insertion sort: [x] goes behind [y] only when
    the comparator is positive on [(x, y)]. *)
Fixpoint insertSorted (x : jsstring * JS.number) (l : ScoreMap) : ScoreMap :=
  match l with
  | [] => [x]
  | y :: rest =>
      if JS.ltb JS.zero (compareFn x y) then y :: insertSorted x rest
      else x :: y :: rest
  end.

Fixpoint sort (l : ScoreMap) : ScoreMap :=
  match l with
  | [] => []
  | x :: rest => insertSorted x (sort rest)
  end.

(** [const [title, content] = key.split("::")] *)
Definition hitOfKey (key : jsstring) : Hit :=
  let parts := JS.split (js "::") key in
  {| hit_title := nth_error parts 0; hit_content := nth_error parts 1 |}.

(** The entries that are kept, before the pairs are rebuilt. *)
Definition ranked (vectorResults ftsSearchResults : list SearchResult)
           (limit : nat) : ScoreMap :=
  firstn limit (sort (fuse vectorResults ftsSearchResults)).

(** The fusion of [searchAndCombineResults], from the results of the
    two searches on; [limit] is a count of rows. *)
Definition combineResults (vectorResults ftsSearchResults : list SearchResult)
           (limit : nat) : list Hit :=
  List.map (fun entry => hitOfKey (fst entry))
           (ranked vectorResults ftsSearchResults limit).

End Index.

(* ================================================================= *)
(** ** src/config.ts *)

Module Config.

(** *** parseInt *)

(** The value of a digit in the given radix, 10 or 16. *)
Definition digitValue (radix : Z) (c : JS.codeunit) : option Z :=
  if JS.isDigit c then Some (c - 48)
  else if radix =? 16 then
    if JS.inRange 97 102 c then Some (c - 87)
    else if JS.inRange 65 70 c then Some (c - 55)
    else None
  else None.

(** The digits at the start of [s], read in the given radix; [acc] is
    the value of the digits read so far, [None] when none was read. *)
Fixpoint digitsFrom (radix : Z) (acc : option Z) (s : jsstring) : option Z :=
  match s with
  | [] => acc
  | c :: r =>
      match digitValue radix c with
      | Some d =>
          digitsFrom radix
            (Some (match acc with Some a => a * radix + d | None => d end)) r
      | None => acc
      end
  end.

(** A sign at the start, and the text behind it. *)
Definition stripSign (s : jsstring) : Z * jsstring :=
  match s with
  | 45 :: r => (-1, r)
  | 43 :: r => (1, r)
  | _ => (1, s)
  end.

(** The radix: 16 behind [0x] or [0X], 10 otherwise; and the digits. *)
Definition stripPrefix (s : jsstring) : Z * jsstring :=
  match s with
  | 48 :: 120 :: r => (16, r)
  | 48 :: 88 :: r => (16, r)
  | _ => (10, s)
  end.

(** [parseInt(s)], with no radix given: white space at the start is
    passed over, then a sign, then [0x] or [0X]; the digits that follow
    are read, and what comes behind them is ignored.  [None] is [NaN];
    the result is the integer read, which is the number JavaScript
    gives when it is below [2 ^ 53] in size. *)
Definition parseInt (s : jsstring) : option Z :=
  let (sign, s2) := stripSign (JS.trimStart s) in
  let (radix, s3) := stripPrefix s2 in
  option_map (Z.mul sign) (digitsFrom radix None s3).

(** *** loadConfig *)

Record Config := {
  embeddingsModel : jsstring;
  chunkSize : option Z;
  chunkOverlap : option Z;
  dbPath : jsstring
}.

Section WithEnv.

(** [process.env]: the value of a variable, [None] when it is not set. *)
Variable env : jsstring -> option jsstring.

(** [process.env.NAME || fallback] *)
Definition envOr (name fallback : jsstring) : jsstring :=
  match env name with
  | None | Some [] => fallback
  | Some value => value
  end.

Definition loadConfig : Config :=
  {| embeddingsModel := envOr (js "EMBEDDINGS_MODEL") (js "Xenova/all-MiniLM-L6-v2");
     chunkSize := parseInt (envOr (js "CHUNK_SIZE") (js "1000"));
     chunkOverlap := parseInt (envOr (js "CHUNK_OVERLAP") (js "100"));
     dbPath := envOr (js "APPLE_NOTES_DB_PATH") [] |}.

End WithEnv.

End Config.

(* ================================================================= *)
(** ** index.ts: the tools around the index *)

Module Tools.

(** *** createNote *)

(** The class of the first [replace]: a backslash, a single quote or a
    double quote. *)
Definition isQuoteOrBackslash (c : JS.codeunit) : bool :=
  (c =? 92) || (c =? 39) || (c =? 34).

(** The first [replace], whose replacement is a backslash and [$&], the
    text matched: a backslash in front of each of them. *)
Definition escapeQuotes (s : jsstring) : jsstring :=
  flat_map (fun c => if isQuoteOrBackslash c then [92; c] else [c]) s.

(** The second [replace]: a line feed becomes a backslash and [n]. *)
Definition escapeNewlines (s : jsstring) : jsstring :=
  flat_map (fun c => if c =? 10 then [92; 110] else [c]) s.

(** The third [replace]: carriage returns are removed. *)
Definition removeReturns (s : jsstring) : jsstring :=
  filter (fun c => negb (c =? 13)) s.

Definition escapedTitle (title : jsstring) : jsstring := escapeQuotes title.

Definition escapedContent (content : jsstring) : jsstring :=
  removeReturns (escapeNewlines (escapeQuotes content)).

(** The double quote. *)
Definition QUOTE : JS.codeunit := 34.

(** The script handed to [runJxa], line by line. *)
Definition script (title content : jsstring) : jsstring :=
  JS.join [JS.LF]
    [ [];
      js "    const app = Application('Notes');";
      js "    const note = app.make({new: 'note', withProperties: {";
      js "      name: " ++ [QUOTE] ++ escapedTitle title ++ [QUOTE] ++ js ",";
      js "      body: " ++ [QUOTE] ++ escapedContent content ++ [QUOTE];
      js "    }});";
      js "    ";
      js "    return true";
      js "  " ].

Section WithJxa.

(** [runJxa(script)]: the library call, which throws when the script
    fails. *)
Variable runJxa : jsstring -> completion unit.

Definition createNote (title content : jsstring) : completion bool :=
  _ <- runJxa (script title content) ;;
  Normal true.

End WithJxa.

(** *** isIndexReady *)

Section WithLanceDB.

(** The calls on the database, each of which may throw:
    [db.tableNames()], [db.openTable(name)] and [table.countRows()]. *)
Variable Table : Type.
Variable tableNames : completion (list jsstring).
Variable openTable : jsstring -> completion Table.
Variable countRows : Table -> completion Z.

(** [tables.includes(name)] *)
Definition includes (tables : list jsstring) (name : jsstring) : bool :=
  existsb (fun t => Index.strEq t name) tables.

Definition isIndexReady : completion bool :=
  tryCatch
    (tables <- tableNames ;;
     if negb (includes tables (js "notes")) then Normal false
     else
       table <- openTable (js "notes") ;;
       count <- countRows table ;;
       Normal (0 <? count))
    (fun _ => Normal false).

End WithLanceDB.

End Tools.

(* ================================================================= *)
(** ** What the specification says, in its own words *)

Module Spec.

Import AppleNotesDB.

(** The code points of a string with the number of code units each one
    takes: a well-formed surrogate pair is one code point of two units,
    anything else one code point of one unit. *)
Fixpoint codePoints (s : jsstring) : list (Z * Z) :=
  match s with
  | [] => []
  | c :: rest =>
      match rest with
      | d :: rest' =>
          if isHighSurrogate c && isLowSurrogate d
          then (codePoint c d, 2) :: codePoints rest'
          else (c, 1) :: codePoints rest
      | [] => [(c, 1)]
      end
  end.

(** How many code units of the line belong to printable characters. *)
Definition printableUnits (line : jsstring) : Z :=
  fold_right (fun cp n => if isPrintable (fst cp) then snd cp + n else n)
             0 (codePoints line).

(** The fraction of the line that is printable, as a number. *)
Definition printableFraction (line : jsstring) : JS.number :=
  JS.div (JS.ofZ (printableUnits line)) (JS.ofZ (JS.length line)).

(** The threshold of the classifier for a line of the given length. *)
Definition threshold (len : Z) : JS.number :=
  if len <? 10 then threshold_short else threshold_long.

(** The lines that come before the first run of three garbage lines. *)
Fixpoint beforeCutoff (lines : list jsstring) : list jsstring :=
  match lines with
  | a :: rest =>
      match rest with
      | b :: c :: _ =>
          if isGarbageLine a && isGarbageLine b && isGarbageLine c then []
          else a :: beforeCutoff rest
      | _ => lines
      end
  | [] => []
  end.

Definition isProse (line : jsstring) : bool := negb (isGarbageLine line).

(** *** Lines *)

(** A string that starts with a character [trim] does not remove. *)
Definition startsBlack (s : jsstring) : Prop :=
  exists c r, s = c :: r /\ JS.isWhiteSpace c = false.

(** A line as [linesOf] produces them: not empty, white at neither end. *)
Definition isLine (s : jsstring) : Prop := startsBlack s /\ startsBlack (rev s).

(** A code unit that [linesOf] leaves where it is: not a line break, not
    one of the control characters that become line breaks, not U+FFFD. *)
Definition isPlain (c : JS.codeunit) : bool :=
  negb (c =? JS.LF) && negb (isControl c) && negb (c =? JS.REPLACEMENT).

Definition plainLine (line : jsstring) : Prop := forallb isPlain line = true.

(** *** Indexing *)

(** The options [indexNotes] passes to [chunkText]. *)
Definition configured (chunkSize chunkOverlap : Z) : TextChunker.ChunkOptions :=
  {| TextChunker.maxChunkSize := chunkSize;
     TextChunker.overlap := chunkOverlap |}.

(** The record made for a note without chunks: its content is the
    title. *)
Definition titleRecord (toLocaleString : Z -> jsstring) (index : N)
           (note : AppleNote) : Index.ChunkRecord :=
  {| Index.chunk_id := Index.decimal index;
     Index.chunk_title := AppleNotesDB.title note;
     Index.chunk_content := AppleNotesDB.title note;
     Index.creation_date := toLocaleString (creationDate note);
     Index.modification_date := toLocaleString (modificationDate note) |}.

(** The records already made are only appended to. *)
Definition prepend (pre : list Index.ChunkRecord) (st : Index.indexState)
  : Index.indexState :=
  {| Index.chunkIndex := Index.chunkIndex st;
     Index.records := pre ++ Index.records st |}.

(** The counter is the number of records made so far. *)
Definition counted (st : Index.indexState) : Prop :=
  Index.chunkIndex st = N.of_nat (List.length (Index.records st)).

(** *** Numbers and scores *)

(** Positive zero, a positive finite number or positive infinity. *)
Definition nonneg (x : JS.number) : Prop :=
  match x with
  | S754_zero false | S754_infinity false | S754_finite false _ _ => True
  | _ => False
  end.

(** The contributions a key receives from one list, best rank first: the
    item at position [idx] gives [1 / (60 + idx)]. *)
Fixpoint contributionsFrom (idx : Z) (key : jsstring)
         (results : list Index.SearchResult) : list JS.number :=
  match results with
  | [] => []
  | result :: rest =>
      if Index.strEq (Index.keyOf result) key
      then JS.div (JS.ofZ 1) (JS.ofZ (60 + idx)) :: contributionsFrom (idx + 1) key rest
      else contributionsFrom (idx + 1) key rest
  end.

Definition contributions (key : jsstring) (results : list Index.SearchResult)
  : list JS.number :=
  contributionsFrom 0 key results.

(** The sum of contributions, added in the order given. *)
Definition total (cs : list JS.number) : JS.number :=
  fold_left JS.add cs JS.zero.

(** The score a key has after receiving the contributions [cs]; a key
    that received none is not in the map. *)
Definition scoreOf (cs : list JS.number) : option JS.number :=
  match cs with
  | [] => None
  | _ :: _ => Some (total cs)
  end.

Definition accumulate (o : option JS.number) (cs : list JS.number)
  : option JS.number :=
  fold_left (fun o c => Some (JS.add (match o with Some v => v | None => JS.zero end) c))
            cs o.

Definition allNonneg (scores : Index.ScoreMap) : Prop :=
  Forall (fun entry => nonneg (snd entry)) scores.

(** *** The order of scores *)

(** The exponent of the smallest positive binary64 number. *)
Definition emin : Z := SpecFloat.emin JS.prec JS.emax.

(** A score as a whole number of units of [2 ^ emin]; [None] is
    infinity. *)
Definition units (x : JS.number) : option Z :=
  match x with
  | S754_finite _ m e => Some (Z.pos m * 2 ^ (e - emin))
  | S754_infinity _ => None
  | _ => Some 0
  end.

(** The strict order of these measures, infinity on top. *)
Definition below (a b : option Z) : bool :=
  match a, b with
  | Some u, Some v => u <? v
  | Some _, None => true
  | None, _ => false
  end.

(** [x] is a smaller score than [y]. *)
Definition scoreLt (x y : JS.number) : bool := below (units x) (units y).

(** The exponent of a finite number is a binary64 exponent. *)
Definition expBounded (x : JS.number) : Prop :=
  match x with
  | S754_finite _ _ e => emin <= e
  | _ => True
  end.

(** The numbers that occur as scores. *)
Definition isScore (x : JS.number) : Prop := nonneg x /\ expBounded x.

(** A positive finite number or positive infinity. *)
Definition strictlyPositive (x : JS.number) : Prop :=
  match x with
  | S754_finite false _ _ | S754_infinity false => True
  | _ => False
  end.

Definition allScores (scores : Index.ScoreMap) : Prop :=
  Forall (fun entry => isScore (snd entry)) scores.

(** [a] has at least the score of [b]. *)
Definition notBelow (a b : jsstring * JS.number) : Prop :=
  scoreLt (snd a) (snd b) = false.

(** The entry has the score that measures [u]. *)
Definition hasUnits (u : option Z) (entry : jsstring * JS.number) : bool :=
  match u, units (snd entry) with
  | Some a, Some b => a =? b
  | None, None => true
  | _, _ => false
  end.

(** The keys of a list, each at its first occurrence. *)
Definition addKey (seen : list jsstring) (key : jsstring) : list jsstring :=
  if existsb (fun k' => Index.strEq k' key) seen then seen else seen ++ [key].

Definition firstOccurrences (l : list jsstring) : list jsstring :=
  fold_left addKey l [].


(** *** Exact quotients *)

(** The number of binary digits of a positive integer. *)
Definition digits (p : positive) : Z := Z.pos (digits2_pos p).

Definition two52 : positive := 4503599627370496.
Definition two53 : Z := 9007199254740992.

(** The mantissa of 53 digits of a positive integer below [2 ^ 53]. *)
Definition mant53 (p : positive) : positive :=
  Z.to_pos (Z.pos p * 2 ^ (53 - digits p)).

(** The mantissa of the literal [0.90], which stands for
    [MT * 2 ^ -53]. *)
Definition MT : Z := 8106479329266893.

(** *** Keys *)

(** The part of a string in front of its first ["::"]; the whole string
    when it has none. *)
Fixpoint beforeSeparator (s : jsstring) : jsstring :=
  match s with
  | [] => []
  | c :: r => if JS.startsWith (js "::") s then [] else c :: beforeSeparator r
  end.

Definition COLON : JS.codeunit := 58.

(** The keys of a map, in insertion order. *)
Definition keys (scores : Index.ScoreMap) : list jsstring := List.map fst scores.

(** *** Chunks as pieces of the text *)

(** [chunk] is a contiguous piece of [text]. *)
Definition pieceOf (text chunk : jsstring) : Prop :=
  exists before after, text = before ++ chunk ++ after.

(** [chunk] is a contiguous piece of [text] that holds the code unit at
    position [p]. *)
Definition holds (text : jsstring) (p : nat) (chunk : jsstring) : Prop :=
  exists before after,
    text = before ++ chunk ++ after
    /\ (List.length before <= p < List.length before + List.length chunk)%nat.

(** A sentence end at position [p]: one of [.!?] there, and white space
    behind it. *)
Definition sentenceEndAt (text : jsstring) (p : Z) : bool :=
  match nth_error text (Z.to_nat p), nth_error text (Z.to_nat (p + 1)) with
  | Some c, Some d => (0 <=? p) && TextChunker.isTerminator c && JS.isWhiteSpace d
  | _, _ => false
  end.

(** *** Records *)

(** The texts indexed for a note: its chunks, or its title when it has
    none. *)
Definition textsOf (note : AppleNote) (chunks : list jsstring) : list jsstring :=
  match chunks with
  | [] => [AppleNotesDB.title note]
  | _ :: _ => chunks
  end.

(** What a record says, its identifier apart. *)
Definition fieldsOf (r : Index.ChunkRecord)
  : jsstring * jsstring * jsstring * jsstring :=
  (Index.chunk_title r, Index.chunk_content r,
   Index.creation_date r, Index.modification_date r).

(** The fields of the records of a note with the given chunks. *)
Definition fieldsFor (toLocaleString : Z -> jsstring) (note : AppleNote)
           (chunks : list jsstring)
  : list (jsstring * jsstring * jsstring * jsstring) :=
  List.map (fun text => (AppleNotesDB.title note, text,
                         toLocaleString (creationDate note),
                         toLocaleString (modificationDate note)))
           (textsOf note chunks).

(** The records are numbered from [first] on. *)
Definition numberedFrom (first : N) (records : list Index.ChunkRecord) : Prop :=
  forall i r, nth_error records i = Some r ->
              Index.chunk_id r = Index.decimal (first + N.of_nat i).

(** *** Results that their keys give back *)

(** The string contains ["::"]. *)
Fixpoint hasSeparator (s : jsstring) : bool :=
  match s with
  | [] => false
  | _ :: r => JS.startsWith (js "::") s || hasSeparator r
  end.

(** No colon in the title, no ["::"] in the content. *)
Definition separable (r : Index.SearchResult) : Prop :=
  Forall (fun u => u <> COLON) (Index.title r)
  /\ hasSeparator (Index.content r) = false.

(** The hit that stands for a result. *)
Definition hitOf (r : Index.SearchResult) : Index.Hit :=
  {| Index.hit_title := Some (Index.title r);
     Index.hit_content := Some (Index.content r) |}.

(** [x] stands in front of [y] in the list. *)
Definition precedes {A : Type} (x y : A) (l : list A) : Prop :=
  exists l1 l2 l3, l = l1 ++ x :: l2 ++ y :: l3.

(** *** JavaScript string literals *)

(** What a backslash and the character [e] stand for in a string
    literal: the character itself for a quote or a backslash and for any
    character without a meaning of its own, a control character for
    [b f n r t v], nothing for a line break (the literal goes on in the
    next line).  The escapes written with digits, [x] or [u] are not
    read here ([None]). *)
Definition escapeValue (e : JS.codeunit) : option jsstring :=
  if (e =? 98) then Some [8]
  else if (e =? 102) then Some [12]
  else if (e =? 110) then Some [10]
  else if (e =? 114) then Some [13]
  else if (e =? 116) then Some [9]
  else if (e =? 118) then Some [11]
  else if (e =? 10) || (e =? 13) || (e =? 8232) || (e =? 8233) then Some []
  else if JS.isDigit e || (e =? 120) || (e =? 117) then None
  else Some [e].

(** The value of a double-quoted string literal, read from behind its
    opening quote, and the text behind its closing quote; [None] when
    the text is not a string literal: a line feed or a carriage return
    in it, or no closing quote.  [acc] is the value read so far,
    reversed. *)
Fixpoint readLiteral (acc : jsstring) (s : jsstring)
  : option (jsstring * jsstring) :=
  match s with
  | [] => None
  | c :: r =>
      if c =? 34 then Some (rev acc, r)
      else if (c =? 10) || (c =? 13) then None
      else if c =? 92 then
        match r with
        | [] => None
        | e :: r' =>
            match escapeValue e with
            | None => None
            | Some v =>
                match e, r' with
                | 13, 10 :: r'' => readLiteral acc r''
                | _, _ => readLiteral (rev v ++ acc) r'
                end
            end
        end
      else readLiteral (c :: acc) r
  end.

(** A line feed or a carriage return. *)
Definition isLineBreak (c : JS.codeunit) : bool := (c =? 10) || (c =? 13).

(** The script of [createNote] in front of the title, between the title
    and the content, and behind the content. *)
Definition scriptHead : jsstring :=
  [JS.LF] ++ js "    const app = Application('Notes');" ++ [JS.LF]
  ++ js "    const note = app.make({new: 'note', withProperties: {" ++ [JS.LF]
  ++ js "      name: " ++ [Tools.QUOTE].

Definition scriptMiddle : jsstring :=
  js "," ++ [JS.LF] ++ js "      body: " ++ [Tools.QUOTE].

Definition scriptTail : jsstring :=
  [JS.LF] ++ js "    }});" ++ [JS.LF] ++ js "    " ++ [JS.LF]
  ++ js "    return true" ++ [JS.LF] ++ js "  ".

(** *** The size of the text extracted *)

(** The room the lines take when each is followed by a line feed. *)
Definition room (lines : list jsstring) : Z :=
  fold_right (fun line n => JS.length line + 1 + n) 0 lines.

(** *** Reciprocals and merging *)

(** [2 ^ 969], the weight of the last digit of a quotient whose divisor
    has 53 digits, in units of the smallest number. *)
Definition weight : Z := 2 ^ 969.

(** The entries one list of results gives when no key comes twice: the
    result at position [idx] with its contribution. *)
Fixpoint entriesFrom (idx : Z) (results : list Index.SearchResult) : Index.ScoreMap :=
  match results with
  | [] => []
  | result :: rest =>
      (Index.keyOf result, Index.contribution 0 idx) :: entriesFrom (idx + 1) rest
  end.

(** Two lists in descending order of score merged into one, the first
    list first among equal scores. *)
Fixpoint merge (v : Index.ScoreMap) : Index.ScoreMap -> Index.ScoreMap :=
  match v with
  | [] => fun f => f
  | x :: v' =>
      fix into (f : Index.ScoreMap) : Index.ScoreMap :=
        match f with
        | [] => x :: v'
        | y :: f' =>
            if scoreLt (snd x) (snd y) then y :: into f'
            else x :: merge v' f
        end
  end.

(** The elements of two lists in turn, the first list first; what is
    left of the longer list at the end. *)
Fixpoint interleave {A : Type} (v f : list A) : list A :=
  match v with
  | [] => f
  | x :: v' =>
      x :: match f with
           | [] => v'
           | y :: f' => y :: interleave v' f'
           end
  end.

(** *** Numerals *)

(** The value of decimal digits, most significant first, behind the
    value [acc] of the digits before them. *)
Fixpoint valueFrom (acc : N) (d : Decimal.uint) : N :=
  match d with
  | Decimal.Nil => acc
  | Decimal.D0 l => valueFrom (10 * acc) l
  | Decimal.D1 l => valueFrom (1 + 10 * acc) l
  | Decimal.D2 l => valueFrom (2 + 10 * acc) l
  | Decimal.D3 l => valueFrom (3 + 10 * acc) l
  | Decimal.D4 l => valueFrom (4 + 10 * acc) l
  | Decimal.D5 l => valueFrom (5 + 10 * acc) l
  | Decimal.D6 l => valueFrom (6 + 10 * acc) l
  | Decimal.D7 l => valueFrom (7 + 10 * acc) l
  | Decimal.D8 l => valueFrom (8 + 10 * acc) l
  | Decimal.D9 l => valueFrom (9 + 10 * acc) l
  end%N.

End Spec.

(* ================================================================= *)
(** ** Sample inputs *)

Module Examples.

Definition newline : string := String (ascii_of_nat 10) EmptyString.

(** Five lines of prose, then four lines of fewer than 3 characters. *)
Definition prose : list string :=
  [ "Meeting notes from Tuesday";
    "We agreed to ship the beta in March.";
    "Anna will write the release notes";
    "Budget review is still open!";
    "Next meeting: Friday at ten" ]%string.

Definition short : list string := [ "ab"; "x"; "**"; "zz" ]%string.

Definition noteBytes : list byte :=
  Utf8.bytes (String.concat newline (prose ++ short)).

(** A stand-in for the inflater: it gives back what follows the two
    magic bytes and throws when nothing does. *)
Definition toyUngzip (buffer : list byte) : completion (list byte) :=
  match buffer with
  | _ :: _ :: (_ :: _) as payload => Normal payload
  | _ => Throw (js "incorrect header check")
  end.

Definition toyLocaleString (date : Z) : jsstring := Index.decimal (Z.to_N date).

Definition A : Index.SearchResult := {| Index.title := js "A"; Index.content := js "alpha" |}.
Definition B : Index.SearchResult := {| Index.title := js "B"; Index.content := js "beta" |}.
Definition C : Index.SearchResult := {| Index.title := js "C"; Index.content := js "gamma" |}.
Definition D : Index.SearchResult := {| Index.title := js "D"; Index.content := js "delta" |}.

Definition sentences : jsstring :=
  js "First sentence. Second sentence. Third sentence.".

Definition smallChunks : TextChunker.ChunkOptions :=
  {| TextChunker.maxChunkSize := 30; TextChunker.overlap := 5 |}.

Definition testChunks : TextChunker.ChunkOptions :=
  {| TextChunker.maxChunkSize := 500; TextChunker.overlap := 50 |}.

(** A row without content, and a row with content, as the query of
    [getAllNotesWithContent] returns them. *)
Definition emptyRow : AppleNotesDB.Row :=
  {| AppleNotesDB.row_id := 7;
     AppleNotesDB.row_title := Some (js "Groceries");
     AppleNotesDB.row_snippet := None;
     AppleNotesDB.row_creationDate := Some 694224000;
     AppleNotesDB.row_modificationDate := Some 694224060;
     AppleNotesDB.row_folderId := None;
     AppleNotesDB.row_content := None |}.

Definition emptyNote : AppleNotesDB.AppleNote :=
  {| AppleNotesDB.id := 7;
     AppleNotesDB.title := js "Groceries";
     AppleNotesDB.snippet := [];
     AppleNotesDB.content := [];
     AppleNotesDB.creationDate := 1672531200000;
     AppleNotesDB.modificationDate := 1672531260000;
     AppleNotesDB.folderId := None;
     AppleNotesDB.folderName := None |}.

Definition fullNote : AppleNotesDB.AppleNote :=
  {| AppleNotesDB.id := 8;
     AppleNotesDB.title := js "Ideas";
     AppleNotesDB.snippet := [];
     AppleNotesDB.content := js "Plant a tree";
     AppleNotesDB.creationDate := 0;
     AppleNotesDB.modificationDate := 0;
     AppleNotesDB.folderId := None;
     AppleNotesDB.folderName := None |}.

(** A buffer that is not compressed. *)
Definition plainBuffer : list byte := Utf8.bytes "Buy milk".

(** The records made for the notes [fullNote], [emptyNote], [fullNote]. *)
Definition threeRecords : list Index.ChunkRecord :=
  Eval vm_compute in
    match Index.indexNotes 1000 100 toyLocaleString 10
                           [fullNote; emptyNote; fullNote] with
    | Some out => out
    | None => []
    end.

End Examples.

(* ================================================================= *)
(** ** Strings: length, trim and slice *)

Section StringFacts.

Lemma length_nonneg (s : jsstring) : 0 <= JS.length s.
Proof. unfold JS.length. lia. Qed.

Lemma length_nil : JS.length [] = 0.
Proof. reflexivity. Qed.

Lemma length_cons (c : Z) (s : jsstring) : JS.length (c :: s) = 1 + JS.length s.
Proof. unfold JS.length. cbn [List.length]. lia. Qed.

Lemma length_app (s t : jsstring) :
  JS.length (s ++ t) = JS.length s + JS.length t.
Proof. unfold JS.length. rewrite List.length_app. lia. Qed.

Lemma length_zero_nil (s : jsstring) : JS.length s = 0 -> s = [].
Proof. destruct s; [reflexivity | rewrite length_cons; pose proof (length_nonneg s); lia]. Qed.

Lemma trimStart_length (s : jsstring) :
  (List.length (JS.trimStart s) <= List.length s)%nat.
Proof.
  induction s as [|c r IH]; cbn; [lia|].
  destruct (JS.isWhiteSpace c); cbn; lia.
Qed.

Lemma trim_length (s : jsstring) : JS.length (JS.trim s) <= JS.length s.
Proof.
  unfold JS.trim, JS.trimEnd, JS.length.
  rewrite List.length_rev.
  pose proof (trimStart_length (rev (JS.trimStart s))) as H1.
  rewrite List.length_rev in H1.
  pose proof (trimStart_length s). lia.
Qed.

Lemma clampIndex_range (len i : Z) :
  0 <= len -> 0 <= JS.clampIndex len i <= len.
Proof. unfold JS.clampIndex. destruct (Z.ltb_spec i 0); lia. Qed.

Lemma clampIndex_inside (len i : Z) :
  0 <= i <= len -> JS.clampIndex len i = i.
Proof. unfold JS.clampIndex. destruct (Z.ltb_spec i 0); lia. Qed.

Lemma slice_length_le (s : jsstring) (a b : Z) :
  0 <= a -> a <= b -> JS.length (JS.slice s a b) <= b - a.
Proof.
  intros Ha Hab. unfold JS.slice.
  pose proof (length_nonneg s) as Hs.
  unfold JS.clampIndex.
  destruct (Z.ltb_spec a 0); [lia|].
  destruct (Z.ltb_spec b 0); [lia|].
  unfold JS.length in *. rewrite List.length_firstn. lia.
Qed.

Lemma slice_inside_length (s : jsstring) (a b : Z) :
  0 <= a -> a <= b -> b <= JS.length s -> JS.length (JS.slice s a b) = b - a.
Proof.
  intros Ha Hab Hb. unfold JS.slice.
  rewrite !clampIndex_inside by lia.
  unfold JS.length in *. rewrite List.length_firstn, List.length_skipn. lia.
Qed.

End StringFacts.

(* ================================================================= *)
(** ** The garbage classifier *)

Section Classifier.

Import AppleNotesDB Spec.

Lemma markersOnly_Forall (line : jsstring) :
  line <> [] ->
  (markersOnly line = true <-> Forall (fun c => isMarker c = true) line).
Proof.
  intros Hne. destruct line as [|c r]; [congruence|].
  unfold markersOnly. rewrite forallb_forall, Forall_forall. reflexivity.
Qed.

(** [cleanLine] keeps exactly the code units of printable characters. *)
Lemma cleanLine_printableUnits (line : jsstring) :
  JS.length (cleanLine line) = printableUnits line.
Proof.
  unfold printableUnits.
  assert (H : forall n (s : jsstring), (List.length s <= n)%nat ->
            JS.length (cleanLine s)
            = fold_right (fun cp n => if isPrintable (fst cp) then snd cp + n else n)
                         0 (codePoints s)).
  { induction n as [|n IH]; intros s Hn.
    - destruct s; [reflexivity | cbn in Hn; lia].
    - destruct s as [|c rest]; [reflexivity|].
      cbn [cleanLine codePoints].
      destruct rest as [|d rest'].
      + cbn. destruct (isHighSurrogate c); destruct (isPrintable c); reflexivity.
      + destruct (isHighSurrogate c) eqn:Hc; cbn [andb].
        * destruct (isLowSurrogate d) eqn:Hd.
          -- cbn [fold_right fst snd].
             destruct (isPrintable (codePoint c d)).
             ++ rewrite !length_cons, IH by (cbn in Hn; lia). lia.
             ++ apply IH. cbn in Hn; lia.
          -- cbn [fold_right fst snd].
             destruct (isPrintable c).
             ++ rewrite length_cons, IH by (cbn in Hn |- *; lia). reflexivity.
             ++ apply IH. cbn in Hn |- *; lia.
        * cbn [fold_right fst snd].
          destruct (isPrintable c).
          -- rewrite length_cons, IH by (cbn in Hn |- *; lia). reflexivity.
          -- apply IH. cbn in Hn |- *; lia. }
  apply (H (List.length line)). lia.
Qed.

Lemma cleanLine_length (line : jsstring) :
  JS.length (cleanLine line) <= JS.length line.
Proof.
  assert (H : forall n (s : jsstring), (List.length s <= n)%nat ->
            JS.length (cleanLine s) <= JS.length s).
  { induction n as [|n IH]; intros s Hn.
    - destruct s; [cbn; lia | cbn in Hn; lia].
    - destruct s as [|c rest]; [cbn; lia|].
      pose proof (IH rest ltac:(cbn in Hn; lia)) as H1.
      cbn [cleanLine]. rewrite length_cons.
      destruct rest as [|d rest'].
      + destruct (isHighSurrogate c); destruct (isPrintable c); cbn; lia.
      + pose proof (IH rest' ltac:(cbn in Hn; lia)) as H2.
        rewrite length_cons in H1. rewrite length_cons.
        destruct (isHighSurrogate c); [destruct (isLowSurrogate d)|];
          repeat match goal with
                 | |- context [if ?b then _ else _] => destruct b
                 end;
          rewrite ?length_cons; lia. }
  apply (H (List.length line)). lia.
Qed.

(** Below 10 code units the quotient is under 0.98 as soon as one code
    unit is missing. *)
Lemma short_fraction_exact (c n : Z) :
  0 <= c <= n -> 0 < n < 10 ->
  JS.ltb (JS.div (JS.ofZ c) (JS.ofZ n)) threshold_short = (c <? n).
Proof.
  intros Hc Hn.
  assert (Hn' : In n [1; 2; 3; 4; 5; 6; 7; 8; 9]) by (cbn; lia).
  assert (Hc' : In c [0; 1; 2; 3; 4; 5; 6; 7; 8; 9]) by (cbn; lia).
  cbn [In] in Hn', Hc'.
  repeat (destruct Hn' as [<-|Hn']); try contradiction;
    repeat (destruct Hc' as [<-|Hc']); try contradiction;
    try lia; vm_compute; reflexivity.
Qed.

(** The threshold is lower for the longer lines. *)
Lemma threshold_long_below_short : JS.ltb threshold_long threshold_short = true.
Proof. reflexivity. Qed.

(** The literals are the binary64 values nearest to 98/100 and 90/100. *)
Lemma threshold_values :
  threshold_short = JS.div (JS.ofZ 98) (JS.ofZ 100)
  /\ threshold_long = JS.div (JS.ofZ 90) (JS.ofZ 100).
Proof. split; vm_compute; reflexivity. Qed.

(** So a line of 3 to 9 code units is garbage exactly when it is made of
    markers only or has a code unit that is not printable. *)
Lemma isGarbageLine_short_exact (line : jsstring) :
  3 <= JS.length line < 10 ->
  isGarbageLine line = markersOnly line || (printableUnits line <? JS.length line).
Proof.
  intros Hlen. unfold isGarbageLine.
  destruct (Z.ltb_spec (JS.length line) 3); [lia|].
  destruct (markersOnly line); [reflexivity|]. cbn [orb].
  destruct (Z.ltb_spec (JS.length line) 10); [|lia].
  rewrite <- cleanLine_printableUnits.
  apply short_fraction_exact; [|lia].
  split; [apply length_nonneg | apply cleanLine_length].
Qed.

End Classifier.

(* ================================================================= *)
(** ** The readable-text extractor *)

Section Extractor.

Import AppleNotesDB Spec.

Lemma startsBlack_trimStart (s : jsstring) : startsBlack s -> JS.trimStart s = s.
Proof. intros (c & r & -> & Hc). cbn. rewrite Hc. reflexivity. Qed.

Lemma startsBlack_app (s t : jsstring) : startsBlack s -> startsBlack (s ++ t).
Proof. intros (c & r & -> & Hc). exists c, (r ++ t). split; [reflexivity | exact Hc]. Qed.

Lemma trimStart_startsBlack (s : jsstring) :
  JS.trimStart s <> [] -> startsBlack (JS.trimStart s).
Proof.
  induction s as [|c r IH]; cbn; [congruence|].
  destruct (JS.isWhiteSpace c) eqn:Hc; [exact IH|].
  intros _. exists c, r. split; [reflexivity | exact Hc].
Qed.

Lemma trimStart_snoc (s : jsstring) (c : Z) :
  JS.isWhiteSpace c = false -> JS.trimStart (s ++ [c]) = JS.trimStart s ++ [c].
Proof.
  intros Hc. induction s as [|d r IH]; cbn.
  - rewrite Hc. reflexivity.
  - destruct (JS.isWhiteSpace d); [exact IH | reflexivity].
Qed.

Lemma isLine_trim_fixed (s : jsstring) : isLine s -> JS.trim s = s.
Proof.
  intros [H1 H2]. unfold JS.trim, JS.trimEnd.
  rewrite (startsBlack_trimStart s H1), (startsBlack_trimStart _ H2).
  apply rev_involutive.
Qed.

Lemma trim_isLine (s : jsstring) : JS.trim s <> [] -> isLine (JS.trim s).
Proof.
  unfold JS.trim, JS.trimEnd. intros Hne.
  assert (Ht : JS.trimStart s <> []).
  { intros E. rewrite E in Hne. cbn in Hne. congruence. }
  split.
  - destruct (trimStart_startsBlack s Ht) as (c & r & E & Hc).
    rewrite E. cbn [rev]. rewrite trimStart_snoc by exact Hc.
    rewrite rev_app_distr. cbn. exists c, (rev (JS.trimStart (rev r))).
    split; [reflexivity | exact Hc].
  - rewrite rev_involutive. apply trimStart_startsBlack.
    intros E. rewrite E in Hne. cbn in Hne. congruence.
Qed.

Lemma join_cons2 (sep x y : jsstring) (r : list jsstring) :
  JS.join sep (x :: y :: r) = x ++ sep ++ JS.join sep (y :: r).
Proof. reflexivity. Qed.

Lemma join_isLine (sep : jsstring) (l : list jsstring) :
  l <> [] -> Forall isLine l -> isLine (JS.join sep l).
Proof.
  induction l as [|x r IH]; [congruence|]. intros _ Hall.
  inversion Hall as [|? ? Hx Hr]; subst.
  destruct r as [|y r']; [exact Hx|].
  rewrite join_cons2. destruct Hx as [Hx1 Hx2].
  destruct (IH ltac:(congruence) Hr) as [_ IH2].
  split.
  - apply startsBlack_app. exact Hx1.
  - rewrite !rev_app_distr, <- !app_assoc. apply startsBlack_app. exact IH2.
Qed.

Lemma trim_join_lines (sep : jsstring) (l : list jsstring) :
  Forall isLine l -> JS.trim (JS.join sep l) = JS.join sep l.
Proof.
  intros Hall. destruct l as [|x r]; [reflexivity|].
  apply isLine_trim_fixed, join_isLine; [congruence | exact Hall].
Qed.

Lemma linesOf_isLine (str : jsstring) : Forall isLine (linesOf str).
Proof.
  unfold linesOf. apply Forall_forall. intros line Hin.
  apply filter_In in Hin. destruct Hin as [Hin Hlen].
  apply in_map_iff in Hin. destruct Hin as (q & <- & _).
  apply trim_isLine. intros E. rewrite E in Hlen. discriminate.
Qed.

(** *** The scan *)

Lemma beforeCutoff_short (lines : list jsstring) :
  (List.length lines < 3)%nat -> beforeCutoff lines = lines.
Proof.
  destruct lines as [|a [|b [|c r]]]; cbn; intros; try reflexivity; lia.
Qed.

Lemma beforeCutoff_cons (a : jsstring) (rest : list jsstring) :
  beforeCutoff (a :: rest) =
    match rest with
    | b :: c :: _ =>
        if isGarbageLine a && isGarbageLine b && isGarbageLine c then []
        else a :: beforeCutoff rest
    | _ => a :: rest
    end.
Proof. destruct rest as [|b [|c r]]; reflexivity. Qed.

(** A kept line setting the counter back to zero: the garbage lines
    [pre] seen just before it, at most two, change nothing. *)
Lemma beforeCutoff_prose (pre : list jsstring) (line : jsstring)
      (rest : list jsstring) :
  (List.length pre < 3)%nat ->
  Forall (fun l => isGarbageLine l = true) pre ->
  isGarbageLine line = false ->
  filter isProse (beforeCutoff (pre ++ line :: rest))
  = line :: filter isProse (beforeCutoff rest).
Proof.
  intros Hlen Hpre Hline.
  assert (H0 : filter isProse (beforeCutoff (line :: rest))
               = line :: filter isProse (beforeCutoff rest)).
  { rewrite beforeCutoff_cons. destruct rest as [|b [|c r]].
    - cbn. unfold isProse. rewrite Hline. reflexivity.
    - cbn. unfold isProse. rewrite Hline. reflexivity.
    - rewrite Hline. cbn [andb filter]. unfold isProse at 1.
      rewrite Hline. reflexivity. }
  assert (H1 : forall g, isGarbageLine g = true ->
               filter isProse (beforeCutoff (g :: line :: rest))
               = line :: filter isProse (beforeCutoff rest)).
  { intros g Hg. rewrite beforeCutoff_cons. destruct rest as [|c r].
    - cbn. unfold isProse. rewrite Hg, Hline. reflexivity.
    - rewrite Hline, andb_false_r. cbn [andb filter]. unfold isProse at 1.
      rewrite Hg. cbn [negb]. exact H0. }
  destruct pre as [|g1 [|g2 [|g3 pre']]]; cbn [app].
  - exact H0.
  - inversion Hpre; subst. apply H1. assumption.
  - inversion Hpre as [|? ? Hg1 Hpre']; subst.
    inversion Hpre' as [|? ? Hg2 _]; subst.
    rewrite beforeCutoff_cons. rewrite Hline, andb_false_r.
    cbn [filter]. unfold isProse at 1. rewrite Hg1. cbn [negb].
    apply H1. exact Hg2.
  - cbn in Hlen. lia.
Qed.

(** The loop against the specification: [pre] are the garbage lines
    counted since the last kept line. *)
Lemma scanLines_beforeCutoff (lines : list jsstring) :
  forall (pre goodLines : list jsstring),
    (List.length pre < 3)%nat ->
    Forall (fun l => isGarbageLine l = true) pre ->
    scanLines lines goodLines (Z.of_nat (List.length pre))
    = goodLines ++ filter isProse (beforeCutoff (pre ++ lines)).
Proof.
  induction lines as [|line rest IH]; intros pre good Hlen Hpre.
  - cbn [scanLines]. rewrite app_nil_r, beforeCutoff_short by exact Hlen.
    replace (filter isProse pre) with (@nil jsstring); [now rewrite app_nil_r|].
    symmetry. clear Hlen. induction Hpre as [|g pre' Hg _ IHp]; [reflexivity|].
    cbn. unfold isProse at 1. rewrite Hg. exact IHp.
  - cbn [scanLines]. destruct (isGarbageLine line) eqn:Hline.
    + unfold maxConsecutiveGarbage.
      destruct (Z.leb_spec 3 (Z.of_nat (List.length pre) + 1)) as [Hstop|Hgo].
      * destruct pre as [|g1 [|g2 [|g3 pre']]]; cbn in Hstop, Hlen; try lia.
        inversion Hpre as [|? ? Hg1 Hpre']; subst.
        inversion Hpre' as [|? ? Hg2 _]; subst.
        cbn [app]. rewrite beforeCutoff_cons, Hg1, Hg2, Hline.
        cbn. now rewrite app_nil_r.
      * replace (Z.of_nat (List.length pre) + 1)
          with (Z.of_nat (List.length (pre ++ [line])))
          by (rewrite List.length_app; cbn; lia).
        rewrite IH.
        -- rewrite <- app_assoc. reflexivity.
        -- rewrite List.length_app. cbn. lia.
        -- apply Forall_app. split; [exact Hpre | constructor; [exact Hline | constructor]].
    + change 0 with (Z.of_nat (List.length (@nil jsstring))).
      rewrite IH by first [cbn; lia | constructor].
      rewrite beforeCutoff_prose by assumption.
      cbn [app]. rewrite <- app_assoc. reflexivity.
Qed.

Lemma scanLines_garbage (lines goodLines : list jsstring) (n : Z) :
  Forall (fun l => isGarbageLine l = true) lines ->
  scanLines lines goodLines n = goodLines.
Proof.
  intros H. revert n. induction H as [|l r Hl _ IH]; intros n; cbn [scanLines].
  - reflexivity.
  - rewrite Hl. destruct (maxConsecutiveGarbage <=? n + 1); [reflexivity | apply IH].
Qed.

Lemma scanLines_prose_then_garbage (prose short goodLines : list jsstring) :
  Forall (fun l => isProse l = true) prose ->
  Forall (fun l => isGarbageLine l = true) short ->
  forall n, scanLines (prose ++ short) goodLines n = goodLines ++ prose.
Proof.
  intros Hp Hs. revert goodLines.
  induction Hp as [|l r Hl _ IH]; intros good n; cbn [app].
  - rewrite app_nil_r. apply scanLines_garbage. exact Hs.
  - cbn [scanLines]. unfold isProse in Hl.
    destruct (isGarbageLine l); [discriminate|].
    rewrite IH, <- app_assoc. reflexivity.
Qed.

Lemma scanLines_incl (lines : list jsstring) :
  forall goodLines n line,
    In line (scanLines lines goodLines n) -> In line goodLines \/ In line lines.
Proof.
  induction lines as [|l r IH]; intros good n line Hin; cbn [scanLines] in Hin.
  - left. exact Hin.
  - destruct (isGarbageLine l).
    + destruct (maxConsecutiveGarbage <=? n + 1); [left; exact Hin|].
      destruct (IH _ _ _ Hin); [left | right; right]; assumption.
    + destruct (IH _ _ _ Hin) as [H|H].
      * apply in_app_or in H. destruct H as [H|[<-|[]]]; [left; exact H | right; left; reflexivity].
      * right; right; exact H.
Qed.

Lemma short_is_garbage (line : jsstring) :
  JS.length line < 3 -> isGarbageLine line = true.
Proof.
  intros H. unfold isGarbageLine.
  destruct (Z.ltb_spec (JS.length line) 3); [reflexivity | lia].
Qed.

(** The final [trim] finds nothing to remove. *)
Lemma extractText_join (data : list byte) :
  extractTextFromProtobuf data
  = JS.join [JS.LF] (scanLines (linesOf (Utf8.toString data)) [] 0).
Proof.
  unfold extractTextFromProtobuf. apply trim_join_lines.
  apply Forall_forall. intros line Hin.
  apply scanLines_incl in Hin. destruct Hin as [[]|Hin].
  pose proof (linesOf_isLine (Utf8.toString data)) as H.
  rewrite Forall_forall in H. apply H. exact Hin.
Qed.

(** *** From the text to its lines *)

Lemma startsWith_LF (c : Z) (r : jsstring) :
  JS.startsWith [JS.LF] (c :: r) = (JS.LF =? c).
Proof. cbn [JS.startsWith]. apply andb_true_r. Qed.

Lemma splitFrom_no_LF (line : jsstring) :
  Forall (fun c => c <> JS.LF) line ->
  forall cur, JS.splitFrom [JS.LF] O cur line = [rev cur ++ line].
Proof.
  intros H. induction H as [|c r Hc _ IH]; intros cur.
  - cbn. rewrite app_nil_r. reflexivity.
  - cbn [JS.splitFrom]. rewrite startsWith_LF.
    destruct (Z.eqb_spec JS.LF c) as [E|_]; [symmetry in E; contradiction|].
    rewrite IH. cbn [rev]. rewrite <- app_assoc. reflexivity.
Qed.

Lemma splitFrom_line_LF (line rest : jsstring) :
  Forall (fun c => c <> JS.LF) line ->
  forall cur,
    JS.splitFrom [JS.LF] O cur (line ++ JS.LF :: rest)
    = (rev cur ++ line) :: JS.splitFrom [JS.LF] O [] rest.
Proof.
  intros H. induction H as [|c r Hc _ IH]; intros cur.
  - cbn [app JS.splitFrom]. rewrite startsWith_LF, Z.eqb_refl, app_nil_r. reflexivity.
  - cbn [app JS.splitFrom]. rewrite startsWith_LF.
    destruct (Z.eqb_spec JS.LF c) as [E|_]; [symmetry in E; contradiction|].
    rewrite IH. cbn [rev]. rewrite <- app_assoc. reflexivity.
Qed.

Lemma split_join (ls : list jsstring) :
  ls <> [] ->
  Forall (Forall (fun c => c <> JS.LF)) ls ->
  JS.split [JS.LF] (JS.join [JS.LF] ls) = ls.
Proof.
  unfold JS.split. induction ls as [|x r IH]; [congruence|]. intros _ Hall.
  inversion Hall as [|? ? Hx Hr]; subst.
  destruct r as [|y r']; [apply (splitFrom_no_LF x Hx [])|].
  rewrite join_cons2. cbn [app].
  rewrite (splitFrom_line_LF x _ Hx []). cbn [rev app].
  rewrite IH; [reflexivity | congruence | exact Hr].
Qed.

Lemma join_Forall (P : Z -> Prop) (sep : jsstring) (ls : list jsstring) :
  Forall P sep -> Forall (Forall P) ls -> Forall P (JS.join sep ls).
Proof.
  intros Hsep Hall. induction Hall as [|x r Hx Hr IH]; [constructor|].
  destruct r as [|y r']; [exact Hx|].
  rewrite join_cons2. apply Forall_app. split; [exact Hx|].
  apply Forall_app. split; [exact Hsep | exact IH].
Qed.

Lemma plainLine_Forall (P : Z -> Prop) (line : jsstring) :
  (forall c, isPlain c = true -> P c) -> plainLine line -> Forall P line.
Proof.
  intros HP H. unfold plainLine in H. rewrite forallb_forall in H.
  apply Forall_forall. intros c Hc. apply HP, H, Hc.
Qed.

Lemma map_id_Forall {A : Type} (f : A -> A) (l : list A) :
  Forall (fun x => f x = x) l -> List.map f l = l.
Proof. intros H. induction H as [|x r Hx _ IH]; cbn; congruence. Qed.

Lemma filter_id_Forall {A : Type} (f : A -> bool) (l : list A) :
  Forall (fun x => f x = true) l -> filter f l = l.
Proof.
  intros H. induction H as [|x r Hx _ IH]; cbn; [reflexivity|].
  rewrite Hx, IH. reflexivity.
Qed.

(** The lines of a text of plain lines joined by line breaks are these
    lines, trimmed, without the empty ones. *)
Lemma linesOf_join (ls : list jsstring) :
  Forall plainLine ls ->
  linesOf (JS.join [JS.LF] ls)
  = filter (fun line => 0 <? JS.length line) (List.map JS.trim ls).
Proof.
  intros Hplain. unfold linesOf.
  destruct ls as [|x r]; [reflexivity|].
  assert (Hjoin : forall P : Z -> Prop,
             P JS.LF -> (forall c, isPlain c = true -> P c) ->
             Forall P (JS.join [JS.LF] (x :: r))).
  { intros P HLF HP. apply join_Forall; [constructor; [exact HLF | constructor]|].
    eapply Forall_impl; [|exact Hplain]. intros line. apply plainLine_Forall, HP. }
  rewrite (map_id_Forall (fun c => if isControl c then JS.LF else c)).
  - rewrite (filter_id_Forall (fun c => negb (c =? JS.REPLACEMENT))).
    + rewrite split_join; [reflexivity | congruence |].
      eapply Forall_impl; [|exact Hplain]. intros line. apply plainLine_Forall.
      intros c Hc E. subst c. discriminate Hc.
    + apply Hjoin; [reflexivity|]. intros c Hc. unfold isPlain in Hc.
      apply andb_prop in Hc. destruct Hc as [_ Hc]. exact Hc.
  - apply Hjoin; [reflexivity|]. intros c Hc. unfold isPlain in Hc.
    apply andb_prop in Hc. destruct Hc as [Hc _].
    apply andb_prop in Hc. destruct Hc as [_ Hc].
    destruct (isControl c); [discriminate | reflexivity].
Qed.

Lemma isLine_nonempty (line : jsstring) : isLine line -> (0 <? JS.length line) = true.
Proof.
  intros [(c & r & -> & _) _]. rewrite length_cons.
  pose proof (length_nonneg r). apply Z.ltb_lt. lia.
Qed.

(** C1. For every buffer, the text extracted is the lines of the buffer
    that are not garbage and come before the first run of three
    consecutive garbage lines, in their order, joined by line breaks;
    nothing behind that run is kept.  In particular, when the lines are
    prose lines (five, say) followed by lines of fewer than 3 code units
    (four, say), the text is exactly the prose lines joined in order; so
    it is for a buffer that decodes to such prose lines and short lines
    joined by line breaks. *)
Theorem extractText_keeps_prose_until_cutoff (data : list byte) :
  let lines := linesOf (Utf8.toString data) in
  extractTextFromProtobuf data
  = JS.join [JS.LF] (filter isProse (beforeCutoff lines))
  /\ (forall prose short : list jsstring,
        lines = prose ++ short ->
        Forall (fun l => isProse l = true) prose ->
        Forall (fun l => JS.length l < 3) short ->
        extractTextFromProtobuf data = JS.join [JS.LF] prose)
  /\ (forall prose short : list jsstring,
        Utf8.toString data = JS.join [JS.LF] (prose ++ short) ->
        Forall plainLine (prose ++ short) ->
        Forall isLine prose ->
        Forall (fun l => isProse l = true) prose ->
        Forall (fun l => JS.length l < 3) short ->
        extractTextFromProtobuf data = JS.join [JS.LF] prose).
Proof.
  intros lines.
  assert (Hsecond : forall prose short : list jsstring,
             lines = prose ++ short ->
             Forall (fun l => isProse l = true) prose ->
             Forall (fun l => JS.length l < 3) short ->
             extractTextFromProtobuf data = JS.join [JS.LF] prose).
  { intros prose short Hlines Hp Hs.
    rewrite extractText_join. fold lines. rewrite Hlines.
    rewrite scanLines_prose_then_garbage; [reflexivity | exact Hp |].
    eapply Forall_impl; [|exact Hs]. intros l. apply short_is_garbage. }
  split; [|split; [exact Hsecond|]].
  - rewrite extractText_join. fold lines.
    change 0 with (Z.of_nat (List.length (@nil jsstring))).
    rewrite scanLines_beforeCutoff by first [cbn; lia | constructor].
    reflexivity.
  - intros prose short Hstr Hplain Hline Hp Hs.
    apply (Hsecond prose
             (filter (fun line => 0 <? JS.length line) (List.map JS.trim short))).
    + unfold lines. rewrite Hstr, linesOf_join by exact Hplain.
      rewrite map_app, filter_app. f_equal.
      rewrite map_id_Forall.
      * apply filter_id_Forall. eapply Forall_impl; [|exact Hline].
        intros l. apply isLine_nonempty.
      * eapply Forall_impl; [|exact Hline]. intros l. apply isLine_trim_fixed.
    + exact Hp.
    + apply Forall_forall. intros l Hin. apply filter_In in Hin.
      destruct Hin as [Hin _]. apply in_map_iff in Hin.
      destruct Hin as (q & <- & Hq). rewrite Forall_forall in Hs.
      pose proof (Hs q Hq). pose proof (trim_length q). lia.
Qed.

End Extractor.

(* ================================================================= *)
(** ** The content decoder *)

Section Decoder.

Import AppleNotesDB.

Variable ungzip : list byte -> completion (list byte).

(** C4. [parseNoteContent] always completes normally.  Absent content
    gives the empty string; a buffer that starts with the bytes 1F 8B is
    inflated and the text extracted from the inflated bytes, and when
    inflating throws the result is the empty string; any other buffer is
    decoded as UTF-8, invalid sequences replaced. *)
Theorem parseNoteContent_total (data : option (list byte)) :
  parseNoteContent ungzip data =
    Normal
      match data with
      | None => []
      | Some buffer =>
          match buffer with
          | x1f :: x8b :: _ =>
              match ungzip buffer with
              | Normal decompressed => extractTextFromProtobuf decompressed
              | Throw _ => []
              end
          | _ => Utf8.toString buffer
          end
      end.
Proof.
  destruct data as [buffer|]; [|reflexivity].
  unfold parseNoteContent.
  destruct buffer as [|b0 [|b1 rest]];
    [reflexivity | destruct b0; reflexivity |].
  unfold hasGzipMagic.
  destruct (Byte.eqb b0 x1f) eqn:E0.
  - apply Byte.byte_dec_bl in E0. subst b0.
    destruct (Byte.eqb b1 x8b) eqn:E1.
    + apply Byte.byte_dec_bl in E1. subst b1. cbn [andb].
      destruct (ungzip (x1f :: x8b :: rest)); reflexivity.
    + cbn [andb tryCatch].
      destruct b1; try reflexivity. discriminate E1.
  - cbn [andb tryCatch].
    destruct b0; try reflexivity. discriminate E0.
Qed.

End Decoder.

(* ================================================================= *)
(** ** The chunker *)

Section Chunker.

Import TextChunker.

Lemma searchFrom_bounds (s : jsstring) :
  forall i, searchFrom i s = -1
            \/ (i <= searchFrom i s /\ searchFrom i s + 2 <= i + JS.length s).
Proof.
  induction s as [|c rest IH]; intros i; [left; reflexivity|].
  cbn [searchFrom]. destruct rest as [|d rest']; [left; reflexivity|].
  destruct (isTerminator c && JS.isWhiteSpace d).
  - right. rewrite !length_cons. pose proof (length_nonneg rest'). lia.
  - destruct (IH (i + 1)) as [H|H]; [left; exact H|].
    right. rewrite (length_cons c). lia.
Qed.

Section Window.

Variable text : jsstring.
Variable options : ChunkOptions.
Hypothesis size_positive : 0 < maxChunkSize options.

(** The window that starts inside the text is not empty and is no
    wider than [maxChunkSize]. *)
Lemma windowEnd_bounds (start : Z) :
  0 <= start < JS.length text ->
  start < windowEnd text options start
  /\ windowEnd text options start <= start + maxChunkSize options
  /\ windowEnd text options start <= JS.length text.
Proof.
  intros Hs. unfold windowEnd.
  set (end_ := Z.min (start + maxChunkSize options) (JS.length text)).
  assert (He : start < end_ <= JS.length text) by (unfold end_; lia).
  assert (He' : end_ <= start + maxChunkSize options) by (unfold end_; lia).
  destruct (Z.ltb_spec end_ (JS.length text)); [|lia].
  set (searchStart := Z.max (end_ - 200) start).
  assert (Hss : start <= searchStart <= end_) by (unfold searchStart; lia).
  pose proof (searchFrom_bounds (JS.slice text searchStart end_) 0) as Hb.
  pose proof (slice_length_le text searchStart end_ ltac:(lia) ltac:(lia)) as Hl.
  unfold searchSentenceEnd.
  destruct (Z.eqb_spec (searchFrom 0 (JS.slice text searchStart end_)) (-1));
    cbn [negb]; lia.
Qed.

(** The cursor strictly increases on every pass. *)
Lemma loopBody_progress (st : loopState) :
  0 <= start st < JS.length text ->
  start st < start (fst (loopBody text options st)).
Proof.
  intros Hs. pose proof (windowEnd_bounds (start st) Hs) as Hw.
  unfold loopBody. cbn [fst start].
  destruct (Z.leb_spec (windowEnd text options (start st) - overlap options)
                       (start st)); lia.
Qed.

Lemma loopBody_chunks (st : loopState) (bound : Z) :
  0 <= start st < JS.length text ->
  maxChunkSize options <= bound ->
  Forall (fun c => JS.length c <= bound) (chunks st) ->
  Forall (fun c => JS.length c <= bound)
         (chunks (fst (loopBody text options st))).
Proof.
  intros Hs Hb Hall. pose proof (windowEnd_bounds (start st) Hs) as Hw.
  unfold loopBody. cbn [fst chunks].
  set (chunk := JS.trim (JS.slice text (start st) (windowEnd text options (start st)))).
  destruct (0 <? JS.length chunk); [|exact Hall].
  apply Forall_app. split; [exact Hall|].
  constructor; [|constructor].
  pose proof (trim_length (JS.slice text (start st) (windowEnd text options (start st)))).
  pose proof (slice_length_le text (start st) (windowEnd text options (start st))
                ltac:(lia) ltac:(lia)).
  fold chunk in H. lia.
Qed.

(** The loop returns within as many passes as there are code units
    from the cursor to the end of the text. *)
Lemma loop_returns (fuel : nat) :
  forall st, 0 <= start st ->
             JS.length text - start st <= Z.of_nat fuel ->
             exists out, loop fuel text options st = Some out.
Proof.
  induction fuel as [|fuel IH]; intros st Hs Hfuel.
  - cbn [loop]. destruct (Z.ltb_spec (start st) (JS.length text)); [lia|].
    eexists; reflexivity.
  - cbn [loop]. destruct (Z.ltb_spec (start st) (JS.length text)) as [Hlt|];
      [|eexists; reflexivity].
    pose proof (loopBody_progress st ltac:(lia)) as Hp.
    destruct (loopBody text options st) as [st' stop]. cbn [fst] in Hp.
    destruct stop; [eexists; reflexivity|].
    apply IH; lia.
Qed.

Lemma loop_chunks (fuel : nat) (bound : Z) :
  maxChunkSize options <= bound ->
  forall st out,
    0 <= start st ->
    Forall (fun c => JS.length c <= bound) (chunks st) ->
    loop fuel text options st = Some out ->
    Forall (fun c => JS.length c <= bound) out.
Proof.
  intros Hb. induction fuel as [|fuel IH]; intros st out Hs Hall Hrun.
  - cbn [loop] in Hrun. destruct (start st <? JS.length text); [discriminate|].
    injection Hrun as <-. exact Hall.
  - cbn [loop] in Hrun.
    destruct (Z.ltb_spec (start st) (JS.length text)) as [Hlt|];
      [|injection Hrun as <-; exact Hall].
    pose proof (loopBody_progress st ltac:(lia)) as Hp.
    pose proof (loopBody_chunks st bound ltac:(lia) Hb Hall) as Hc.
    destruct (loopBody text options st) as [st' stop]. cbn [fst] in Hp, Hc.
    destruct stop; [injection Hrun as <-; exact Hc|].
    apply (IH st'); [lia | exact Hc | exact Hrun].
Qed.

End Window.

(** More passes than needed change nothing. *)
Lemma loop_more_fuel (text : jsstring) (options : ChunkOptions) (fuel : nat) :
  forall st out extra,
    loop fuel text options st = Some out ->
    loop (fuel + extra) text options st = Some out.
Proof.
  induction fuel as [|fuel IH]; intros st out extra Hrun.
  - cbn [loop] in Hrun. destruct (start st <? JS.length text) eqn:E; [discriminate|].
    destruct (0 + extra)%nat; cbn [loop]; rewrite E; exact Hrun.
  - cbn [loop Nat.add] in Hrun |- *.
    destruct (start st <? JS.length text); [|exact Hrun].
    destruct (loopBody text options st) as [st' stop].
    destruct stop; [exact Hrun | apply IH; exact Hrun].
Qed.

(** With a positive chunk size [chunkText] returns, whatever the
    overlap. *)
Lemma chunkText_returns (text : jsstring) (options : ChunkOptions) (fuel : nat) :
  0 < maxChunkSize options ->
  (List.length text <= fuel)%nat ->
  exists out, chunkText fuel text options = Some out.
Proof.
  intros Hpos Hfuel. unfold chunkText.
  destruct text as [|c r] eqn:E; [eexists; reflexivity|]. rewrite <- E in *.
  destruct (JS.length (JS.trim text) =? 0); [eexists; reflexivity|].
  destruct (JS.length text <=? maxChunkSize options); [eexists; reflexivity|].
  apply loop_returns; cbn [start]; [exact Hpos | lia | unfold JS.length; lia].
Qed.


(** C3. The code does not keep the claim: with a chunk size of zero the
    cursor does not move.  On the text ["a"] and the configuration
    [{maxChunkSize: 0, overlap: 0}] the window is empty, the guard for
    forward progress sets [start] to [end], which is [start], so a pass
    through the loop leaves the state as it was, and [chunkText] is still
    running after any number of passes. *)
Lemma chunkText_zero_size_never_returns :
  let text := js "a" in
  let options := {| maxChunkSize := 0; overlap := 0 |} in
  let st := {| start := 0; chunks := [] |} in
  start st < JS.length text
  /\ loopBody text options st = (st, false)
  /\ forall fuel, chunkText fuel text options = None.
Proof.
  cbv zeta. split; [reflexivity|]. split; [reflexivity|].
  intros fuel. unfold chunkText. cbn -[loop].
  induction fuel as [|fuel IH]; [reflexivity|].
  cbn [loop]. exact IH.
Qed.

(** C5. For every text and every configuration with
    [0 < maxChunkSize] and [0 <= overlap < maxChunkSize], [chunkText]
    returns (as many passes as the text has code units are enough) and
    every chunk it returns has at most [maxChunkSize] code units; a text
    that is not blank and has at most [maxChunkSize] code units comes
    back as a single chunk of exactly the length of the text. *)
Theorem chunkText_chunk_sizes (text : jsstring) (options : ChunkOptions) :
  0 < maxChunkSize options ->
  0 <= overlap options < maxChunkSize options ->
  (forall fuel, (List.length text <= fuel)%nat ->
      exists out, chunkText fuel text options = Some out)
  /\ (forall fuel out,
        chunkText fuel text options = Some out ->
        Forall (fun c => JS.length c <= maxChunkSize options) out)
  /\ (JS.trim text <> [] ->
      JS.length text <= maxChunkSize options ->
      forall fuel, exists chunk,
        chunkText fuel text options = Some [chunk]
        /\ JS.length chunk = JS.length text).
Proof.
  intros Hpos Hov. split; [|split].
  - intros fuel Hfuel. apply chunkText_returns; assumption.
  - intros fuel out. unfold chunkText.
    destruct text as [|c r] eqn:E; [intros [= <-]; constructor|]. rewrite <- E.
    destruct (JS.length (JS.trim text) =? 0); [intros [= <-]; constructor|].
    destruct (Z.leb_spec (JS.length text) (maxChunkSize options)).
    + intros [= <-]. constructor; [assumption | constructor].
    + apply loop_chunks; cbn [start chunks]; first [lia | constructor].
  - intros Hblank Hlen fuel. exists text. split; [|reflexivity].
    unfold chunkText. destruct text as [|c r] eqn:E; [now cbn in Hblank|].
    rewrite <- E in *.
    destruct (Z.eqb_spec (JS.length (JS.trim text)) 0) as [Hz|_].
    + apply length_zero_nil in Hz. congruence.
    + destruct (Z.leb_spec (JS.length text) (maxChunkSize options)); [reflexivity | lia].
Qed.

(** C8, as the code has it.  A text that is empty or all white space
    gives no chunk; any other text of at most [maxChunkSize] code units
    comes back whole, as it is, in a single chunk (with its leading and
    trailing white space, if it has any). *)
Theorem chunkText_short_text (fuel : nat) (text : jsstring)
        (options : ChunkOptions) :
  (JS.trim text = [] -> chunkText fuel text options = Some [])
  /\ (JS.trim text <> [] ->
      JS.length text <= maxChunkSize options ->
      chunkText fuel text options = Some [text]).
Proof.
  unfold chunkText. split.
  - intros Hblank. destruct text; [reflexivity|]. rewrite Hblank. reflexivity.
  - intros Hblank Hlen. destruct text as [|c r] eqn:E; [now cbn in Hblank|].
    rewrite <- E in *.
    destruct (Z.eqb_spec (JS.length (JS.trim text)) 0) as [Hz|_].
    + apply length_zero_nil in Hz. congruence.
    + destruct (Z.leb_spec (JS.length text) (maxChunkSize options)); [reflexivity | lia].
Qed.

(** C8, as the claim has it, fails: a short text with a leading space
    comes back with the space, not trimmed. *)
Lemma padded_short_text_not_trimmed :
  let text := js " a" in
  let options := {| maxChunkSize := 10; overlap := 0 |} in
  JS.trim text <> []
  /\ JS.length text <= maxChunkSize options
  /\ chunkText 0 text options = Some [text]
  /\ chunkText 0 text options <> Some [JS.trim text].
Proof.
  cbv zeta. repeat split; vm_compute; congruence.
Qed.

End Chunker.

(* ================================================================= *)
(** ** Indexing *)

Section Indexing.

Import AppleNotesDB Index Spec.

Variable chunkSize chunkOverlap : Z.
Variable toLocaleString : Z -> jsstring.

Local Abbreviation pushChunk := (pushChunk toLocaleString).
Local Abbreviation indexNote := (indexNote chunkSize chunkOverlap toLocaleString).
Local Abbreviation indexLoop := (indexLoop chunkSize chunkOverlap toLocaleString).
Local Abbreviation indexNotes := (indexNotes chunkSize chunkOverlap toLocaleString).
Local Abbreviation configured := (Spec.configured chunkSize chunkOverlap).
Local Abbreviation titleRecord := (Spec.titleRecord toLocaleString).

Lemma pushChunk_prepend pre note text st :
  pushChunk note text (prepend pre st) = prepend pre (pushChunk note text st).
Proof. unfold pushChunk, prepend. cbn. rewrite app_assoc. reflexivity. Qed.

Lemma fold_pushChunk_prepend pre note texts :
  forall st,
    fold_left (fun acc t => pushChunk note t acc) texts (prepend pre st)
    = prepend pre (fold_left (fun acc t => pushChunk note t acc) texts st).
Proof.
  induction texts as [|t r IH]; intros st; cbn [fold_left]; [reflexivity|].
  rewrite pushChunk_prepend. apply IH.
Qed.

Lemma indexNote_prepend fuel pre note st :
  indexNote fuel note (prepend pre st)
  = option_map (prepend pre) (indexNote fuel note st).
Proof.
  unfold Index.indexNote.
  destruct (TextChunker.chunkText fuel (AppleNotesDB.content note) _) as [[|c cs]|]; cbn [option_map].
  - rewrite pushChunk_prepend. reflexivity.
  - rewrite fold_pushChunk_prepend. reflexivity.
  - reflexivity.
Qed.

Lemma indexLoop_prepend fuel pre notes :
  forall st,
    indexLoop fuel notes (prepend pre st)
    = option_map (prepend pre) (indexLoop fuel notes st).
Proof.
  induction notes as [|n r IH]; intros st; cbn [Index.indexLoop]; [reflexivity|].
  rewrite indexNote_prepend.
  destruct (indexNote fuel n st) as [st'|]; cbn [option_map]; [apply IH | reflexivity].
Qed.

Lemma indexLoop_app fuel l1 l2 :
  forall st,
    indexLoop fuel (l1 ++ l2) st
    = match indexLoop fuel l1 st with
      | Some st1 => indexLoop fuel l2 st1
      | None => None
      end.
Proof.
  induction l1 as [|n r IH]; intros st; cbn [app Index.indexLoop]; [reflexivity|].
  destruct (indexNote fuel n st); [apply IH | reflexivity].
Qed.

Lemma pushChunk_counted note text st : counted st -> counted (pushChunk note text st).
Proof.
  unfold counted, Index.pushChunk. cbn. intros ->.
  rewrite List.length_app. cbn. lia.
Qed.

Lemma fold_pushChunk_counted note texts :
  forall st, counted st ->
             counted (fold_left (fun acc t => pushChunk note t acc) texts st).
Proof.
  induction texts as [|t r IH]; intros st H; cbn [fold_left]; [exact H|].
  apply IH, pushChunk_counted, H.
Qed.

Lemma indexNote_counted fuel note st st' :
  counted st -> indexNote fuel note st = Some st' -> counted st'.
Proof.
  unfold Index.indexNote.
  destruct (TextChunker.chunkText fuel (AppleNotesDB.content note) _) as [[|c cs]|];
    [| |discriminate].
  - intros H [= <-]. apply pushChunk_counted, H.
  - intros H [= <-]. apply (fold_pushChunk_counted note (c :: cs)), H.
Qed.

Lemma indexLoop_counted fuel notes :
  forall st st', counted st -> indexLoop fuel notes st = Some st' -> counted st'.
Proof.
  induction notes as [|n r IH]; intros st st' H; cbn [Index.indexLoop].
  - intros [= <-]. exact H.
  - destruct (indexNote fuel n st) as [st1|] eqn:E; [|discriminate].
    apply IH. eapply indexNote_counted; eassumption.
Qed.

Lemma parseNoteContent_normal (ungzip : list byte -> completion (list byte))
      (data : option (list byte)) :
  exists text, parseNoteContent ungzip data = Normal text.
Proof.
  destruct data as [buffer|]; [|eexists; reflexivity].
  unfold parseNoteContent.
  destruct (hasGzipMagic buffer); [|eexists; reflexivity].
  cbn [bind]. destruct (ungzip buffer); eexists; reflexivity.
Qed.

Lemma orDefault_nonempty (v : option jsstring) (d : jsstring) :
  d <> [] -> orDefault v d <> [].
Proof. intros Hd. destruct v as [[|c r]|]; cbn; [exact Hd | discriminate | exact Hd]. Qed.

(** The notes read from the store all have a title. *)
Lemma getAllNotesWithContent_titled
      (ungzip : list byte -> completion (list byte)) (rows : list Row) :
  exists notes,
    getAllNotesWithContent ungzip rows = Normal notes
    /\ Forall (fun n => AppleNotesDB.title n <> []) notes.
Proof.
  induction rows as [|row rest (notes & IH & Hall)].
  - exists []. split; [reflexivity | constructor].
  - cbn [getAllNotesWithContent]. unfold noteOfRow.
    destruct (parseNoteContent_normal ungzip (row_content row)) as (text & ->).
    cbn [bind]. rewrite IH. cbn [bind].
    eexists. split; [reflexivity|].
    constructor; [|exact Hall]. cbn [AppleNotesDB.title].
    apply orDefault_nonempty. discriminate.
Qed.


End Indexing.

(* ================================================================= *)
(** ** Numbers: signs *)

Section Signs.

Import Spec.

Lemma shr_1_nonneg (mrs : shr_record) : 0 <= shr_m mrs -> 0 <= shr_m (shr_1 mrs).
Proof.
  destruct mrs as [m r t]. cbn [shr_m]. intros Hm.
  destruct m as [|[p|p|]|p]; cbn; lia.
Qed.

Lemma iter_shr_1_nonneg (p : positive) :
  forall mrs, 0 <= shr_m mrs -> 0 <= shr_m (iter_pos shr_1 p mrs).
Proof.
  induction p as [p IH|p IH|]; intros mrs Hm; cbn [iter_pos].
  - apply IH, IH, shr_1_nonneg, Hm.
  - apply IH, IH, Hm.
  - apply shr_1_nonneg, Hm.
Qed.

Lemma shr_fexp_nonneg (m e : Z) (l : location) :
  0 <= m -> 0 <= shr_m (fst (shr_fexp JS.prec JS.emax m e l)).
Proof.
  intros Hm. unfold shr_fexp, shr.
  assert (H0 : 0 <= shr_m (shr_record_of_loc m l)).
  { destruct l as [|[| |]]; exact Hm. }
  destruct (fexp JS.prec JS.emax (Zdigits2 m + e) - e); cbn [fst]; try exact H0.
  apply iter_shr_1_nonneg, H0.
Qed.

Lemma round_nearest_even_nonneg (m : Z) (l : location) :
  0 <= m -> 0 <= round_nearest_even m l.
Proof.
  intros Hm. unfold round_nearest_even.
  destruct l as [|[| |]]; try destruct (Z.even m); lia.
Qed.

Lemma binary_round_aux_nonneg (mx ex : Z) (lx : location) :
  0 <= mx -> nonneg (binary_round_aux JS.prec JS.emax false mx ex lx).
Proof.
  intros Hm. unfold binary_round_aux.
  pose proof (shr_fexp_nonneg mx ex lx Hm) as H1.
  destruct (shr_fexp JS.prec JS.emax mx ex lx) as [mrs' e']. cbn [fst] in H1.
  pose proof (shr_fexp_nonneg _ e' loc_Exact
                (round_nearest_even_nonneg _ (loc_of_shr_record mrs') H1)) as H2.
  destruct (shr_fexp JS.prec JS.emax _ e' loc_Exact) as [mrs'' e'']. cbn [fst] in H2.
  destruct (shr_m mrs'') as [|m|m]; [exact I | | lia].
  destruct (e'' <=? JS.emax - JS.prec); exact I.
Qed.

Lemma ofZ_nonneg (z : Z) : 0 <= z -> nonneg (JS.ofZ z).
Proof.
  intros Hz. unfold JS.ofZ, binary_normalize.
  destruct z as [|m|m]; [exact I | | lia].
  unfold binary_round.
  destruct (shl_align m 0 _) as [mz ez].
  apply binary_round_aux_nonneg. lia.
Qed.

Lemma add_nonneg (x y : JS.number) : nonneg x -> nonneg y -> nonneg (JS.add x y).
Proof.
  destruct x as [[|]|[|]| |[|] mx ex]; cbn; try contradiction;
    destruct y as [[|]|[|]| |[|] my ey]; cbn; try contradiction; try exact (fun _ _ => I).
  intros _ _. unfold binary_normalize.
  destruct (shl_align mx ex (Z.min ex ey)) as [m1 e1].
  destruct (shl_align my ey (Z.min ex ey)) as [m2 e2].
  cbn [fst cond_Zopp Z.add]. unfold binary_round.
  destruct (shl_align _ _ _) as [mz ez].
  apply binary_round_aux_nonneg. lia.
Qed.

Lemma div_nonneg (mx : positive) (ex : Z) (y : JS.number) :
  nonneg y -> nonneg (JS.div (S754_finite false mx ex) y).
Proof.
  destruct y as [[|]|[|]| |[|] my ey]; cbn; try contradiction; try exact (fun _ => I).
  intros _. unfold SFdiv_core_binary.
  set (m' := match _ - _ - _ with Z0 => Z.pos mx | Z.pos _ => _ | Z.neg _ => 0 end).
  assert (Hm' : 0 <= m').
  { unfold m'. destruct (_ - _ - _); [lia | | lia].
    rewrite Z.shiftl_mul_pow2 by lia. apply Z.mul_nonneg_nonneg; [lia|].
    apply Z.pow_nonneg. lia. }
  pose proof (Z.div_eucl_eq m' (Z.pos my) ltac:(lia)) as Heq.
  pose proof (Z.mod_pos_bound m' (Z.pos my) ltac:(lia)) as Hmod.
  unfold Z.modulo in Hmod.
  destruct (Z.div_eucl m' (Z.pos my)) as [q r].
  apply binary_round_aux_nonneg. nia.
Qed.

(** On such a number [x || 0] is [x]. *)
Lemma nonneg_or_zero (x : JS.number) :
  nonneg x -> (if JS.truthy x then x else JS.zero) = x.
Proof. destruct x as [[|]|[|]| |[|] m e]; cbn; try contradiction; reflexivity. Qed.

Lemma add_zero_l (x : JS.number) : nonneg x -> JS.add JS.zero x = x.
Proof. destruct x as [[|]|[|]| |[|] m e]; cbn; try contradiction; reflexivity. Qed.

(** *** Exponents and the sign of a difference *)

Lemma digits2_size (p : positive) : digits2_pos p = Pos.size p.
Proof. induction p; cbn; congruence. Qed.

Lemma digits2_bounds (p : positive) :
  2 ^ (Z.pos (digits2_pos p) - 1) <= Z.pos p < 2 ^ Z.pos (digits2_pos p).
Proof.
  rewrite digits2_size.
  pose proof (Pos.size_gt p) as Hgt. pose proof (Pos.size_le p) as Hle.
  apply Pos2Z.pos_lt_pos in Hgt. apply Pos2Z.pos_le_pos in Hle.
  rewrite Pos2Z.inj_pow in Hgt, Hle.
  replace (Z.pos (Pos.size p)) with (Z.succ (Z.pos (Pos.size p) - 1)) in Hle at 1 by lia.
  rewrite Z.pow_succ_r in Hle by lia.
  change (Z.pos p~0) with (2 * Z.pos p) in Hle. lia.
Qed.

Lemma shr_1_half (mrs : shr_record) :
  0 <= shr_m mrs -> shr_m (shr_1 mrs) = shr_m mrs / 2.
Proof.
  destruct mrs as [m r t]. cbn [shr_m]. intros Hm.
  rewrite <- Z.div2_div.
  destruct m as [|[p|p|]|p]; cbn; try reflexivity; lia.
Qed.

Lemma iter_shr_1_div (p : positive) :
  forall mrs, 0 <= shr_m mrs ->
              shr_m (iter_pos shr_1 p mrs) = shr_m mrs / 2 ^ Z.pos p.
Proof.
  induction p as [p IH|p IH|]; intros mrs Hm; cbn [iter_pos].
  - rewrite IH by (apply iter_shr_1_nonneg, shr_1_nonneg, Hm).
    rewrite IH by (apply shr_1_nonneg, Hm).
    rewrite shr_1_half by exact Hm.
    rewrite !Z.div_div by (try apply Z.pow_pos_nonneg; lia).
    f_equal.
    transitivity (2 ^ (1 + Z.pos p + Z.pos p));
      [rewrite !Z.pow_add_r by lia; lia | f_equal; lia].
  - rewrite IH by (apply iter_shr_1_nonneg, Hm).
    rewrite IH by exact Hm.
    rewrite !Z.div_div by (try apply Z.pow_pos_nonneg; lia).
    f_equal.
    transitivity (2 ^ (Z.pos p + Z.pos p));
      [rewrite !Z.pow_add_r by lia; lia | f_equal; lia].
  - rewrite shr_1_half by exact Hm. reflexivity.
Qed.

Lemma fexp_emin (e : Z) : emin <= fexp JS.prec JS.emax e.
Proof. unfold fexp, emin. lia. Qed.

Lemma shr_fexp_exp (m e : Z) (l : location) :
  emin <= snd (shr_fexp JS.prec JS.emax m e l).
Proof.
  unfold shr_fexp, shr.
  pose proof (fexp_emin (Zdigits2 m + e)) as Hf.
  destruct (fexp JS.prec JS.emax (Zdigits2 m + e) - e) eqn:E; cbn [snd]; lia.
Qed.

Lemma shr_fexp_pos (m e : Z) (l : location) :
  0 < m -> emin <= e -> 0 < shr_m (fst (shr_fexp JS.prec JS.emax m e l)).
Proof.
  intros Hm He. unfold shr_fexp, shr.
  assert (H0 : shr_m (shr_record_of_loc m l) = m) by (destruct l as [|[| |]]; reflexivity).
  destruct (fexp JS.prec JS.emax (Zdigits2 m + e) - e) as [|p|p] eqn:E; cbn [fst];
    try (rewrite H0; exact Hm).
  rewrite iter_shr_1_div by (rewrite H0; lia). rewrite H0.
  destruct m as [|q|q]; try lia. cbn [Zdigits2] in E.
  pose proof (digits2_bounds q) as Hd.
  assert (Hp : Z.pos p <= Z.pos (digits2_pos q) - 1).
  { unfold fexp in E. fold emin in E. unfold JS.prec in E. lia. }
  apply Z.div_str_pos. split; [apply Z.pow_pos_nonneg; lia|].
  apply Z.le_trans with (2 ^ (Z.pos (digits2_pos q) - 1)); [|lia].
  apply Z.pow_le_mono_r; lia.
Qed.

Lemma round_nearest_even_ge (m : Z) (l : location) : m <= round_nearest_even m l.
Proof. unfold round_nearest_even. destruct l as [|[| |]]; try destruct (Z.even m); lia. Qed.

Lemma binary_round_aux_exp (s : bool) (mx ex : Z) (lx : location) :
  expBounded (binary_round_aux JS.prec JS.emax s mx ex lx).
Proof.
  unfold binary_round_aux.
  destruct (shr_fexp JS.prec JS.emax mx ex lx) as [mrs' e'].
  pose proof (shr_fexp_exp (round_nearest_even (shr_m mrs') (loc_of_shr_record mrs'))
                e' loc_Exact) as H2.
  destruct (shr_fexp JS.prec JS.emax _ e' loc_Exact) as [mrs'' e'']. cbn [snd] in H2.
  destruct (shr_m mrs''); [exact I | | exact I].
  destruct (e'' <=? JS.emax - JS.prec); [exact H2 | exact I].
Qed.

Lemma binary_round_aux_pos (mx ex : Z) (lx : location) :
  0 < mx -> emin <= ex -> strictlyPositive (binary_round_aux JS.prec JS.emax false mx ex lx).
Proof.
  intros Hm He. unfold binary_round_aux.
  pose proof (shr_fexp_pos mx ex lx Hm He) as H1.
  pose proof (shr_fexp_exp mx ex lx) as H1e.
  destruct (shr_fexp JS.prec JS.emax mx ex lx) as [mrs' e']. cbn [fst snd] in H1, H1e.
  pose proof (round_nearest_even_ge (shr_m mrs') (loc_of_shr_record mrs')) as Hr.
  pose proof (shr_fexp_pos (round_nearest_even (shr_m mrs') (loc_of_shr_record mrs'))
                e' loc_Exact ltac:(lia) H1e) as H2.
  destruct (shr_fexp JS.prec JS.emax _ e' loc_Exact) as [mrs'' e'']. cbn [fst] in H2.
  destruct (shr_m mrs'') as [|m|m]; try lia.
  destruct (e'' <=? JS.emax - JS.prec); exact I.
Qed.

Lemma binary_round_aux_neg (mx ex : Z) (lx : location) :
  JS.ltb JS.zero (binary_round_aux JS.prec JS.emax true mx ex lx) = false.
Proof.
  unfold binary_round_aux.
  destruct (shr_fexp JS.prec JS.emax mx ex lx) as [mrs' e'].
  destruct (shr_fexp JS.prec JS.emax _ e' loc_Exact) as [mrs'' e''].
  destruct (shr_m mrs''); try reflexivity.
  destruct (e'' <=? JS.emax - JS.prec); reflexivity.
Qed.

Lemma shl_align_exp (m : BinNums.positive) (e e' : Z) :
  emin <= e -> emin <= e' -> emin <= snd (shl_align m e e').
Proof. intros. unfold shl_align. destruct (e' - e); cbn [snd]; lia. Qed.

Lemma binary_round_exp (s : bool) (m : BinNums.positive) (e : Z) :
  expBounded (binary_round JS.prec JS.emax s m e).
Proof.
  unfold binary_round. destruct (shl_align m e _) as [mz ez].
  apply binary_round_aux_exp.
Qed.

Lemma binary_round_pos (m : BinNums.positive) (e : Z) :
  emin <= e -> strictlyPositive (binary_round JS.prec JS.emax false m e).
Proof.
  intros He. unfold binary_round.
  pose proof (shl_align_exp m e (fexp JS.prec JS.emax (Z.pos (digits2_pos m) + e)) He
                (fexp_emin _)) as H.
  destruct (shl_align m e _) as [mz ez]. cbn [snd] in H.
  apply binary_round_aux_pos; [lia | exact H].
Qed.

Lemma binary_round_neg (m : BinNums.positive) (e : Z) :
  JS.ltb JS.zero (binary_round JS.prec JS.emax true m e) = false.
Proof.
  unfold binary_round. destruct (shl_align m e _) as [mz ez].
  apply binary_round_aux_neg.
Qed.

Lemma positive_ltb (x : JS.number) : strictlyPositive x -> JS.ltb JS.zero x = true.
Proof. destruct x as [[|]|[|]| |[|] m e]; cbn; try contradiction; reflexivity. Qed.

Lemma iter_xO (d m : BinNums.positive) :
  Z.pos (Pos.iter xO m d) = Z.pos m * 2 ^ Z.pos d.
Proof.
  induction d as [|d IH] using Pos.peano_ind.
  - cbn. lia.
  - rewrite Pos.iter_succ, Pos2Z.inj_succ, Z.pow_succ_r by lia.
    rewrite Pos2Z.inj_xO, IH. lia.
Qed.

(** The aligned mantissa, for a target exponent that is not above. *)
Lemma shl_align_fst (m : BinNums.positive) (e ez : Z) :
  ez <= e -> Z.pos (fst (shl_align m e ez)) = Z.pos m * 2 ^ (e - ez).
Proof.
  intros H. unfold shl_align.
  destruct (ez - e) as [|p|p] eqn:E; cbn [fst]; try lia.
  - replace (e - ez) with 0 by lia. lia.
  - rewrite iter_xO. f_equal. f_equal. lia.
Qed.

Lemma ofZ_isScore (z : Z) : 0 <= z -> isScore (JS.ofZ z).
Proof.
  intros Hz. split; [apply ofZ_nonneg, Hz|].
  unfold JS.ofZ, binary_normalize. destruct z; [exact I | apply binary_round_exp | lia].
Qed.

Lemma add_isScore (x y : JS.number) : isScore x -> isScore y -> isScore (JS.add x y).
Proof.
  intros [Hx Hxe] [Hy Hye]. split; [apply add_nonneg; assumption|].
  destruct x as [[|]|[|]| |[|] mx ex]; cbn in Hx; try contradiction;
    destruct y as [[|]|[|]| |[|] my ey]; cbn in Hy; try contradiction;
    try exact I; try exact Hxe; try exact Hye.
  unfold JS.add, SFadd, binary_normalize.
  destruct (_ + _); [exact I | apply binary_round_exp | apply binary_round_exp].
Qed.

Lemma div_isScore (mx : BinNums.positive) (ex : Z) (y : JS.number) :
  nonneg y -> isScore (JS.div (S754_finite false mx ex) y).
Proof.
  intros Hy. split; [apply div_nonneg, Hy|].
  destruct y as [[|]|[|]| |[|] my ey]; cbn in Hy; try contradiction; try exact I.
  unfold JS.div, SFdiv.
  destruct (SFdiv_core_binary _ _ _ _ _ _) as [[mz ez] lz].
  apply binary_round_aux_exp.
Qed.

Lemma units_finite_pos (s : bool) (m : BinNums.positive) (e : Z) :
  emin <= e -> exists u, units (S754_finite s m e) = Some u /\ 0 < u.
Proof.
  intros He. eexists. split; [reflexivity|].
  apply Z.mul_pos_pos; [lia | apply Z.pow_pos_nonneg; lia].
Qed.

(** On scores the sign of [y - x] tells whether [x] is below [y]. *)
Lemma sub_positive_iff (x y : JS.number) :
  isScore x -> isScore y -> JS.ltb JS.zero (JS.sub y x) = scoreLt x y.
Proof.
  intros [Hx Hxe] [Hy Hye]. unfold scoreLt.
  destruct x as [[|]|[|]| |[|] mx ex]; cbn in Hx; try contradiction;
    destruct y as [[|]|[|]| |[|] my ey]; cbn in Hy; try contradiction;
    try reflexivity.
  - destruct (units_finite_pos false my ey Hye) as (u & -> & Hu).
    cbn. symmetry. apply Z.ltb_lt. exact Hu.
  - destruct (units_finite_pos false mx ex Hxe) as (u & -> & Hu).
    cbn. symmetry. apply Z.ltb_ge. lia.
  - unfold expBounded in Hxe, Hye.
    unfold JS.sub, SFsub, binary_normalize. cbn [cond_Zopp units below].
    set (ez := Z.min ey ex).
    rewrite (shl_align_fst my ey ez), (shl_align_fst mx ex ez) by (unfold ez; lia).
    set (a := Z.pos my * 2 ^ (ey - ez)). set (b := Z.pos mx * 2 ^ (ex - ez)).
    assert (HP : 0 < 2 ^ (ez - emin)) by (apply Z.pow_pos_nonneg; unfold ez; lia).
    assert (Ha : Z.pos my * 2 ^ (ey - emin) = a * 2 ^ (ez - emin)).
    { unfold a. rewrite <- Z.mul_assoc, <- Z.pow_add_r by (unfold ez; lia).
      f_equal. f_equal. lia. }
    assert (Hb : Z.pos mx * 2 ^ (ex - emin) = b * 2 ^ (ez - emin)).
    { unfold b. rewrite <- Z.mul_assoc, <- Z.pow_add_r by (unfold ez; lia).
      f_equal. f_equal. lia. }
    rewrite Ha, Hb.
    destruct (a - b) as [|d|d] eqn:E.
    + replace a with b by lia. rewrite Z.ltb_irrefl. reflexivity.
    + rewrite positive_ltb by (apply binary_round_pos; unfold ez; lia).
      symmetry. apply Z.ltb_lt. apply Z.mul_lt_mono_pos_r; lia.
    + rewrite binary_round_neg. symmetry. apply Z.ltb_ge.
      apply Z.mul_le_mono_nonneg_r; lia.
Qed.

Lemma below_irrefl (a : option Z) : below a a = false.
Proof. destruct a; cbn; [apply Z.ltb_irrefl | reflexivity]. Qed.

Lemma below_asym (a b : option Z) : below a b = true -> below b a = false.
Proof. destruct a, b; cbn; try congruence; intros H; apply Z.ltb_lt in H; apply Z.ltb_ge; lia. Qed.

(** "Not below" is transitive. *)
Lemma not_below_trans (a b c : option Z) :
  below a b = false -> below b c = false -> below a c = false.
Proof.
  destruct a, b, c; cbn; try congruence; intros H1 H2.
  apply Z.ltb_ge in H1, H2. apply Z.ltb_ge. lia.
Qed.

End Signs.

(* ================================================================= *)
(** ** Numbers: quotients of integers, exactly *)

Section Quotients.

Import Spec AppleNotesDB.

Lemma digits_unique (p : positive) (d : Z) :
  2 ^ (d - 1) <= Z.pos p < 2 ^ d -> digits p = d.
Proof.
  intros [Hlo Hhi]. unfold digits. pose proof (digits2_bounds p) as [Blo Bhi].
  set (d' := Z.pos (digits2_pos p)) in *.
  assert (Hd' : 0 < d') by (unfold d'; lia).
  destruct (Z.lt_trichotomy d' d) as [Hlt|[Heq|Hgt]]; [|exact Heq|]; exfalso.
  - assert (2 ^ d' <= 2 ^ (d - 1)) by (apply Z.pow_le_mono_r; lia). lia.
  - destruct (Z.le_gt_cases d 0) as [Hd|Hd].
    + assert (2 ^ d <= 2 ^ 0) by (apply Z.pow_le_mono_r_iff; lia || (destruct d; cbn; lia)).
      assert (2 ^ 0 <= 2 ^ (d' - 1)) by (apply Z.pow_le_mono_r; lia).
      lia.
    + assert (2 ^ d <= 2 ^ (d' - 1)) by (apply Z.pow_le_mono_r; lia). lia.
Qed.

Lemma digits_bounds (p : positive) : 2 ^ (digits p - 1) <= Z.pos p < 2 ^ digits p.
Proof. apply digits2_bounds. Qed.

Lemma loc_of_record_of_loc (m : Z) (l : location) :
  loc_of_shr_record (shr_record_of_loc m l) = l.
Proof. destruct l as [|[| |]]; reflexivity. Qed.

Lemma shr_m_record_of_loc (m : Z) (l : location) : shr_m (shr_record_of_loc m l) = m.
Proof. destruct l as [|[| |]]; reflexivity. Qed.

Lemma shr_fexp_53 (q : positive) (e : Z) (l : location) :
  digits q = 53 -> emin <= e ->
  shr_fexp JS.prec JS.emax (Z.pos q) e l = (shr_record_of_loc (Z.pos q) l, e).
Proof.
  intros Hd He. unfold shr_fexp, shr. cbn [Zdigits2]. fold (digits q). rewrite Hd.
  replace (fexp JS.prec JS.emax (53 + e) - e) with 0; [reflexivity|].
  unfold fexp. fold emin. unfold JS.prec. lia.
Qed.

Lemma shr_fexp_54 (q : positive) (e : Z) (l : location) :
  digits q = 54 -> emin <= e ->
  shr_fexp JS.prec JS.emax (Z.pos q) e l
  = (shr_1 (shr_record_of_loc (Z.pos q) l), e + 1).
Proof.
  intros Hd He. unfold shr_fexp, shr. cbn [Zdigits2]. fold (digits q). rewrite Hd.
  replace (fexp JS.prec JS.emax (54 + e) - e) with 1; [reflexivity|].
  unfold fexp. fold emin. unfold JS.prec. lia.
Qed.


(** Rounding a mantissa of 53 digits. *)
Lemma binary_round_aux_53 (q : positive) (e : Z) (l : location) :
  digits q = 53 -> emin <= e -> e + 1 <= 971 ->
  binary_round_aux JS.prec JS.emax false (Z.pos q) e l =
    let M := round_nearest_even (Z.pos q) l in
    if M =? two53 then S754_finite false two52 (e + 1)
    else S754_finite false (Z.to_pos M) e.
Proof.
  intros Hd He Hmax. unfold binary_round_aux.
  rewrite (shr_fexp_53 q e l Hd He).
  rewrite shr_m_record_of_loc, loc_of_record_of_loc. cbv zeta.
  pose proof (digits_bounds q) as Hb. rewrite Hd in Hb.
  change (2 ^ (53 - 1)) with 4503599627370496 in Hb.
  change (2 ^ 53) with 9007199254740992 in Hb.
  assert (HM : round_nearest_even (Z.pos q) l = Z.pos q
               \/ round_nearest_even (Z.pos q) l = Z.pos q + 1).
  { unfold round_nearest_even. destruct l as [|[| |]]; try destruct (Z.even _); auto. }
  set (M := round_nearest_even (Z.pos q) l) in *.
  destruct (Z.eqb_spec M two53) as [E|E].
  - rewrite E. unfold two53.
    rewrite (shr_fexp_54 9007199254740992 e loc_Exact eq_refl He).
    cbn [shr_record_of_loc shr_1 shr_m].
    replace (e + 1 <=? JS.emax - JS.prec) with true; [reflexivity|].
    symmetry. apply Z.leb_le. unfold JS.emax, JS.prec. lia.
  - unfold two53 in E.
    assert (HMp : exists p, M = Z.pos p /\ digits p = 53).
    { destruct M as [|p|p]; try lia. exists p. split; [reflexivity|].
      apply digits_unique.
      change (2 ^ (53 - 1)) with 4503599627370496.
      change (2 ^ 53) with 9007199254740992. lia. }
    destruct HMp as (p & -> & Hp).
    rewrite (shr_fexp_53 p e loc_Exact Hp He). cbn [shr_m shr_record_of_loc].
    replace (e <=? JS.emax - JS.prec) with true; [reflexivity|].
    symmetry. apply Z.leb_le. unfold JS.emax, JS.prec. lia.
Qed.

(** Rounding a mantissa of 54 digits: the last digit goes first. *)
Lemma binary_round_aux_54 (q : positive) (e : Z) (l : location) :
  digits q = 54 -> emin <= e -> e + 2 <= 971 ->
  binary_round_aux JS.prec JS.emax false (Z.pos q) e l =
    let mrs := shr_1 (shr_record_of_loc (Z.pos q) l) in
    let M := round_nearest_even (shr_m mrs) (loc_of_shr_record mrs) in
    if M =? two53 then S754_finite false two52 (e + 2)
    else S754_finite false (Z.to_pos M) (e + 1).
Proof.
  intros Hd He Hmax. unfold binary_round_aux.
  rewrite (shr_fexp_54 q e l Hd He). cbv zeta.
  pose proof (digits_bounds q) as Hb. rewrite Hd in Hb.
  change (2 ^ (54 - 1)) with 9007199254740992 in Hb.
  change (2 ^ 54) with 18014398509481984 in Hb.
  set (mrs := shr_1 (shr_record_of_loc (Z.pos q) l)).
  assert (Hm : shr_m mrs = Z.pos q / 2).
  { unfold mrs. rewrite shr_1_half; rewrite shr_m_record_of_loc; [reflexivity | lia]. }
  assert (Hm2 : 4503599627370496 <= shr_m mrs < 9007199254740992).
  { rewrite Hm. split.
    - apply Z.div_le_lower_bound; lia.
    - apply Z.div_lt_upper_bound; lia. }
  assert (HM : round_nearest_even (shr_m mrs) (loc_of_shr_record mrs) = shr_m mrs
               \/ round_nearest_even (shr_m mrs) (loc_of_shr_record mrs) = shr_m mrs + 1).
  { unfold round_nearest_even. destruct (loc_of_shr_record mrs) as [|[| |]];
      try destruct (Z.even _); auto. }
  set (M := round_nearest_even (shr_m mrs) (loc_of_shr_record mrs)) in *.
  destruct (Z.eqb_spec M two53) as [E|E].
  - rewrite E. unfold two53.
    rewrite (shr_fexp_54 9007199254740992 (e + 1) loc_Exact eq_refl ltac:(lia)).
    cbn [shr_record_of_loc shr_1 shr_m].
    replace (e + 1 + 1 <=? JS.emax - JS.prec) with true.
    + f_equal. lia.
    + symmetry. apply Z.leb_le. unfold JS.emax, JS.prec. lia.
  - unfold two53 in E.
    assert (HMp : exists p, M = Z.pos p /\ digits p = 53).
    { destruct M as [|p|p]; try lia. exists p. split; [reflexivity|].
      apply digits_unique.
      change (2 ^ (53 - 1)) with 4503599627370496.
      change (2 ^ 53) with 9007199254740992. lia. }
    destruct HMp as (p & -> & Hp).
    rewrite (shr_fexp_53 p (e + 1) loc_Exact Hp ltac:(lia)). cbn [shr_m shr_record_of_loc].
    replace (e + 1 <=? JS.emax - JS.prec) with true; [reflexivity|].
    symmetry. apply Z.leb_le. unfold JS.emax, JS.prec. lia.
Qed.

(** Where the remainder [r] of a division by [m] stands against half of
    [m]. *)
Lemma new_location_spec (m r : Z) :
  0 < m -> 0 <= r < m ->
  new_location m r = if r =? 0 then loc_Exact else loc_Inexact (2 * r ?= m).
Proof.
  intros Hm Hr. unfold new_location.
  destruct (Z.even m) eqn:Ev.
  - reflexivity.
  - unfold new_location_odd. destruct (r =? 0); [reflexivity|]. f_equal.
    assert (Hodd : Z.odd m = true) by (rewrite <- Z.negb_even, Ev; reflexivity).
    apply Z.odd_spec in Hodd. destruct Hodd as [j Hj].
    destruct (Z.compare_spec (2 * r + 1) m); destruct (Z.compare_spec (2 * r) m);
      try reflexivity; lia.
Qed.


Lemma digits_pos (p : positive) : 0 < digits p.
Proof. unfold digits. lia. Qed.

Lemma mant53_value (p : positive) :
  digits p <= 53 -> Z.pos (mant53 p) = Z.pos p * 2 ^ (53 - digits p).
Proof.
  intros Hd. unfold mant53. rewrite Z2Pos.id; [reflexivity|].
  apply Z.mul_pos_pos; [lia | apply Z.pow_pos_nonneg; lia].
Qed.

Lemma mant53_bounds (p : positive) :
  digits p <= 53 -> 2 ^ 52 <= Z.pos (mant53 p) < 2 ^ 53.
Proof.
  intros Hd. rewrite mant53_value by exact Hd.
  pose proof (digits_bounds p) as [Hlo Hhi]. pose proof (digits_pos p) as Hp.
  assert (HP : 0 < 2 ^ (53 - digits p)) by (apply Z.pow_pos_nonneg; lia).
  replace (2 ^ 52) with (2 ^ (digits p - 1) * 2 ^ (53 - digits p))
    by (rewrite <- Z.pow_add_r by lia; f_equal; lia).
  replace (2 ^ 53) with (2 ^ digits p * 2 ^ (53 - digits p))
    by (rewrite <- Z.pow_add_r by lia; f_equal; lia).
  split; [apply Z.mul_le_mono_nonneg_r; lia | apply Z.mul_lt_mono_pos_r; lia].
Qed.

Lemma mant53_digits (p : positive) : digits p <= 53 -> digits (mant53 p) = 53.
Proof.
  intros Hd. apply digits_unique. pose proof (mant53_bounds p Hd).
  change (53 - 1) with 52. lia.
Qed.

(** An integer below [2 ^ 53] is a number, exactly. *)
Lemma ofZ_exact (p : positive) :
  digits p <= 53 ->
  JS.ofZ (Z.pos p) = S754_finite false (mant53 p) (digits p - 53).
Proof.
  intros Hd. unfold JS.ofZ, binary_normalize, binary_round.
  pose proof (digits_pos p) as Hp.
  assert (Hf : fexp JS.prec JS.emax (Z.pos (digits2_pos p) + 0) = digits p - 53).
  { unfold fexp, SpecFloat.emin, JS.prec, JS.emax, digits. lia. }
  rewrite Hf.
  assert (Hal : shl_align p 0 (digits p - 53) = (mant53 p, digits p - 53)).
  { unfold shl_align. destruct (digits p - 53 - 0) as [|d|d] eqn:E; try lia.
    - f_equal; [|lia]. apply Pos2Z.inj. rewrite mant53_value by exact Hd.
      replace (53 - digits p) with 0 by lia. lia.
    - f_equal. apply Pos2Z.inj. rewrite mant53_value by exact Hd.
      rewrite iter_xO. f_equal. f_equal. lia. }
  rewrite Hal.
  rewrite binary_round_aux_53;
    [| apply mant53_digits, Hd | unfold emin, SpecFloat.emin, JS.prec, JS.emax; lia | lia].
  cbv zeta. cbn [round_nearest_even].
  pose proof (mant53_bounds p Hd) as Hb.
  change (2 ^ 53) with 9007199254740992 in Hb.
  destruct (Z.eqb_spec (Z.pos (mant53 p)) two53) as [E|E]; [unfold two53 in E; lia|].
  reflexivity.
Qed.

(** Rounding to nearest, ties to even, against an odd bound [K]: the
    rounded quotient is below [K] exactly when the exact quotient
    [q + r / m] is at most [K - 1/2]. *)
Lemma rne_below (q m r K : Z) :
  0 < m -> 0 <= r < m -> 0 <= q -> Z.odd K = true ->
  (round_nearest_even q (new_location m r) <? K)
  = (2 * (q * m + r) <=? (2 * K - 1) * m).
Proof.
  intros Hm Hr Hq HK. rewrite new_location_spec by assumption.
  apply Z.odd_spec in HK. destruct HK as [j HK].
  assert (Hlow : q <= K - 1 -> q * m <= (K - 1) * m)
    by (intros; apply Z.mul_le_mono_nonneg_r; lia).
  assert (Hlow2 : q <= K - 2 -> q * m <= (K - 2) * m)
    by (intros; apply Z.mul_le_mono_nonneg_r; lia).
  assert (Hhigh : K <= q -> K * m <= q * m)
    by (intros; apply Z.mul_le_mono_nonneg_r; lia).
  assert (Hhigh1 : K - 1 <= q -> (K - 1) * m <= q * m)
    by (intros; apply Z.mul_le_mono_nonneg_r; lia).
  destruct (Z.eqb_spec r 0) as [Hr0|Hr0]; cbn [round_nearest_even].
  - destruct (Z.ltb_spec q K); destruct (Z.leb_spec (2 * (q * m + r)) ((2 * K - 1) * m));
      try reflexivity; exfalso; nia.
  - destruct (Z.compare_spec (2 * r) m) as [Heq|Hlt|Hgt].
    + destruct (Z.even q) eqn:Ev.
      * destruct (Z.ltb_spec q K); destruct (Z.leb_spec (2 * (q * m + r)) ((2 * K - 1) * m));
          try reflexivity; exfalso; nia.
      * assert (Hodd : Z.odd q = true) by (rewrite <- Z.negb_even, Ev; reflexivity).
        apply Z.odd_spec in Hodd. destruct Hodd as [i Hi].
        destruct (Z.ltb_spec (q + 1) K);
          destruct (Z.leb_spec (2 * (q * m + r)) ((2 * K - 1) * m));
          try reflexivity; exfalso; nia.
    + destruct (Z.ltb_spec q K); destruct (Z.leb_spec (2 * (q * m + r)) ((2 * K - 1) * m));
        try reflexivity; exfalso; nia.
    + destruct (Z.ltb_spec (q + 1) K);
        destruct (Z.leb_spec (2 * (q * m + r)) ((2 * K - 1) * m));
        try reflexivity; exfalso; nia.
Qed.

(** The same after the last digit of [q] has been shifted out. *)
Lemma rne_shifted_below (q : positive) (m r K : Z) :
  0 < m -> 0 <= r < m -> Z.odd K = true ->
  let mrs := shr_1 (shr_record_of_loc (Z.pos q) (new_location m r)) in
  (round_nearest_even (shr_m mrs) (loc_of_shr_record mrs) <? K)
  = (Z.pos q * m + r <=? (2 * K - 1) * m).
Proof.
  intros Hm Hr HK. rewrite new_location_spec by assumption. cbv zeta.
  apply Z.odd_spec in HK. destruct HK as [j HK].
  assert (Hlow : forall h, h <= K - 1 -> h * m <= (K - 1) * m)
    by (intros; apply Z.mul_le_mono_nonneg_r; lia).
  assert (Hlow2 : forall h, h <= K - 2 -> h * m <= (K - 2) * m)
    by (intros; apply Z.mul_le_mono_nonneg_r; lia).
  assert (Hhigh : forall h, K <= h -> K * m <= h * m)
    by (intros; apply Z.mul_le_mono_nonneg_r; lia).
  assert (Hhigh1 : forall h, K - 1 <= h -> (K - 1) * m <= h * m)
    by (intros; apply Z.mul_le_mono_nonneg_r; lia).
  destruct q as [h|h|].
  - (* q = 2h + 1 *)
    specialize (Hlow (Z.pos h)); specialize (Hlow2 (Z.pos h));
      specialize (Hhigh (Z.pos h)); specialize (Hhigh1 (Z.pos h)).
    destruct (Z.eqb_spec r 0) as [Hr0|Hr0].
    + cbn [shr_record_of_loc shr_1 shr_m loc_of_shr_record orb round_nearest_even].
      rewrite Pos2Z.inj_xI.
      destruct (Z.even (Z.pos h)) eqn:Ev.
      * destruct (Z.ltb_spec (Z.pos h) K);
          destruct (Z.leb_spec ((2 * Z.pos h + 1) * m + r) ((2 * K - 1) * m));
          try reflexivity; exfalso; nia.
      * assert (Hodd : Z.odd (Z.pos h) = true) by (rewrite <- Z.negb_even, Ev; reflexivity).
        apply Z.odd_spec in Hodd. destruct Hodd as [i Hi].
        destruct (Z.ltb_spec (Z.pos h + 1) K);
          destruct (Z.leb_spec ((2 * Z.pos h + 1) * m + r) ((2 * K - 1) * m));
          try reflexivity; exfalso; nia.
    + assert (Hs : forall c, loc_of_shr_record (shr_1 (shr_record_of_loc (Z.pos h~1) (loc_Inexact c)))
                             = loc_Inexact Gt) by (intros [| |]; reflexivity).
      assert (Hmm : forall c, shr_m (shr_1 (shr_record_of_loc (Z.pos h~1) (loc_Inexact c)))
                              = Z.pos h) by (intros [| |]; reflexivity).
      rewrite Hs, Hmm. cbn [round_nearest_even]. rewrite Pos2Z.inj_xI.
      destruct (Z.ltb_spec (Z.pos h + 1) K);
        destruct (Z.leb_spec ((2 * Z.pos h + 1) * m + r) ((2 * K - 1) * m));
        try reflexivity; exfalso; nia.
  - (* q = 2h *)
    specialize (Hlow (Z.pos h)); specialize (Hlow2 (Z.pos h));
      specialize (Hhigh (Z.pos h)); specialize (Hhigh1 (Z.pos h)).
    destruct (Z.eqb_spec r 0) as [Hr0|Hr0].
    + cbn [shr_record_of_loc shr_1 shr_m loc_of_shr_record orb round_nearest_even].
      rewrite Pos2Z.inj_xO.
      destruct (Z.ltb_spec (Z.pos h) K);
        destruct (Z.leb_spec (2 * Z.pos h * m + r) ((2 * K - 1) * m));
        try reflexivity; exfalso; nia.
    + assert (Hs : forall c, loc_of_shr_record (shr_1 (shr_record_of_loc (Z.pos h~0) (loc_Inexact c)))
                             = loc_Inexact Lt) by (intros [| |]; reflexivity).
      assert (Hmm : forall c, shr_m (shr_1 (shr_record_of_loc (Z.pos h~0) (loc_Inexact c)))
                              = Z.pos h) by (intros [| |]; reflexivity).
      rewrite Hs, Hmm. cbn [round_nearest_even]. rewrite Pos2Z.inj_xO.
      destruct (Z.ltb_spec (Z.pos h) K);
        destruct (Z.leb_spec (2 * Z.pos h * m + r) ((2 * K - 1) * m));
        try reflexivity; exfalso; nia.
  - (* q = 1 *)
    destruct (Z.eqb_spec r 0) as [Hr0|Hr0].
    + cbn [shr_record_of_loc shr_1 shr_m loc_of_shr_record orb round_nearest_even].
      cbn [Z.even].
      destruct (Z.ltb_spec 0 K); destruct (Z.leb_spec (1 * m + r) ((2 * K - 1) * m));
        try reflexivity; exfalso; nia.
    + assert (Hs : forall c, loc_of_shr_record (shr_1 (shr_record_of_loc 1 (loc_Inexact c)))
                             = loc_Inexact Gt) by (intros [| |]; reflexivity).
      assert (Hmm : forall c, shr_m (shr_1 (shr_record_of_loc 1 (loc_Inexact c))) = 0)
        by (intros [| |]; reflexivity).
      rewrite Hs, Hmm. cbn [round_nearest_even].
      destruct (Z.ltb_spec (0 + 1) K); destruct (Z.leb_spec (1 * m + r) ((2 * K - 1) * m));
        try reflexivity; exfalso; nia.
Qed.

Lemma ltb_pos (M K : positive) :
  match Pos.compare_cont Eq M K with Lt => true | _ => false end = (Z.pos M <? Z.pos K).
Proof. reflexivity. Qed.

Lemma ltb_threshold_long (M : positive) (e : Z) :
  JS.ltb (S754_finite false M e) threshold_long
  = (e <? -53) || ((e =? -53) && (Z.pos M <? MT)).
Proof.
  unfold JS.ltb, SFltb, SFcompare, threshold_long, MT.
  destruct (Z.compare_spec e (-53)) as [E|E|E].
  - subst e. rewrite Z.ltb_irrefl, Z.eqb_refl. apply ltb_pos.
  - replace (e <? -53) with true by (symmetry; apply Z.ltb_lt; exact E). reflexivity.
  - replace (e <? -53) with false by (symmetry; apply Z.ltb_ge; apply Z.lt_le_incl; exact E).
    replace (e =? -53) with false; [reflexivity|].
    symmetry. apply Z.eqb_neq. intros ->. revert E. apply Z.lt_irrefl.
Qed.

(** The division of two numbers with mantissas of 53 digits. *)
Lemma div_53 (m1 m2 : positive) (e1 e2 : Z) :
  digits m1 = 53 -> digits m2 = 53 -> -100 <= e1 - e2 <= 100 ->
  JS.div (S754_finite false m1 e1) (S754_finite false m2 e2)
  = binary_round_aux JS.prec JS.emax false
      (Z.pos m1 * 2 ^ 53 / Z.pos m2) (e1 - e2 - 53)
      (new_location (Z.pos m2) ((Z.pos m1 * 2 ^ 53) mod Z.pos m2)).
Proof.
  intros H1 H2 He. unfold JS.div, SFdiv, SFdiv_core_binary.
  change (Zdigits2 (Z.pos m1)) with (digits m1).
  change (Zdigits2 (Z.pos m2)) with (digits m2).
  rewrite H1, H2.
  assert (Hf : Z.min (fexp JS.prec JS.emax (53 + e1 - (53 + e2))) (e1 - e2)
               = e1 - e2 - 53).
  { unfold fexp, SpecFloat.emin, JS.prec, JS.emax. lia. }
  rewrite Hf. replace (e1 - e2 - (e1 - e2 - 53)) with 53 by lia.
  rewrite Z.shiftl_mul_pow2 by lia.
  unfold Z.div, Z.modulo.
  destruct (Z.div_eucl (Z.pos m1 * 2 ^ 53) (Z.pos m2)) as [q r]. reflexivity.
Qed.

Lemma digits_mono (p q : positive) : (p <= q)%positive -> digits p <= digits q.
Proof.
  intros Hpq. pose proof (digits_bounds p) as [Hp _]. pose proof (digits_bounds q) as [_ Hq].
  assert (H : 2 ^ (digits p - 1) < 2 ^ digits q) by lia.
  apply Z.pow_lt_mono_r_iff in H; [lia | lia | pose proof (digits_pos q); lia].
Qed.

Lemma leb_scale (x y P : Z) : 0 < P -> (x * P <=? y * P) = (x <=? y).
Proof.
  intros HP. destruct (Z.leb_spec x y) as [H|H].
  - apply Z.leb_le. apply Z.mul_le_mono_nonneg_r; lia.
  - apply Z.leb_gt. apply Z.mul_lt_mono_pos_r; lia.
Qed.

Lemma two53_pow : 2 ^ 53 = 9007199254740992.
Proof. reflexivity. Qed.

Lemma two52_pow : 2 ^ 52 = 4503599627370496.
Proof. reflexivity. Qed.

(** A quotient of integers against nine tenths, in numbers and in
    integers. *)
Lemma fraction_long_exact (c n : Z) :
  0 <= c <= n -> 0 < n < 2147483648 ->
  JS.ltb (JS.div (JS.ofZ c) (JS.ofZ n)) threshold_long = (10 * c <? 9 * n).
Proof.
  intros Hc Hn.
  destruct n as [|pn|pn]; try lia.
  assert (Hdn : digits pn <= 31).
  { pose proof (digits_bounds pn) as [Hlo _].
    assert (H : 2 ^ (digits pn - 1) < 2 ^ 31) by (change (2 ^ 31) with 2147483648; lia).
    apply Z.pow_lt_mono_r_iff in H; lia. }
  rewrite (ofZ_exact pn) by lia.
  destruct c as [|pc|pc]; try lia.
  - change (JS.ofZ 0) with (S754_zero false).
    symmetry. apply Z.ltb_lt. lia.
  - assert (Hdc : digits pc <= digits pn) by (apply digits_mono; lia).
    pose proof (digits_pos pc) as Hdc0.
    rewrite (ofZ_exact pc) by lia.
    rewrite div_53 by (try apply mant53_digits; lia).
    pose proof (mant53_value pc ltac:(lia)) as Hm1.
    pose proof (mant53_value pn ltac:(lia)) as Hm2.
    pose proof (mant53_bounds pc ltac:(lia)) as Hb1.
    pose proof (mant53_bounds pn ltac:(lia)) as Hb2.
    rewrite two52_pow, two53_pow in Hb1, Hb2.
    set (t := digits pn - digits pc) in *.
    assert (Ht : 0 <= t) by (unfold t; lia).
    set (P := 2 ^ (53 - digits pn)) in *.
    assert (HP : 0 < P) by (apply Z.pow_pos_nonneg; lia).
    assert (HPt : 2 ^ (53 - digits pc) = 2 ^ t * P).
    { unfold P, t. rewrite <- Z.pow_add_r by lia. f_equal. lia. }
    rewrite HPt in Hm1.
    set (a := Z.pos pc * 2 ^ t) in *.
    assert (Ha : Z.pos (mant53 pc) = a * P) by (rewrite Hm1; unfold a; ring).
    assert (Hpow : 0 < 2 ^ t) by (apply Z.pow_pos_nonneg; lia).
    assert (Hbound : Z.pos pc < 2 ^ digits pc /\ 2 ^ (digits pn - 1) <= Z.pos pn).
    { pose proof (digits_bounds pc). pose proof (digits_bounds pn). lia. }
    replace (digits pc - 53 - (digits pn - 53) - 53) with (- t - 53) by (unfold t; lia).
    rewrite two53_pow.
    set (m1 := Z.pos (mant53 pc)) in *. set (m2 := Z.pos (mant53 pn)) in *.
    set (N := m1 * 9007199254740992).
    pose proof (Z.div_mod N m2 ltac:(lia)) as Hdiv.
    pose proof (Z.mod_pos_bound N m2 ltac:(lia)) as Hmod.
    set (q := N / m2) in *. set (r := N mod m2) in *.
    assert (HMT : Z.odd MT = true) by reflexivity.
    destruct (Z.lt_ge_cases m1 m2) as [Hlt|Hge].
    + (* the quotient has 53 digits *)
      assert (Hq : 4503599627370496 <= q < 9007199254740992).
      { unfold q, N. split.
        - apply Z.div_le_lower_bound; lia.
        - apply Z.div_lt_upper_bound; lia. }
      destruct q as [|qp|qp] eqn:Eq; try lia.
      assert (Hqd : digits qp = 53).
      { apply digits_unique. change (53 - 1) with 52. rewrite two52_pow, two53_pow. lia. }
      rewrite binary_round_aux_53; [|exact Hqd | unfold emin, SpecFloat.emin, JS.prec, JS.emax; lia | lia].
      cbv zeta.
      pose proof (rne_below (Z.pos qp) m2 r MT ltac:(lia) Hmod ltac:(lia) HMT) as Hrne.
      assert (HM : round_nearest_even (Z.pos qp) (new_location m2 r) = Z.pos qp
                   \/ round_nearest_even (Z.pos qp) (new_location m2 r) = Z.pos qp + 1).
      { unfold round_nearest_even. destruct (new_location m2 r) as [|[| |]];
          try destruct (Z.even _); auto. }
      set (M := round_nearest_even (Z.pos qp) (new_location m2 r)) in *.
      assert (Hexact : (2 * (Z.pos qp * m2 + r) <=? (2 * MT - 1) * m2)
                       = (2 * 9007199254740992 * a <=? (2 * MT - 1) * Z.pos pn)).
      { replace (2 * (Z.pos qp * m2 + r)) with (2 * 9007199254740992 * a * P)
          by (unfold N in Hdiv; rewrite Ha in Hdiv; lia).
        replace ((2 * MT - 1) * m2) with ((2 * MT - 1) * Z.pos pn * P)
          by (rewrite Hm2; ring).
        apply leb_scale, HP. }
      rewrite Hexact in Hrne.
      assert (Halt : a < Z.pos pn).
      { apply (Z.mul_lt_mono_pos_r P); [exact HP|]. lia. }
      destruct (Z.eqb_spec M two53) as [E|E].
      * rewrite ltb_threshold_long. unfold two53 in E.
        destruct (Z.eq_dec t 0) as [Ht0|Ht0].
        -- (* no carry is possible against the bound *)
           rewrite Ht0. cbn [Z.opp Z.sub Z.add Z.ltb Z.eqb Z.compare orb andb Pos.compare].
           change (-0 - 53 + 1 <? -53) with false. change (-0 - 53 + 1 =? -53) with false.
           cbn [orb andb]. symmetry. apply Z.ltb_ge.
           assert (Hfalse : (M <? MT) = false) by (apply Z.ltb_ge; unfold MT; lia).
           rewrite Hfalse in Hrne. symmetry in Hrne. apply Z.leb_gt in Hrne.
           unfold a in Hrne. rewrite Ht0 in Hrne. unfold MT in Hrne. lia.
        -- assert (H1 : (- t - 53 + 1 <? -53) || (- t - 53 + 1 =? -53) = true).
           { destruct (Z.ltb_spec (- t - 53 + 1) (-53)); [reflexivity|].
             apply Z.eqb_eq. lia. }
           replace (Z.pos two52 <? MT) with true by reflexivity.
           rewrite andb_true_r, H1. symmetry. apply Z.ltb_lt.
           assert (2 * Z.pos pc <= a).
           { unfold a. assert (H2t : 2 ^ 1 <= 2 ^ t) by (apply Z.pow_le_mono_r; lia).
             change (2 ^ 1) with 2 in H2t. rewrite (Z.mul_comm 2).
             apply Z.mul_le_mono_nonneg_l; lia. }
           lia.
      * rewrite ltb_threshold_long.
        assert (HMpos : 0 < M) by lia.
        rewrite Z2Pos.id by exact HMpos.
        destruct (Z.eq_dec t 0) as [Ht0|Ht0].
        -- rewrite Ht0. change (-0 - 53 <? -53) with false. change (-0 - 53 =? -53) with true.
           cbn [orb andb]. rewrite Hrne.
           unfold a. rewrite Ht0. unfold MT.
           destruct (Z.leb_spec (2 * 9007199254740992 * (Z.pos pc * 2 ^ 0))
                                ((2 * 8106479329266893 - 1) * Z.pos pn));
             symmetry; [apply Z.ltb_lt | apply Z.ltb_ge]; change (2 ^ 0) with 1 in *; lia.
        -- replace (- t - 53 <? -53) with true by (symmetry; apply Z.ltb_lt; lia).
           cbn [orb]. symmetry. apply Z.ltb_lt.
           assert (2 * Z.pos pc <= a).
           { unfold a. assert (H2t : 2 ^ 1 <= 2 ^ t) by (apply Z.pow_le_mono_r; lia).
             change (2 ^ 1) with 2 in H2t. rewrite (Z.mul_comm 2).
             apply Z.mul_le_mono_nonneg_l; lia. }
           lia.
    + (* the quotient has 54 digits *)
      assert (Hq : 9007199254740992 <= q < 18014398509481984).
      { unfold q, N. split.
        - apply Z.div_le_lower_bound; lia.
        - apply Z.div_lt_upper_bound; lia. }
      destruct q as [|qp|qp] eqn:Eq; try lia.
      assert (Hqd : digits qp = 54).
      { apply digits_unique. change (54 - 1) with 53. rewrite two53_pow.
        change (2 ^ 54) with 18014398509481984. lia. }
      rewrite binary_round_aux_54; [|exact Hqd | unfold emin, SpecFloat.emin, JS.prec, JS.emax; lia | lia].
      cbv zeta.
      pose proof (rne_shifted_below qp m2 r MT ltac:(lia) Hmod HMT) as Hrne.
      cbv zeta in Hrne.
      set (mrs := shr_1 (shr_record_of_loc (Z.pos qp) (new_location m2 r))) in *.
      assert (Hh : 4503599627370496 <= shr_m mrs < 9007199254740992).
      { unfold mrs. rewrite shr_1_half by (rewrite shr_m_record_of_loc; lia).
        rewrite shr_m_record_of_loc. split.
        - apply Z.div_le_lower_bound; lia.
        - apply Z.div_lt_upper_bound; lia. }
      assert (HM : round_nearest_even (shr_m mrs) (loc_of_shr_record mrs) = shr_m mrs
                   \/ round_nearest_even (shr_m mrs) (loc_of_shr_record mrs) = shr_m mrs + 1).
      { unfold round_nearest_even. destruct (loc_of_shr_record mrs) as [|[| |]];
          try destruct (Z.even _); auto. }
      set (M := round_nearest_even (shr_m mrs) (loc_of_shr_record mrs)) in *.
      assert (Hexact : (Z.pos qp * m2 + r <=? (2 * MT - 1) * m2)
                       = (9007199254740992 * a <=? (2 * MT - 1) * Z.pos pn)).
      { replace (Z.pos qp * m2 + r) with (9007199254740992 * a * P)
          by (unfold N in Hdiv; rewrite Ha in Hdiv; lia).
        replace ((2 * MT - 1) * m2) with ((2 * MT - 1) * Z.pos pn * P)
          by (rewrite Hm2; ring).
        apply leb_scale, HP. }
      rewrite Hexact in Hrne.
      assert (Hage : Z.pos pn <= a).
      { apply (Z.mul_le_mono_pos_r _ _ P); [exact HP|]. lia. }
      assert (Hcases : t = 0 \/ t = 1 \/ 2 <= t) by lia.
      assert (Hfar : 2 <= t -> 2 * Z.pos pc < Z.pos pn).
      { intros H2. destruct Hbound as [Hbc Hbn].
        assert (2 ^ (digits pc + 1) <= 2 ^ (digits pn - 1))
          by (apply Z.pow_le_mono_r; unfold t in H2; lia).
        rewrite Z.pow_add_r in H by lia. change (2 ^ 1) with 2 in H. lia. }
      destruct (Z.eqb_spec M two53) as [E|E]; rewrite ltb_threshold_long.
      * unfold two53 in E.
        replace (Z.pos two52 <? MT) with true by reflexivity. rewrite andb_true_r.
        destruct Hcases as [Ht0|[Ht1|Ht2]].
        -- rewrite Ht0. change ((-0 - 53 + 2 <? -53) || (-0 - 53 + 2 =? -53)) with false.
           symmetry. apply Z.ltb_ge. unfold a in Hage. rewrite Ht0 in Hage.
           change (2 ^ 0) with 1 in Hage. lia.
        -- rewrite Ht1. change ((-1 - 53 + 2 <? -53) || (-1 - 53 + 2 =? -53)) with false.
           symmetry. apply Z.ltb_ge.
           assert (Hfalse : (M <? MT) = false) by (apply Z.ltb_ge; unfold MT; lia).
           rewrite Hfalse in Hrne. symmetry in Hrne. apply Z.leb_gt in Hrne.
           unfold a in Hrne. rewrite Ht1 in Hrne. change (2 ^ 1) with 2 in Hrne.
           unfold MT in Hrne. lia.
        -- assert (H1 : (- t - 53 + 2 <? -53) || (- t - 53 + 2 =? -53) = true).
           { destruct (Z.ltb_spec (- t - 53 + 2) (-53)); [reflexivity|].
             apply Z.eqb_eq. lia. }
           rewrite H1. symmetry. apply Z.ltb_lt. specialize (Hfar Ht2). lia.
      * assert (HMpos : 0 < M) by lia.
        rewrite Z2Pos.id by exact HMpos.
        destruct Hcases as [Ht0|[Ht1|Ht2]].
        -- rewrite Ht0. change (-0 - 53 + 1 <? -53) with false.
           change (-0 - 53 + 1 =? -53) with false. cbn [orb andb].
           symmetry. apply Z.ltb_ge. unfold a in Hage. rewrite Ht0 in Hage.
           change (2 ^ 0) with 1 in Hage. lia.
        -- rewrite Ht1. change (-1 - 53 + 1 <? -53) with false.
           change (-1 - 53 + 1 =? -53) with true. cbn [orb andb]. rewrite Hrne.
           unfold a. rewrite Ht1. unfold MT. change (2 ^ 1) with 2.
           destruct (Z.leb_spec (9007199254740992 * (Z.pos pc * 2))
                                ((2 * 8106479329266893 - 1) * Z.pos pn));
             symmetry; [apply Z.ltb_lt | apply Z.ltb_ge]; lia.
        -- replace (- t - 53 + 1 <? -53) with true by (symmetry; apply Z.ltb_lt; lia).
           cbn [orb]. symmetry. apply Z.ltb_lt. specialize (Hfar Ht2). lia.
Qed.

End Quotients.

(* ================================================================= *)
(** ** The garbage classifier, in full *)

Section ClassifierSpec.

Import AppleNotesDB Spec.

Lemma printableUnits_range (line : jsstring) :
  0 <= printableUnits line <= JS.length line.
Proof.
  rewrite <- cleanLine_printableUnits.
  split; [apply length_nonneg | apply cleanLine_length].
Qed.

(** The printable fraction is below the threshold exactly when it is
    below 98/100, for a line of fewer than 10 code units, or below 90/100,
    for a longer one, as a quotient of integers. *)
Lemma fraction_below_threshold (line : jsstring) :
  JS.length line < 2147483648 ->
  JS.ltb (printableFraction line) (threshold (JS.length line))
  = (100 * printableUnits line
     <? (if JS.length line <? 10 then 98 else 90) * JS.length line).
Proof.
  intros Hmax. pose proof (printableUnits_range line) as Hc.
  unfold printableFraction, threshold.
  destruct (Z.eq_dec (JS.length line) 0) as [H0|H0].
  - rewrite H0 in *. replace (printableUnits line) with 0 by lia. reflexivity.
  - destruct (Z.ltb_spec (JS.length line) 10) as [Hshort|Hlong].
    + rewrite short_fraction_exact by lia.
      destruct (Z.ltb_spec (printableUnits line) (JS.length line));
        symmetry; [apply Z.ltb_lt | apply Z.ltb_ge]; lia.
    + rewrite fraction_long_exact by lia.
      destruct (Z.ltb_spec (10 * printableUnits line) (9 * JS.length line));
        symmetry; [apply Z.ltb_lt | apply Z.ltb_ge]; lia.
Qed.

(** C7. For every line, the classifier answers garbage exactly when
    the line has fewer than 3 code units, or every code unit of it is in
    the marker alphabet ([*], [J], [g], [G], [,], white space, digits,
    [-], [.]), or the printable fraction of the line is below the
    threshold, which is 0.98 for a line of fewer than 10 code units and
    0.90 for a longer one.  The fraction is a quotient of numbers and the
    thresholds are numbers; on a line of fewer than 2^31 code units, and no
    string is longer, the comparison is the one of the exact fractions. *)
Theorem isGarbageLine_spec (line : jsstring) :
  (isGarbageLine line = true <->
     JS.length line < 3
     \/ Forall (fun c => isMarker c = true) line
     \/ JS.ltb (printableFraction line) (threshold (JS.length line)) = true)
  /\ (JS.length line < 2147483648 ->
      (JS.ltb (printableFraction line) (threshold (JS.length line)) = true
       <-> 100 * printableUnits line
           < (if JS.length line <? 10 then 98 else 90) * JS.length line)).
Proof.
  split.
  - unfold isGarbageLine, printableFraction, threshold.
    rewrite cleanLine_printableUnits.
    destruct (Z.ltb_spec (JS.length line) 3) as [Hlt|Hge].
    + split; [intros _; left; exact Hlt | reflexivity].
    + assert (Hne : line <> []) by (intros ->; rewrite length_nil in Hge; lia).
      destruct (markersOnly line) eqn:Hm.
      * split; [intros _ | reflexivity].
        right; left. apply markersOnly_Forall; assumption.
      * split.
        -- intros H. right; right. exact H.
        -- intros [H | [H | H]]; [lia | | exact H].
           apply markersOnly_Forall in H; [congruence | assumption].
  - intros Hmax. rewrite fraction_below_threshold by exact Hmax.
    apply Z.ltb_lt.
Qed.

End ClassifierSpec.

(* ================================================================= *)
(** ** Rank fusion: the scores *)

Section Fusion.

Import Index Spec.

Lemma strEq_eq (a b : jsstring) : strEq a b = true <-> a = b.
Proof.
  revert b. induction a as [|x a IH]; intros [|y b]; cbn; split; try congruence.
  - intros H. apply andb_prop in H. destruct H as [H1 H2].
    apply Z.eqb_eq in H1. apply IH in H2. congruence.
  - intros [= -> ->]. rewrite Z.eqb_refl. apply IH. reflexivity.
Qed.

Lemma strEq_refl (a : jsstring) : strEq a a = true.
Proof. apply strEq_eq. reflexivity. Qed.

Lemma strEq_neq (a b : jsstring) : a <> b -> strEq a b = false.
Proof.
  intros H. destruct (strEq a b) eqn:E; [|reflexivity].
  apply strEq_eq in E. contradiction.
Qed.

Lemma mapGet_mapSet_same key v scores : mapGet key (mapSet key v scores) = Some v.
Proof.
  induction scores as [|[k' v'] r IH]; cbn.
  - rewrite strEq_refl. reflexivity.
  - destruct (strEq k' key) eqn:E; cbn; rewrite E; [reflexivity | exact IH].
Qed.

Lemma mapGet_mapSet_other key key' v scores :
  key <> key' -> mapGet key' (mapSet key v scores) = mapGet key' scores.
Proof.
  intros Hne. induction scores as [|[k' v'] r IH]; cbn.
  - rewrite strEq_neq by exact Hne. reflexivity.
  - destruct (strEq k' key) eqn:E; cbn.
    + apply strEq_eq in E. subst k'. rewrite strEq_neq by exact Hne. reflexivity.
    + destruct (strEq k' key'); [reflexivity | exact IH].
Qed.

Lemma mapSet_nonneg key v scores :
  nonneg v -> allNonneg scores -> allNonneg (mapSet key v scores).
Proof.
  intros Hv Hall. induction Hall as [|[k' v'] r Hx Hr IH]; cbn.
  - constructor; [exact Hv | constructor].
  - destruct (strEq k' key); constructor; assumption.
Qed.

Lemma mapGet_nonneg key scores v :
  allNonneg scores -> mapGet key scores = Some v -> nonneg v.
Proof.
  intros Hall. induction Hall as [|[k' v'] r Hx _ IH]; cbn; [discriminate|].
  destruct (strEq k' key); [intros [= <-]; exact Hx | exact IH].
Qed.

Lemma getOrZero_default key scores :
  allNonneg scores ->
  getOrZero key scores = match mapGet key scores with Some v => v | None => JS.zero end.
Proof.
  intros Hall. unfold getOrZero. destruct (mapGet key scores) as [v|] eqn:E; [|reflexivity].
  apply nonneg_or_zero. eapply mapGet_nonneg; eassumption.
Qed.

Lemma getOrZero_nonneg key scores : allNonneg scores -> nonneg (getOrZero key scores).
Proof.
  intros Hall. rewrite getOrZero_default by exact Hall.
  destruct (mapGet key scores) as [v|] eqn:E; [|exact I].
  eapply mapGet_nonneg; eassumption.
Qed.

Lemma contribution_nonneg (idx : Z) : 0 <= idx -> nonneg (contribution 0 idx).
Proof.
  intros H. unfold contribution.
  change (JS.ofZ 1) with (S754_finite false 4503599627370496 (-52)).
  apply div_nonneg, ofZ_nonneg. unfold k. lia.
Qed.

(** One call of [processResults], key by key. *)
Lemma processFrom_get (results : list SearchResult) (key : jsstring) :
  forall idx scores,
    0 <= idx -> allNonneg scores ->
    mapGet key (processFrom idx results 0 scores)
    = accumulate (mapGet key scores) (contributionsFrom idx key results)
    /\ allNonneg (processFrom idx results 0 scores).
Proof.
  induction results as [|result rest IH]; intros idx scores Hidx Hall.
  - split; [reflexivity | exact Hall].
  - cbn [processFrom contributionsFrom].
    assert (Hnew : allNonneg
              (mapSet (keyOf result)
                 (JS.add (getOrZero (keyOf result) scores) (contribution 0 idx)) scores)).
    { apply mapSet_nonneg; [|exact Hall].
      apply add_nonneg; [apply getOrZero_nonneg, Hall | apply contribution_nonneg, Hidx]. }
    destruct (IH (idx + 1) _ ltac:(lia) Hnew) as [IHget IHall].
    split; [|exact IHall]. rewrite IHget.
    destruct (strEq (keyOf result) key) eqn:E.
    + apply strEq_eq in E. subst key. rewrite mapGet_mapSet_same.
      rewrite getOrZero_default by exact Hall. reflexivity.
    + rewrite mapGet_mapSet_other; [reflexivity|].
      intros Heq. rewrite Heq, strEq_refl in E. discriminate.
Qed.

Lemma accumulate_some (cs : list JS.number) :
  forall v, accumulate (Some v) cs = Some (fold_left JS.add cs v).
Proof. induction cs as [|c r IH]; intros v; cbn; [reflexivity | apply IH]. Qed.

Lemma accumulate_none (cs : list JS.number) :
  accumulate None cs = scoreOf cs.
Proof. destruct cs as [|c r]; [reflexivity|]. cbn. apply accumulate_some. Qed.

Lemma fuse_get (vector fts : list SearchResult) (key : jsstring) :
  mapGet key (fuse vector fts)
  = scoreOf (contributions key vector ++ contributions key fts).
Proof.
  unfold fuse, processResults, contributions.
  destruct (processFrom_get vector key 0 [] ltac:(lia) ltac:(constructor)) as [H1 Hall].
  destruct (processFrom_get fts key 0 _ ltac:(lia) Hall) as [H2 _].
  rewrite H2, H1. cbn [mapGet].
  rewrite <- accumulate_none. unfold accumulate. rewrite fold_left_app. reflexivity.
Qed.

(** C2. Every item of a source list gives the key it has the
    contribution [1 / (60 + idx)] of its position [idx], counted from
    zero, and the score of a key is the sum of the contributions it
    receives in the two lists (a key that receives none has no score).
    For the vector list [A, B, C] and the lexical list [C, A, D], the
    score of [A] is [1/60 + 1/61] and the score of [C] is [1/62 + 1/60]. *)
Theorem fuse_sums_contributions :
  (forall (vector fts : list SearchResult) (key : jsstring),
      mapGet key (fuse vector fts)
      = scoreOf (contributions key vector ++ contributions key fts))
  /\ (forall A B C D : SearchResult,
         NoDup [keyOf A; keyOf B; keyOf C; keyOf D] ->
         mapGet (keyOf A) (fuse [A; B; C] [C; A; D])
         = Some (JS.add (JS.div (JS.ofZ 1) (JS.ofZ 60)) (JS.div (JS.ofZ 1) (JS.ofZ 61)))
         /\ mapGet (keyOf C) (fuse [A; B; C] [C; A; D])
            = Some (JS.add (JS.div (JS.ofZ 1) (JS.ofZ 62)) (JS.div (JS.ofZ 1) (JS.ofZ 60)))).
Proof.
  split; [exact fuse_get|].
  intros A B C D Hnd.
  inversion Hnd as [|? ? HA Hnd1]; subst.
  inversion Hnd1 as [|? ? HB Hnd2]; subst.
  inversion Hnd2 as [|? ? HC _]; subst.
  cbn [In] in HA, HB, HC.
  assert (HAB : strEq (keyOf B) (keyOf A) = false) by (apply strEq_neq; intuition congruence).
  assert (HAC : strEq (keyOf C) (keyOf A) = false) by (apply strEq_neq; intuition congruence).
  assert (HAD : strEq (keyOf D) (keyOf A) = false) by (apply strEq_neq; intuition congruence).
  assert (HCA : strEq (keyOf A) (keyOf C) = false) by (apply strEq_neq; intuition congruence).
  assert (HCB : strEq (keyOf B) (keyOf C) = false) by (apply strEq_neq; intuition congruence).
  assert (HCD : strEq (keyOf D) (keyOf C) = false) by (apply strEq_neq; intuition congruence).
  rewrite !fuse_get. unfold contributions. cbn [contributionsFrom].
  rewrite !strEq_refl, HAB, HAC, HAD, HCA, HCB, HCD.
  split; reflexivity.
Qed.

End Fusion.

(* ================================================================= *)
(** ** Rank fusion: keys and hits *)

Section Keys.

Import Index Spec.

Lemma split_first (s : jsstring) :
  forall cur,
    nth_error (JS.splitFrom (js "::") O cur s) 0 = Some (rev cur ++ beforeSeparator s).
Proof.
  induction s as [|c r IH]; intros cur.
  - cbn. rewrite app_nil_r. reflexivity.
  - cbn [JS.splitFrom beforeSeparator].
    destruct (JS.startsWith (js "::") (c :: r)).
    + cbn. rewrite app_nil_r. reflexivity.
    + rewrite IH. cbn [rev]. rewrite <- app_assoc. reflexivity.
Qed.

(** A title without a colon is the first segment of the key. *)
Lemma split_key (t c : jsstring) :
  Forall (fun u => u <> COLON) t ->
  forall cur,
    JS.splitFrom (js "::") O cur (t ++ js "::" ++ c)
    = (rev cur ++ t) :: JS.split (js "::") c.
Proof.
  intros Ht. induction Ht as [|u t Hu _ IH]; intros cur.
  - cbn. rewrite app_nil_r. reflexivity.
  - cbn [app JS.splitFrom].
    replace (JS.startsWith (js "::") (u :: t ++ js "::" ++ c)) with false.
    + rewrite IH. cbn [rev]. rewrite <- app_assoc. reflexivity.
    + change (JS.startsWith (js "::") (u :: t ++ js "::" ++ c))
        with ((58 =? u) && JS.startsWith [58] (t ++ js "::" ++ c)).
      destruct (Z.eqb_spec 58 u) as [E|]; [|reflexivity].
      exfalso. apply Hu. symmetry. exact E.
Qed.

Lemma hitOfKey_truncates (r : SearchResult) :
  Forall (fun u => u <> COLON) (title r) ->
  hitOfKey (keyOf r)
  = {| hit_title := Some (title r);
       hit_content := Some (beforeSeparator (content r)) |}.
Proof.
  intros Ht.
  assert (Hs : JS.split (js "::") (keyOf r)
               = title r :: JS.split (js "::") (content r))
    by apply (split_key _ _ Ht []).
  unfold hitOfKey. cbv zeta. rewrite Hs.
  f_equal. apply (split_first (content r) []).
Qed.

Lemma keys_mapSet key v scores :
  keys (mapSet key v scores)
  = if existsb (fun k' => strEq k' key) (keys scores)
    then keys scores else keys scores ++ [key].
Proof.
  induction scores as [|[k' v'] r IH]; cbn; [reflexivity|].
  destruct (strEq k' key) eqn:E; cbn; [reflexivity|].
  unfold keys in IH. rewrite IH.
  destruct (existsb _ _); reflexivity.
Qed.

Lemma existsb_strEq_In key (l : list jsstring) :
  existsb (fun k' => strEq k' key) l = true <-> In key l.
Proof.
  rewrite existsb_exists. split.
  - intros (x & Hin & Hx). apply strEq_eq in Hx. subst. exact Hin.
  - intros Hin. exists key. split; [exact Hin | apply strEq_refl].
Qed.

Lemma mapSet_NoDup key v scores :
  NoDup (keys scores) -> NoDup (keys (mapSet key v scores)).
Proof.
  intros H. rewrite keys_mapSet.
  destruct (existsb _ _) eqn:E; [exact H|].
  apply NoDup_app; [exact H | repeat constructor; intros [] |].
  intros x Hx [<-|[]].
  apply existsb_strEq_In in Hx. congruence.
Qed.

Lemma processFrom_keys (results : list SearchResult) :
  forall idx startRank scores,
    NoDup (keys scores) ->
    NoDup (keys (processFrom idx results startRank scores))
    /\ (forall key, In key (keys (processFrom idx results startRank scores)) ->
                    In key (keys scores) \/ exists r, In r results /\ key = keyOf r).
Proof.
  induction results as [|result rest IH]; intros idx startRank scores Hnd.
  - split; [exact Hnd | intros key H; left; exact H].
  - cbn [processFrom].
    destruct (IH (idx + 1) startRank _ (mapSet_NoDup (keyOf result)
               (JS.add (getOrZero (keyOf result) scores) (contribution startRank idx))
               scores Hnd)) as [IHnd IHin].
    split; [exact IHnd|].
    intros key Hin. destruct (IHin key Hin) as [H|(r & Hr & ->)].
    + rewrite keys_mapSet in H. destruct (existsb _ _); [left; exact H|].
      apply in_app_or in H. destruct H as [H|[<-|[]]]; [left; exact H|].
      right. exists result. split; [left; reflexivity | reflexivity].
    + right. exists r. split; [right; exact Hr | reflexivity].
Qed.

Lemma fuse_keys (vector fts : list SearchResult) :
  NoDup (keys (fuse vector fts))
  /\ (forall key, In key (keys (fuse vector fts)) ->
                  exists r, In r (vector ++ fts) /\ key = keyOf r).
Proof.
  unfold fuse, processResults.
  destruct (processFrom_keys vector 0 0 [] ltac:(constructor)) as [H1 H1in].
  destruct (processFrom_keys fts 0 0 _ H1) as [H2 H2in].
  split; [exact H2|].
  intros key Hin. destruct (H2in key Hin) as [H|(r & Hr & ->)].
  - destruct (H1in key H) as [[]|(r & Hr & ->)].
    exists r. split; [apply in_or_app; left; exact Hr | reflexivity].
  - exists r. split; [apply in_or_app; right; exact Hr | reflexivity].
Qed.

(** *** The sort *)

Lemma insertSorted_perm x l : Permutation (insertSorted x l) (x :: l).
Proof.
  induction l as [|y r IH]; cbn; [apply Permutation_refl|].
  destruct (JS.ltb JS.zero (compareFn x y)); [|apply Permutation_refl].
  eapply perm_trans; [apply perm_skip, IH | apply perm_swap].
Qed.

Lemma sort_perm l : Permutation (sort l) l.
Proof.
  induction l as [|x r IH]; cbn; [constructor|].
  eapply perm_trans; [apply insertSorted_perm | apply perm_skip, IH].
Qed.

Lemma ranked_length (vector fts : list SearchResult) (limit : nat) :
  (List.length (ranked vector fts limit) <= limit)%nat.
Proof. unfold ranked. apply firstn_le_length. Qed.

Lemma NoDup_firstn {A : Type} (n : nat) (l : list A) : NoDup l -> NoDup (firstn n l).
Proof.
  intros H. rewrite <- (firstn_skipn n l) in H.
  apply NoDup_app_remove_r in H. exact H.
Qed.

Lemma In_firstn {A : Type} (n : nat) (l : list A) (x : A) :
  In x (firstn n l) -> In x l.
Proof.
  intros H. rewrite <- (firstn_skipn n l). apply in_or_app. left. exact H.
Qed.

(** The keys that are kept are pairwise different. *)
Lemma ranked_keys_NoDup (vector fts : list SearchResult) (limit : nat) :
  NoDup (keys (ranked vector fts limit)).
Proof.
  unfold ranked, keys. rewrite <- firstn_map. apply NoDup_firstn.
  eapply Permutation_NoDup.
  - apply Permutation_sym, Permutation_map, sort_perm.
  - apply fuse_keys.
Qed.

Lemma ranked_keys_of_results (vector fts : list SearchResult) (limit : nat) key :
  In key (keys (ranked vector fts limit)) ->
  exists r, In r (vector ++ fts) /\ key = keyOf r.
Proof.
  unfold ranked, keys. rewrite <- firstn_map. intros Hin.
  apply In_firstn in Hin.
  apply (fuse_keys vector fts).
  eapply Permutation_in; [apply Permutation_map, sort_perm | exact Hin].
Qed.

(** C10. A hit is rebuilt from a key, the key [title::content] of one
    of the results, by splitting it at ["::"] and taking the first two
    segments.  For a title without a colon this gives the title back, and
    the content only up to its first ["::"].  So there are results whose
    hit differs from the stored pair, and there are two different pairs
    with the same key, which the map merges into one entry. *)
Theorem hits_rebuilt_from_keys :
  (forall vector fts limit hit,
      In hit (combineResults vector fts limit) ->
      exists r, In r (vector ++ fts)
                /\ hit = {| hit_title := nth_error (JS.split (js "::") (title r ++ js "::" ++ content r)) 0;
                            hit_content := nth_error (JS.split (js "::") (title r ++ js "::" ++ content r)) 1 |})
  /\ (forall r, Forall (fun u => u <> COLON) (title r) ->
                hitOfKey (keyOf r)
                = {| hit_title := Some (title r);
                     hit_content := Some (beforeSeparator (content r)) |})
  /\ (exists r, combineResults [r] [] 10
                = [{| hit_title := Some (js "a"); hit_content := Some (js "b") |}]
                /\ title r = js "a" /\ content r = js "b::c")
  /\ (exists r1 r2, r1 <> r2 /\ keyOf r1 = keyOf r2
                    /\ List.length (fuse [r1] [r2]) = 1%nat).
Proof.
  split; [|split; [|split]].
  - intros vector fts limit hit Hin. unfold combineResults in Hin.
    apply in_map_iff in Hin. destruct Hin as ([key v] & <- & Hin).
    destruct (ranked_keys_of_results vector fts limit key) as (r & Hr & ->).
    { unfold keys. apply in_map_iff. exists (key, v). split; [reflexivity | exact Hin]. }
    exists r. split; [exact Hr | reflexivity].
  - exact hitOfKey_truncates.
  - exists {| title := js "a"; content := js "b::c" |}.
    repeat split; vm_compute; reflexivity.
  - exists {| title := js "a::b"; content := js "c" |},
           {| title := js "a"; content := js "b::c" |}.
    repeat split; [discriminate | vm_compute; reflexivity..].
Qed.

(** C6. Two results with the same title whose contents agree up to a
    ["::"] have different keys and come back as the same hit twice: the
    output of [searchAndCombineResults] has a duplicate. *)
Theorem combineResults_repeats_a_hit :
  let r1 := {| title := js "Snippet"; content := js "std::vector" |} in
  let r2 := {| title := js "Snippet"; content := js "std::map" |} in
  let hit := {| hit_title := Some (js "Snippet"); hit_content := Some (js "std") |} in
  keyOf r1 <> keyOf r2
  /\ combineResults [r1; r2] [] 10 = [hit; hit]
  /\ ~ NoDup (combineResults [r1; r2] [] 10).
Proof.
  cbv zeta. split; [|split].
  - vm_compute. discriminate.
  - vm_compute. reflexivity.
  - intros H. vm_compute in H. inversion H as [|? ? Hnotin _]; subst.
    apply Hnotin. left. reflexivity.
Qed.

End Keys.

(* ================================================================= *)
(** ** Rank fusion: the order of the entries *)

Section Ranking.

Import Index Spec.

Lemma isScore_nonneg (x : JS.number) : isScore x -> nonneg x.
Proof. intros [H _]. exact H. Qed.

Lemma contribution_isScore (idx : Z) : 0 <= idx -> isScore (contribution 0 idx).
Proof.
  intros H. unfold contribution.
  change (JS.ofZ 1) with (S754_finite false 4503599627370496 (-52)).
  apply div_isScore, ofZ_nonneg. unfold k. lia.
Qed.

Lemma allScores_allNonneg (scores : ScoreMap) : allScores scores -> allNonneg scores.
Proof. apply Forall_impl. intros e. apply isScore_nonneg. Qed.

Lemma mapSet_isScore key v scores :
  isScore v -> allScores scores -> allScores (mapSet key v scores).
Proof.
  intros Hv Hall. induction Hall as [|[k' v'] r Hx Hr IH]; cbn.
  - constructor; [exact Hv | constructor].
  - destruct (strEq k' key); constructor; assumption.
Qed.

Lemma getOrZero_isScore key scores : allScores scores -> isScore (getOrZero key scores).
Proof.
  intros Hall. rewrite getOrZero_default by (apply allScores_allNonneg, Hall).
  destruct (mapGet key scores) as [v|] eqn:E; [|split; exact I].
  clear -Hall E. induction Hall as [|[k' v'] r Hx _ IH]; cbn in E; [discriminate|].
  destruct (strEq k' key); [injection E as <-; exact Hx | apply IH, E].
Qed.

Lemma processFrom_scores (results : list SearchResult) :
  forall idx scores,
    0 <= idx -> allScores scores -> allScores (processFrom idx results 0 scores).
Proof.
  induction results as [|result rest IH]; intros idx scores Hidx Hall; [exact Hall|].
  cbn [processFrom]. apply IH; [lia|].
  apply mapSet_isScore; [|exact Hall].
  apply add_isScore; [apply getOrZero_isScore, Hall | apply contribution_isScore, Hidx].
Qed.

Lemma fuse_scores (vector fts : list SearchResult) : allScores (fuse vector fts).
Proof.
  unfold fuse, processResults.
  apply processFrom_scores; [lia|]. apply processFrom_scores; [lia | constructor].
Qed.

Lemma processFrom_firstOccurrences (results : list SearchResult) :
  forall idx startRank scores,
    keys (processFrom idx results startRank scores)
    = fold_left addKey (List.map keyOf results) (keys scores).
Proof.
  induction results as [|result rest IH]; intros idx startRank scores; [reflexivity|].
  cbn [processFrom List.map fold_left]. rewrite IH, keys_mapSet. reflexivity.
Qed.

(** The map lists the keys in the order in which the merge first meets
    them: the vector results, then the lexical results. *)
Lemma fuse_first_encountered (vector fts : list SearchResult) :
  keys (fuse vector fts) = firstOccurrences (List.map keyOf (vector ++ fts)).
Proof.
  unfold fuse, processResults, firstOccurrences.
  rewrite !processFrom_firstOccurrences, map_app, fold_left_app. reflexivity.
Qed.

Lemma compareFn_positive (x y : jsstring * JS.number) :
  isScore (snd x) -> isScore (snd y) ->
  JS.ltb JS.zero (compareFn x y) = scoreLt (snd x) (snd y).
Proof. intros Hx Hy. unfold compareFn. apply sub_positive_iff; assumption. Qed.

Lemma insertSorted_scores x l :
  isScore (snd x) -> allScores l -> allScores (insertSorted x l).
Proof.
  intros Hx Hl. eapply Permutation_Forall; [|exact (Forall_cons x Hx Hl)].
  apply Permutation_sym, insertSorted_perm.
Qed.

Lemma sort_scores l : allScores l -> allScores (sort l).
Proof.
  intros Hl. eapply Permutation_Forall; [|exact Hl].
  apply Permutation_sym, sort_perm.
Qed.

Lemma insertSorted_sorted x l :
  isScore (snd x) -> allScores l ->
  StronglySorted notBelow l -> StronglySorted notBelow (insertSorted x l).
Proof.
  intros Hx Hl Hs. induction Hs as [|y r Hr IH Hy]; cbn [insertSorted].
  - constructor; constructor.
  - inversion Hl as [|? ? Hys Hrs]; subst.
    rewrite compareFn_positive by assumption.
    destruct (scoreLt (snd x) (snd y)) eqn:E.
    + constructor; [apply IH, Hrs|].
      eapply Permutation_Forall; [apply Permutation_sym, insertSorted_perm|].
      constructor; [|exact Hy].
      unfold notBelow, scoreLt in *. apply below_asym, E.
    + constructor; [constructor; assumption|].
      constructor; [exact E|].
      eapply Forall_impl; [|exact Hy]. intros z Hz.
      unfold notBelow, scoreLt in *. eapply not_below_trans; eassumption.
Qed.

(** The sorted entries are in descending order of score. *)
Lemma sort_sorted l : allScores l -> StronglySorted notBelow (sort l).
Proof.
  intros Hl. induction Hl as [|x r Hx Hr IH]; cbn [sort]; [constructor|].
  apply insertSorted_sorted; [exact Hx | apply sort_scores, Hr | exact IH].
Qed.

Lemma hasUnits_below u x y :
  hasUnits u x = true -> hasUnits u y = true -> scoreLt (snd x) (snd y) = false.
Proof.
  unfold hasUnits, scoreLt.
  destruct u as [a|], (units (snd x)) as [b|], (units (snd y)) as [c|];
    cbn; try congruence; intros H1 H2.
  apply Z.eqb_eq in H1, H2. apply Z.ltb_ge. lia.
Qed.

Lemma insertSorted_stable u x l :
  isScore (snd x) -> allScores l ->
  filter (hasUnits u) (insertSorted x l) = filter (hasUnits u) (x :: l).
Proof.
  intros Hx Hl. induction Hl as [|y r Hy Hr IH]; [reflexivity|].
  cbn [insertSorted]. rewrite compareFn_positive by assumption.
  destruct (scoreLt (snd x) (snd y)) eqn:E; [|reflexivity].
  cbn [filter] in IH |- *. rewrite IH.
  destruct (hasUnits u y) eqn:Ey; destruct (hasUnits u x) eqn:Ex; try reflexivity.
  rewrite (hasUnits_below u x y Ex Ey) in E. discriminate.
Qed.

(** Entries of equal score keep the order they have in the map. *)
Lemma sort_stable u l :
  allScores l -> filter (hasUnits u) (sort l) = filter (hasUnits u) l.
Proof.
  intros Hl. induction Hl as [|x r Hx Hr IH]; [reflexivity|].
  cbn [sort]. rewrite insertSorted_stable by (try apply sort_scores; assumption).
  cbn [filter]. rewrite IH. reflexivity.
Qed.

Lemma StronglySorted_firstn {A : Type} (R : A -> A -> Prop) (n : nat) (l : list A) :
  StronglySorted R l -> StronglySorted R (firstn n l).
Proof.
  intros H. revert n. induction H as [|x r Hr IH Hx]; intros [|n]; cbn; try constructor.
  - apply IH.
  - apply Forall_forall. intros y Hy. rewrite Forall_forall in Hx.
    apply Hx. eapply In_firstn, Hy.
Qed.

(** What the fusion keeps, before the pairs are rebuilt: at most [limit]
    entries, with pairwise different keys, in descending order of score;
    among all entries those of equal score stand in the order of the map,
    which is the order in which the merge first met their keys. *)
Lemma ranked_sorted_stable (vector fts : list SearchResult) (limit : nat) :
  (List.length (ranked vector fts limit) <= limit)%nat
  /\ NoDup (keys (ranked vector fts limit))
  /\ StronglySorted notBelow (ranked vector fts limit)
  /\ (forall u, filter (hasUnits u) (sort (fuse vector fts))
                = filter (hasUnits u) (fuse vector fts))
  /\ keys (fuse vector fts) = firstOccurrences (List.map keyOf (vector ++ fts)).
Proof.
  split; [apply ranked_length|]. split; [apply ranked_keys_NoDup|].
  split; [apply StronglySorted_firstn, sort_sorted, fuse_scores|].
  split; [intros u; apply sort_stable, fuse_scores | apply fuse_first_encountered].
Qed.

End Ranking.

(* ================================================================= *)
(** ** The chunker: what the chunks are *)

Section ChunkPieces.

Import TextChunker Spec.

Lemma slice_pieceOf (s : jsstring) (a b : Z) : pieceOf s (JS.slice s a b).
Proof.
  unfold JS.slice, pieceOf. cbv zeta.
  set (m := Z.to_nat (JS.clampIndex (JS.length s) a)).
  set (n := Z.to_nat (JS.clampIndex (JS.length s) b - JS.clampIndex (JS.length s) a)).
  exists (firstn m s), (skipn n (skipn m s)).
  rewrite firstn_skipn, firstn_skipn. reflexivity.
Qed.

Lemma trimStart_split (s : jsstring) :
  exists white, s = white ++ JS.trimStart s
                /\ Forall (fun c => JS.isWhiteSpace c = true) white.
Proof.
  induction s as [|c r (white & E & Hw)]; [exists []; split; [reflexivity | constructor]|].
  cbn [JS.trimStart]. destruct (JS.isWhiteSpace c) eqn:Hc.
  - exists (c :: white). split; [cbn; congruence | constructor; assumption].
  - exists []. split; [reflexivity | constructor].
Qed.

Lemma trim_split (s : jsstring) :
  exists l r, s = l ++ JS.trim s ++ r
              /\ Forall (fun c => JS.isWhiteSpace c = true) l
              /\ Forall (fun c => JS.isWhiteSpace c = true) r.
Proof.
  destruct (trimStart_split s) as (l & El & Hl).
  destruct (trimStart_split (rev (JS.trimStart s))) as (r & Er & Hr).
  exists l, (rev r). split; [|split; [exact Hl | apply Forall_rev, Hr]].
  unfold JS.trim, JS.trimEnd.
  rewrite <- rev_app_distr, <- Er, rev_involutive. exact El.
Qed.

Lemma pieceOf_trans (a b c : jsstring) : pieceOf a b -> pieceOf b c -> pieceOf a c.
Proof.
  intros (x & y & ->) (u & v & ->). exists (x ++ u), (v ++ y).
  rewrite <- !app_assoc. reflexivity.
Qed.

Lemma trim_pieceOf (s : jsstring) : pieceOf s (JS.trim s).
Proof. destruct (trim_split s) as (l & r & E & _). exists l, r. exact E. Qed.

(** The loop, by an invariant [I] of its state and a property [Q] of
    what it returns. *)
Lemma loop_invariant (text : jsstring) (options : ChunkOptions)
      (I : loopState -> Prop) (Q : list jsstring -> Prop) :
  (forall st, I st -> JS.length text <= start st -> Q (chunks st)) ->
  (forall st, I st -> start st < JS.length text ->
              snd (loopBody text options st) = true ->
              Q (chunks (fst (loopBody text options st)))) ->
  (forall st, I st -> start st < JS.length text ->
              snd (loopBody text options st) = false ->
              I (fst (loopBody text options st))) ->
  forall fuel st out,
    I st -> loop fuel text options st = Some out -> Q out.
Proof.
  intros Hexit Hstop Hstep. induction fuel as [|fuel IH]; intros st out Hst Hrun.
  - cbn [loop] in Hrun. destruct (Z.ltb_spec (start st) (JS.length text)); [discriminate|].
    injection Hrun as <-. apply Hexit; assumption.
  - cbn [loop] in Hrun.
    destruct (Z.ltb_spec (start st) (JS.length text)) as [Hlt|Hge];
      [|injection Hrun as <-; apply Hexit; assumption].
    pose proof (Hstop st Hst Hlt) as H1. pose proof (Hstep st Hst Hlt) as H2.
    destruct (loopBody text options st) as [st' stop]. cbn [fst snd] in H1, H2.
    destruct stop; [injection Hrun as <-; apply H1; reflexivity|].
    apply (IH st'); [apply H2; reflexivity | exact Hrun].
Qed.

(** What a pass adds to the chunks. *)
Lemma loopBody_chunks_cases (text : jsstring) (options : ChunkOptions) (st : loopState) :
  let chunk := JS.trim (JS.slice text (start st) (windowEnd text options (start st))) in
  (chunk = [] /\ chunks (fst (loopBody text options st)) = chunks st)
  \/ (chunk <> [] /\ chunks (fst (loopBody text options st)) = chunks st ++ [chunk]).
Proof.
  cbv zeta. unfold loopBody. cbn [fst chunks].
  destruct (JS.trim (JS.slice text (start st) (windowEnd text options (start st))))
    as [|c r] eqn:E.
  - left. split; reflexivity.
  - right. split; [discriminate|]. rewrite length_cons.
    pose proof (length_nonneg r).
    destruct (Z.ltb_spec 0 (1 + JS.length r)); [reflexivity | lia].
Qed.

Lemma loop_Forall (text : jsstring) (options : ChunkOptions) (P : jsstring -> Prop) :
  (forall a b, JS.trim (JS.slice text a b) <> [] -> P (JS.trim (JS.slice text a b))) ->
  forall fuel st out,
    Forall P (chunks st) -> loop fuel text options st = Some out -> Forall P out.
Proof.
  intros HP fuel st out Hst Hrun.
  assert (Hbody : forall st, Forall P (chunks st) ->
                             Forall P (chunks (fst (loopBody text options st)))).
  { intros st0 H0. destruct (loopBody_chunks_cases text options st0) as [[_ ->]|[Hne ->]];
      [exact H0|].
    apply Forall_app. split; [exact H0|]. constructor; [apply HP, Hne | constructor]. }
  apply (loop_invariant text options (fun st => Forall P (chunks st)) (Forall P))
    with (fuel := fuel) (st := st); auto.
Qed.

(** No chunk is empty. *)
Lemma chunkText_nonempty (fuel : nat) (text : jsstring)
      (options : ChunkOptions) (out : list jsstring) :
  chunkText fuel text options = Some out ->
  Forall (fun chunk => chunk <> []) out.
Proof.
  unfold chunkText. destruct text as [|c r] eqn:E; [intros [= <-]; constructor|].
  rewrite <- E.
  destruct (JS.length (JS.trim text) =? 0); [intros [= <-]; constructor|].
  destruct (JS.length text <=? maxChunkSize options).
  - intros [= <-]. constructor; [rewrite E; discriminate | constructor].
  - apply loop_Forall; [|constructor]. intros a b Hne. exact Hne.
Qed.

(** X1. No chunk is empty or blank, and the chunks of a text longer than
    [maxChunkSize] have no white space at either end. *)
Theorem chunkText_chunks_not_blank (fuel : nat) (text : jsstring)
        (options : ChunkOptions) (out : list jsstring) :
  chunkText fuel text options = Some out ->
  Forall (fun chunk => JS.trim chunk <> []) out
  /\ (maxChunkSize options < JS.length text ->
      Forall (fun chunk => JS.trim chunk = chunk) out).
Proof.
  unfold chunkText. destruct text as [|c r] eqn:E; [intros [= <-]; split; constructor|].
  rewrite <- E.
  destruct (Z.eqb_spec (JS.length (JS.trim text)) 0) as [|Hblank];
    [intros [= <-]; split; constructor|].
  destruct (Z.leb_spec (JS.length text) (maxChunkSize options)) as [Hshort|Hlong].
  - intros [= <-]. split; [|lia].
    constructor; [|constructor]. intros Ht. rewrite Ht in Hblank. apply Hblank. reflexivity.
  - intros Hrun.
    assert (H : Forall (fun chunk => JS.trim chunk = chunk /\ chunk <> []) out).
    { apply (loop_Forall text options _) with (fuel := fuel) (st := {| start := 0; chunks := [] |});
        [|constructor | exact Hrun].
      intros a b Hne. split; [apply isLine_trim_fixed, trim_isLine, Hne | exact Hne]. }
    split.
    + eapply Forall_impl; [|exact H]. intros chunk [-> Hne]. exact Hne.
    + intros _. eapply Forall_impl; [|exact H]. intros chunk [Ht _]. exact Ht.
Qed.


(** X2. Every chunk is a contiguous piece of the text. *)
Theorem chunkText_chunks_are_pieces (fuel : nat) (text : jsstring)
        (options : ChunkOptions) (out : list jsstring) :
  chunkText fuel text options = Some out ->
  Forall (pieceOf text) out.
Proof.
  unfold chunkText. destruct text as [|c r] eqn:E; [intros [= <-]; constructor|].
  rewrite <- E.
  destruct (JS.length (JS.trim text) =? 0); [intros [= <-]; constructor|].
  destruct (JS.length text <=? maxChunkSize options).
  - intros [= <-]. constructor; [|constructor]. exists [], []. rewrite app_nil_r. reflexivity.
  - apply loop_Forall; [|constructor].
    intros a b _. eapply pieceOf_trans; [apply slice_pieceOf | apply trim_pieceOf].
Qed.

(** *** Nothing is lost *)

Lemma trimStart_keeps (pre post : jsstring) (c : Z) :
  JS.isWhiteSpace c = false ->
  exists pre1 pre2, pre = pre1 ++ pre2
                    /\ JS.trimStart (pre ++ c :: post) = pre2 ++ c :: post.
Proof.
  intros Hc. induction pre as [|d pre (p1 & p2 & E & IH)].
  - exists [], []. split; [reflexivity|]. cbn. rewrite Hc. reflexivity.
  - cbn [app JS.trimStart]. destruct (JS.isWhiteSpace d).
    + exists (d :: p1), p2. split; [cbn; congruence | exact IH].
    + exists [], (d :: pre). split; reflexivity.
Qed.

Lemma trim_keeps (pre post : jsstring) (c : Z) :
  JS.isWhiteSpace c = false ->
  exists pre1 pre2 post1 post2,
    pre = pre1 ++ pre2 /\ post = post1 ++ post2
    /\ JS.trim (pre ++ c :: post) = pre2 ++ c :: post1.
Proof.
  intros Hc.
  destruct (trimStart_keeps pre post c Hc) as (pre1 & pre2 & Epre & E1).
  destruct (trimStart_keeps (rev post) (rev pre2) c Hc) as (q1 & q2 & Eq & E2).
  exists pre1, pre2, (rev q2), (rev q1).
  split; [exact Epre|]. split.
  - rewrite <- rev_app_distr, <- Eq, rev_involutive. reflexivity.
  - unfold JS.trim, JS.trimEnd. rewrite E1.
    replace (rev (pre2 ++ c :: post)) with (rev post ++ c :: rev pre2)
      by (rewrite rev_app_distr; cbn [rev]; rewrite <- app_assoc; reflexivity).
    rewrite E2, rev_app_distr. cbn [rev]. rewrite rev_involutive, <- app_assoc. reflexivity.
Qed.

(** The window from [a] to [b], trimmed, holds every code unit of the
    window that is not white space. *)
Lemma window_holds (before after : jsstring) (c a b : Z) :
  JS.isWhiteSpace c = false ->
  0 <= a <= JS.length before ->
  JS.length before < b <= JS.length (before ++ c :: after) ->
  let text := before ++ c :: after in
  let chunk := JS.trim (JS.slice text a b) in
  chunk <> [] /\ holds text (List.length before) chunk.
Proof.
  intros Hc Ha Hb. cbv zeta.
  set (text := before ++ c :: after) in *.
  assert (Hlen : JS.length text = JS.length before + 1 + JS.length after).
  { unfold text. rewrite length_app, length_cons. lia. }
  pose proof (length_nonneg after) as Hafter.
  assert (Hs : exists pre0 pre post rest,
             before = pre0 ++ pre
             /\ after = post ++ rest
             /\ JS.slice text a b = pre ++ c :: post).
  { exists (firstn (Z.to_nat a) before), (skipn (Z.to_nat a) before),
           (firstn (Z.to_nat (b - JS.length before - 1)) after),
           (skipn (Z.to_nat (b - JS.length before - 1)) after).
    split; [symmetry; apply firstn_skipn|]. split; [symmetry; apply firstn_skipn|].
    unfold JS.slice. cbv zeta.
    rewrite !clampIndex_inside by lia.
    unfold text. rewrite skipn_app.
    replace (Z.to_nat a - List.length before)%nat with O by (unfold JS.length in *; lia).
    cbn [skipn]. rewrite firstn_app.
    rewrite firstn_all2 by (rewrite List.length_skipn; unfold JS.length in *; lia).
    f_equal.
    replace (Z.to_nat (b - a) - List.length (skipn (Z.to_nat a) before))%nat
      with (S (Z.to_nat (b - JS.length before - 1)))
      by (rewrite List.length_skipn; unfold JS.length in *; lia).
    reflexivity. }
  destruct Hs as (pre0 & pre & post & rest & Ebefore & Eafter & Eslice).
  rewrite Eslice.
  destruct (trim_keeps pre post c Hc) as (pre1 & pre2 & post1 & post2 & Epre & Epost & ->).
  split; [destruct pre2; discriminate|].
  exists (pre0 ++ pre1), (post2 ++ rest). split.
  - unfold text. rewrite Ebefore, Eafter, Epre, Epost.
    rewrite <- !app_assoc. cbn [app]. rewrite <- ?app_assoc. reflexivity.
  - rewrite Ebefore, Epre. rewrite !List.length_app. cbn [List.length]. lia.
Qed.

Lemma loop_keeps_text (before after : jsstring) (c : Z) (options : ChunkOptions) :
  let text := before ++ c :: after in
  0 < maxChunkSize options -> 0 <= overlap options ->
  JS.isWhiteSpace c = false ->
  forall fuel out,
    loop fuel text options {| start := 0; chunks := [] |} = Some out ->
    Exists (holds text (List.length before)) out.
Proof.
  intros text Hpos Hov Hc fuel out.
  assert (Hlen : JS.length before < JS.length text).
  { unfold text. rewrite length_app, length_cons. pose proof (length_nonneg after). lia. }
  apply (loop_invariant text options
           (fun st => Exists (holds text (List.length before)) (chunks st)
                      \/ 0 <= start st <= JS.length before)
           (Exists (holds text (List.length before)))).
  - intros st [H|H] Hexit; [exact H | lia].
  - intros st Hst Hlt Hstop.
    destruct (loopBody_chunks_cases text options st) as [[Hnil E]|[Hne E]].
    + rewrite E. destruct Hst as [H|H]; [exact H|]. exfalso.
      unfold loopBody in Hstop. cbn [snd] in Hstop. apply Z.leb_le in Hstop.
      destruct (window_holds before after c (start st) (windowEnd text options (start st)) Hc)
        as [Hne _]; [lia | fold text; split; [lia|] |].
      * apply windowEnd_bounds; [exact Hpos | lia].
      * fold text in Hne. contradiction.
    + rewrite E. apply Exists_app. destruct Hst as [H|H]; [left; exact H|]. right.
      constructor.
      unfold loopBody in Hstop. cbn [snd] in Hstop. apply Z.leb_le in Hstop.
      apply (window_holds before after c (start st) (windowEnd text options (start st)) Hc);
        [lia | fold text; split; [lia|]].
      apply windowEnd_bounds; [exact Hpos | lia].
  - intros st Hst Hlt Hgo.
    destruct Hst as [H|H].
    { left. destruct (loopBody_chunks_cases text options st) as [[_ ->]|[_ ->]];
        [exact H | apply Exists_app; left; exact H]. }
    pose proof (windowEnd_bounds text options Hpos (start st) ltac:(lia)) as Hw.
    destruct (Z.lt_ge_cases (JS.length before) (windowEnd text options (start st))) as [Hin|Hout].
    + left.
      destruct (window_holds before after c (start st) (windowEnd text options (start st)) Hc)
        as [Hne Hh]; [lia | fold text; lia |]. fold text in Hne, Hh.
      destruct (loopBody_chunks_cases text options st) as [[Hnil _]|[_ ->]];
        [contradiction|].
      apply Exists_app. right. constructor. exact Hh.
    + right. unfold loopBody. cbn [fst start].
      destruct (Z.leb_spec (windowEnd text options (start st) - overlap options) (start st)); lia.
  - right. cbn [start]. pose proof (length_nonneg before). lia.
Qed.

(** X3. With a positive chunk size and an overlap that is not negative,
    no text is lost: every code unit of the text that is not white space
    lies in one of the chunks, which is the text around it. *)
Theorem chunkText_loses_no_text (fuel : nat) (before after : jsstring) (c : Z)
        (options : ChunkOptions) (out : list jsstring) :
  0 < maxChunkSize options -> 0 <= overlap options ->
  JS.isWhiteSpace c = false ->
  chunkText fuel (before ++ c :: after) options = Some out ->
  Exists (holds (before ++ c :: after) (List.length before)) out.
Proof.
  intros Hpos Hov Hc. set (text := before ++ c :: after).
  assert (Hne : JS.trim text <> []).
  { unfold text. destruct (trim_keeps before after c Hc) as (p1 & p2 & q1 & q2 & _ & _ & ->).
    destruct p2; discriminate. }
  unfold chunkText. destruct text as [|c0 r] eqn:E; [now cbn in Hne|]. rewrite <- E in *.
  destruct (Z.eqb_spec (JS.length (JS.trim text)) 0) as [Hz|_];
    [apply length_zero_nil in Hz; contradiction|].
  destruct (JS.length text <=? maxChunkSize options).
  - intros [= <-]. constructor. exists [], []. split; [rewrite app_nil_r; reflexivity|].
    cbn [List.length]. unfold text. rewrite List.length_app. cbn [List.length]. lia.
  - unfold text. apply loop_keeps_text; assumption.
Qed.

(** *** How many chunks *)

(** X5. With a positive chunk size there are at most as many chunks as
    the text has code units. *)
Theorem chunkText_count (fuel : nat) (text : jsstring)
        (options : ChunkOptions) (out : list jsstring) :
  0 < maxChunkSize options ->
  chunkText fuel text options = Some out ->
  (List.length out <= List.length text)%nat.
Proof.
  intros Hpos. unfold chunkText. destruct text as [|c r] eqn:E; [intros [= <-]; cbn; lia|].
  rewrite <- E.
  destruct (JS.length (JS.trim text) =? 0); [intros [= <-]; cbn; lia|].
  destruct (JS.length text <=? maxChunkSize options);
    [intros [= <-]; rewrite E; cbn; lia|].
  apply (loop_invariant text options
           (fun st => 0 <= start st
                      /\ Z.of_nat (List.length (chunks st)) <= Z.min (start st) (JS.length text))
           (fun out => (List.length out <= List.length text)%nat)).
  - intros st [H0 H] _. unfold JS.length in H. lia.
  - intros st [H0 H] Hlt _.
    pose proof (loopBody_progress text options Hpos st ltac:(lia)) as Hp.
    destruct (loopBody_chunks_cases text options st) as [[_ ->]|[_ ->]];
      [|rewrite List.length_app; cbn [List.length]]; unfold JS.length in *; lia.
  - intros st [H0 H] Hlt _.
    pose proof (loopBody_progress text options Hpos st ltac:(lia)) as Hp.
    split; [lia|].
    destruct (loopBody_chunks_cases text options st) as [[_ ->]|[_ ->]];
      [|rewrite List.length_app; cbn [List.length]]; lia.
  - cbn [start chunks List.length]. pose proof (length_nonneg text). lia.
Qed.

(** X6. A chunk size of zero with an overlap that is not negative: on
    every text that is not blank the loop never ends. *)
Theorem chunkText_zero_size_diverges (text : jsstring) (overlap_ : Z) :
  JS.trim text <> [] -> 0 <= overlap_ ->
  forall fuel, chunkText fuel text {| maxChunkSize := 0; overlap := overlap_ |} = None.
Proof.
  intros Hne Hov fuel. unfold chunkText.
  destruct text as [|c r] eqn:E; [now cbn in Hne|]. rewrite <- E in *.
  destruct (Z.eqb_spec (JS.length (JS.trim text)) 0) as [Hz|_];
    [apply length_zero_nil in Hz; contradiction|].
  assert (Hlen : 0 < JS.length text).
  { rewrite E, length_cons. pose proof (length_nonneg r). lia. }
  cbn [maxChunkSize].
  destruct (Z.leb_spec (JS.length text) 0); [lia|].
  assert (Hs : JS.slice text 0 0 = []).
  { unfold JS.slice. cbv zeta. rewrite !clampIndex_inside by lia. reflexivity. }
  assert (Hw : windowEnd text {| maxChunkSize := 0; overlap := overlap_ |} 0 = 0).
  { unfold windowEnd. cbn [maxChunkSize].
    replace (Z.min (0 + 0) (JS.length text)) with 0 by lia.
    destruct (Z.ltb_spec 0 (JS.length text)); [|lia].
    replace (Z.max (0 - 200) 0) with 0 by lia.
    rewrite Hs. reflexivity. }
  assert (Hbody : loopBody text {| maxChunkSize := 0; overlap := overlap_ |}
                           {| start := 0; chunks := [] |}
                  = ({| start := 0; chunks := [] |}, false)).
  { unfold loopBody. cbn [start chunks overlap]. rewrite Hw, Hs.
    change (JS.trim []) with (@nil JS.codeunit).
    change (0 <? JS.length []) with false. cbv iota.
    destruct (Z.leb_spec (0 - overlap_) 0); [|lia].
    destruct (Z.leb_spec (JS.length text) 0); [lia|]. reflexivity. }
  induction fuel as [|fuel IH]; cbn [loop start].
  - destruct (Z.ltb_spec 0 (JS.length text)); [reflexivity | lia].
  - destruct (Z.ltb_spec 0 (JS.length text)); [|lia].
    rewrite Hbody. exact IH.
Qed.

End ChunkPieces.

(* ================================================================= *)
(** ** The chunker: where a window ends *)

Section Sentences.
Import TextChunker Spec.

Lemma sentenceEndAt_cons (c : Z) (s : jsstring) (p : Z) :
  0 <= p -> sentenceEndAt (c :: s) (p + 1) = sentenceEndAt s p.
Proof.
  intros Hp. unfold sentenceEndAt.
  replace (Z.to_nat (p + 1 + 1)) with (S (Z.to_nat (p + 1))) by lia.
  replace (Z.to_nat (p + 1)) with (S (Z.to_nat p)) by lia.
  cbn [nth_error].
  destruct (Z.leb_spec 0 p); [|lia]. destruct (Z.leb_spec 0 (p + 1)); [|lia].
  reflexivity.
Qed.

Lemma sentenceEndAt_negative (s : jsstring) (p : Z) : p < 0 -> sentenceEndAt s p = false.
Proof.
  intros Hp. unfold sentenceEndAt. destruct (Z.leb_spec 0 p); [lia|].
  destruct (nth_error s (Z.to_nat p)); [|reflexivity].
  destruct (nth_error s (Z.to_nat (p + 1))); reflexivity.
Qed.

(** [search] returns the first position of a sentence end, [-1] when
    there is none. *)
Lemma searchFrom_first (s : jsstring) :
  forall i,
    (searchFrom i s = -1 /\ forall p, sentenceEndAt s p = false)
    \/ (exists p, searchFrom i s = i + p /\ 0 <= p
                  /\ sentenceEndAt s p = true
                  /\ forall q, q < p -> sentenceEndAt s q = false).
Proof.
  induction s as [|c rest IH]; intros i.
  - left. split; [reflexivity|]. intros p. unfold sentenceEndAt.
    destruct (Z.to_nat p); reflexivity.
  - cbn [searchFrom]. destruct rest as [|d rest'].
    + left. split; [reflexivity|]. intros p. unfold sentenceEndAt.
      destruct (Z.leb_spec 0 p) as [Hp|Hp].
      * replace (Z.to_nat (p + 1)) with (S (Z.to_nat p)) by lia.
        destruct (Z.to_nat p) as [|[|n]]; reflexivity.
      * destruct (nth_error [c] (Z.to_nat p)); [|reflexivity].
        destruct (nth_error [c] (Z.to_nat (p + 1))); reflexivity.
    + destruct (isTerminator c && JS.isWhiteSpace d) eqn:E.
      * right. exists 0. split; [lia|]. split; [lia|]. split.
        -- unfold sentenceEndAt. cbn. exact E.
        -- intros q Hq. apply sentenceEndAt_negative. exact Hq.
      * assert (H0 : sentenceEndAt (c :: d :: rest') 0 = false).
        { unfold sentenceEndAt. cbn. exact E. }
        assert (Hshift : forall p, sentenceEndAt (c :: d :: rest') p
                                   = if p <=? 0 then false else sentenceEndAt (d :: rest') (p - 1)).
        { intros p. destruct (Z.leb_spec p 0) as [Hp|Hp].
          - destruct (Z.eq_dec p 0) as [->|]; [exact H0 | apply sentenceEndAt_negative; lia].
          - replace p with (p - 1 + 1) at 1 by lia. apply sentenceEndAt_cons. lia. }
        destruct (IH (i + 1)) as [[H1 H2]|(p & H1 & Hp & H2 & H3)].
        -- left. split; [exact H1|]. intros p. rewrite Hshift.
           destruct (p <=? 0); [reflexivity | apply H2].
        -- right. exists (p + 1). split; [lia|]. split; [lia|]. split.
           ++ rewrite Hshift. destruct (Z.leb_spec (p + 1) 0); [lia|].
              replace (p + 1 - 1) with p by lia. exact H2.
           ++ intros q Hq. rewrite Hshift. destruct (Z.leb_spec q 0); [reflexivity|].
              apply H3. lia.
Qed.

Lemma nth_error_slice (s : jsstring) (a b : Z) (n : nat) :
  0 <= a -> a <= b -> b <= JS.length s ->
  nth_error (JS.slice s a b) n
  = if Z.of_nat n <? b - a then nth_error s (Z.to_nat a + n) else None.
Proof.
  intros Ha Hab Hb. unfold JS.slice. cbv zeta.
  rewrite !clampIndex_inside by lia.
  destruct (Z.ltb_spec (Z.of_nat n) (b - a)).
  - rewrite nth_error_firstn.
    destruct (Nat.ltb_spec n (Z.to_nat (b - a))); [|lia].
    apply nth_error_skipn.
  - apply nth_error_None. rewrite List.length_firstn. lia.
Qed.

Lemma sentenceEndAt_slice (s : jsstring) (a b p : Z) :
  0 <= a -> a <= b -> b <= JS.length s ->
  sentenceEndAt (JS.slice s a b) p
  = (0 <=? p) && (p + 2 <=? b - a) && sentenceEndAt s (a + p).
Proof.
  intros Ha Hab Hb.
  destruct (Z.leb_spec 0 p) as [Hp|Hp]; [|apply sentenceEndAt_negative; lia].
  unfold sentenceEndAt. rewrite !nth_error_slice by assumption.
  replace (Z.to_nat a + Z.to_nat p)%nat with (Z.to_nat (a + p)) by lia.
  replace (Z.to_nat a + Z.to_nat (p + 1))%nat with (Z.to_nat (a + p + 1)) by lia.
  rewrite !Z2Nat.id by lia.
  destruct (Z.leb_spec 0 p); [|lia]. destruct (Z.leb_spec 0 (a + p)); [|lia].
  destruct (Z.ltb_spec p (b - a)); destruct (Z.ltb_spec (p + 1) (b - a));
    destruct (Z.leb_spec (p + 2) (b - a)); try lia; cbn [andb]; try reflexivity.
  - destruct (nth_error s (Z.to_nat (a + p))); reflexivity.
Qed.

(** X4. Where a window ends.  The last window ends with the text.  For
    a window that would end inside the text, one of two cases holds.
    Either no sentence end (one of [.!?] and the white space that follows
    it) lies wholly in its last 200 code units, and the window is of full
    width; or the window is cut just behind the first sentence end that
    does, which leaves it at most of full width (of full width when that
    sentence end is the very end of the window). *)
Theorem windowEnd_first_sentence_end (text : jsstring) (options : ChunkOptions)
        (start : Z) :
  0 < maxChunkSize options -> 0 <= start < JS.length text ->
  let full := Z.min (start + maxChunkSize options) (JS.length text) in
  let from := Z.max (full - 200) start in
  let end_ := windowEnd text options start in
  (full = JS.length text -> end_ = JS.length text)
  /\ (full < JS.length text ->
      (end_ = full
       /\ forall p, from <= p -> p + 2 <= full -> sentenceEndAt text p = false)
      \/ (from <= end_ - 2 /\ end_ <= full
          /\ sentenceEndAt text (end_ - 2) = true
          /\ forall p, from <= p < end_ - 2 -> sentenceEndAt text p = false)).
Proof.
  intros Hpos Hs full from end_. unfold end_, windowEnd. fold full. fold from.
  assert (Hfull : start < full <= JS.length text) by (unfold full; lia).
  assert (Hfrom : start <= from <= full) by (unfold from; lia).
  split.
  - intros E. destruct (Z.ltb_spec full (JS.length text)); [lia | exact E].
  - intros Hlt. destruct (Z.ltb_spec full (JS.length text)); [|lia].
    unfold searchSentenceEnd.
    assert (Hpos' : forall p, sentenceEndAt (JS.slice text from full) p
                              = (0 <=? p) && (p + 2 <=? full - from)
                                && sentenceEndAt text (from + p))
      by (intros p; apply sentenceEndAt_slice; lia).
    destruct (searchFrom_first (JS.slice text from full) 0)
      as [[-> Hnone]|(p & -> & Hp & Hat & Hfirst)].
    + left. cbn [Z.eqb negb]. split; [reflexivity|]. intros p H1 H2.
      specialize (Hnone (p - from)). rewrite Hpos' in Hnone.
      replace (from + (p - from)) with p in Hnone by lia.
      destruct (Z.leb_spec 0 (p - from)); [|lia].
      destruct (Z.leb_spec (p - from + 2) (full - from)); [|lia]. exact Hnone.
    + right. destruct (Z.eqb_spec (0 + p) (-1)); [lia|]. cbn [negb].
      rewrite Hpos' in Hat.
      apply andb_prop in Hat. destruct Hat as [Hat Hat3].
      apply andb_prop in Hat. destruct Hat as [_ Hat2]. apply Z.leb_le in Hat2.
      replace (from + (0 + p) + 2 - 2) with (from + p) by lia.
      split; [lia|]. split; [lia|]. split; [exact Hat3|].
      intros q Hq. specialize (Hfirst (q - from) ltac:(lia)). rewrite Hpos' in Hfirst.
      replace (from + (q - from)) with q in Hfirst by lia.
      destruct (Z.leb_spec 0 (q - from)); [|lia].
      destruct (Z.leb_spec (q - from + 2) (full - from)); [|lia]. exact Hfirst.
Qed.

End Sentences.

(* ================================================================= *)
(** ** Indexing: identifiers, records and rows *)

Section Ids.

Lemma js_injective (s t : string) : js s = js t -> s = t.
Proof.
  revert t. induction s as [|a s IH]; intros [|b t]; cbn; try discriminate; [reflexivity|].
  intros [= H1 H2]. apply N2Z.inj in H1.
  f_equal; [|apply IH, H2].
  rewrite <- (ascii_N_embedding a), <- (ascii_N_embedding b). congruence.
Qed.

Lemma decimal_injective (n m : N) : Index.decimal n = Index.decimal m -> n = m.
Proof.
  unfold Index.decimal. intros H. apply js_injective in H.
  assert (H' : NilZero.uint_of_string (NilZero.string_of_uint (N.to_uint n))
               = NilZero.uint_of_string (NilZero.string_of_uint (N.to_uint m)))
    by congruence.
  assert (Hnil : forall k, N.to_uint k <> Decimal.Nil).
  { intros [|p]; [discriminate | apply DecimalPos.Unsigned.to_uint_nonnil]. }
  rewrite !NilZero.usu in H' by apply Hnil. injection H' as H'.
  apply DecimalN.Unsigned.to_uint_inj, H'.
Qed.

End Ids.

Section IndexingMore.

Import AppleNotesDB Index Spec.

Variable chunkSize chunkOverlap : Z.
Variable toLocaleString : Z -> jsstring.

Local Abbreviation pushChunk := (pushChunk toLocaleString).
Local Abbreviation indexNote := (indexNote chunkSize chunkOverlap toLocaleString).
Local Abbreviation indexLoop := (indexLoop chunkSize chunkOverlap toLocaleString).
Local Abbreviation indexNotes := (indexNotes chunkSize chunkOverlap toLocaleString).
Local Abbreviation configured := (Spec.configured chunkSize chunkOverlap).
Local Abbreviation fieldsFor := (Spec.fieldsFor toLocaleString).

Lemma fold_pushChunk_records note texts :
  forall st,
    let st' := fold_left (fun acc t => pushChunk note t acc) texts st in
    List.map fieldsOf (records st')
    = List.map fieldsOf (records st)
      ++ List.map (fun text => (AppleNotesDB.title note, text,
                                toLocaleString (creationDate note),
                                toLocaleString (modificationDate note))) texts.
Proof.
  induction texts as [|t r IH]; intros st; cbn [fold_left List.map].
  - rewrite app_nil_r. reflexivity.
  - cbv zeta in IH. rewrite IH. unfold Index.pushChunk. cbn [records].
    rewrite map_app, <- app_assoc. reflexivity.
Qed.

(** The records a note adds. *)
Lemma indexNote_records fuel note st st' :
  indexNote fuel note st = Some st' ->
  exists chunks,
    TextChunker.chunkText fuel (AppleNotesDB.content note) configured = Some chunks
    /\ List.map fieldsOf (records st')
       = List.map fieldsOf (records st) ++ fieldsFor note chunks.
Proof.
  unfold Index.indexNote. fold configured.
  destruct (TextChunker.chunkText fuel (AppleNotesDB.content note) configured)
    as [[|c cs]|]; [| |discriminate]; intros [= <-].
  - exists []. split; [reflexivity|].
    apply (fold_pushChunk_records note [AppleNotesDB.title note] st).
  - exists (c :: cs). split; [reflexivity|].
    apply (fold_pushChunk_records note (c :: cs) st).
Qed.

Lemma indexLoop_records fuel notes :
  forall st st',
    indexLoop fuel notes st = Some st' ->
    exists chunkLists,
      Forall2 (fun note chunks =>
                 TextChunker.chunkText fuel (AppleNotesDB.content note) configured
                 = Some chunks) notes chunkLists
      /\ List.map fieldsOf (records st')
         = List.map fieldsOf (records st)
           ++ List.concat (List.map (fun nc => fieldsFor (fst nc) (snd nc))
                               (combine notes chunkLists)).
Proof.
  induction notes as [|n r IH]; intros st st'; cbn [Index.indexLoop].
  - intros [= <-]. exists []. split; [constructor|]. cbn. rewrite app_nil_r. reflexivity.
  - destruct (indexNote fuel n st) as [st1|] eqn:E; [|discriminate].
    intros Hrest. destruct (indexNote_records _ _ _ _ E) as (chunks & Hc & E1).
    destruct (IH _ _ Hrest) as (lists & Hl & E2).
    exists (chunks :: lists). split; [constructor; assumption|].
    rewrite E2, E1. cbn [combine List.map List.concat fst snd]. rewrite <- app_assoc. reflexivity.
Qed.

Lemma pushChunk_numbered note text st :
  counted st -> numberedFrom 0 (records st) ->
  numberedFrom 0 (records (pushChunk note text st)).
Proof.
  intros Hc Hn i r. unfold Index.pushChunk. cbn [records].
  destruct (Nat.lt_ge_cases i (List.length (records st))) as [Hi|Hi].
  - rewrite nth_error_app1 by exact Hi. apply Hn.
  - rewrite nth_error_app2 by exact Hi.
    destruct (i - List.length (records st))%nat as [|j] eqn:Ej; cbn [nth_error].
    + intros [= <-]. cbn [chunk_id]. rewrite Hc. f_equal. lia.
    + destruct j; discriminate.
Qed.

Lemma fold_pushChunk_numbered note texts :
  forall st, counted st -> numberedFrom 0 (records st) ->
             numberedFrom 0 (records (fold_left (fun acc t => pushChunk note t acc) texts st)).
Proof.
  induction texts as [|t r IH]; intros st Hc Hn; cbn [fold_left]; [exact Hn|].
  apply IH; [apply pushChunk_counted, Hc | apply pushChunk_numbered; assumption].
Qed.

Lemma indexNote_numbered fuel note st st' :
  counted st -> numberedFrom 0 (records st) ->
  indexNote fuel note st = Some st' -> numberedFrom 0 (records st').
Proof.
  unfold Index.indexNote.
  destruct (TextChunker.chunkText fuel (AppleNotesDB.content note) _) as [[|c cs]|];
    [| |discriminate]; intros Hc Hn [= <-].
  - apply pushChunk_numbered; assumption.
  - apply (fold_pushChunk_numbered note (c :: cs)); assumption.
Qed.

Lemma indexLoop_numbered fuel notes :
  forall st st', counted st -> numberedFrom 0 (records st) ->
                 indexLoop fuel notes st = Some st' -> numberedFrom 0 (records st').
Proof.
  induction notes as [|n r IH]; intros st st' Hc Hn; cbn [Index.indexLoop].
  - intros [= <-]. exact Hn.
  - destruct (indexNote fuel n st) as [st1|] eqn:E; [|discriminate].
    apply IH; [eapply indexNote_counted | eapply indexNote_numbered]; eassumption.
Qed.

Lemma numbered_NoDup (records : list ChunkRecord) :
  numberedFrom 0 records -> NoDup (List.map chunk_id records).
Proof.
  intros Hn. apply (proj2 (NoDup_nth_error _)). intros i j Hi E.
  rewrite List.length_map in Hi.
  rewrite !nth_error_map in E.
  destruct (nth_error records i) as [ri|] eqn:Ei;
    [|apply nth_error_None in Ei; lia].
  destruct (nth_error records j) as [rj|] eqn:Ej; [|discriminate].
  cbn [option_map] in E. injection E as E.
  rewrite (Hn _ _ Ei), (Hn _ _ Ej) in E. apply decimal_injective in E. lia.
Qed.

(** X7. The identifiers of the records are their positions, counted
    from zero, so no two records share one. *)
Theorem indexNotes_ids_are_positions (fuel : nat) (notes : list AppleNote)
        (out : list ChunkRecord) :
  indexNotes fuel notes = Some out ->
  (forall i r, nth_error out i = Some r -> chunk_id r = decimal (N.of_nat i))
  /\ NoDup (List.map chunk_id out).
Proof.
  unfold Index.indexNotes.
  destruct (indexLoop fuel (filter hasTitle notes) _) as [st|] eqn:E; [|discriminate].
  intros [= <-].
  assert (Hn : numberedFrom 0 (records st)).
  { eapply indexLoop_numbered; [| |exact E]; [reflexivity|].
    intros i r. destruct i; discriminate. }
  split; [exact Hn | apply numbered_NoDup, Hn].
Qed.

(** X8. The records follow the notes that have a title, in their
    order: a note gives one record for each of its chunks, in their order,
    or a single record with its title as content when it has no chunk;
    every record carries the title and the dates of its note. *)
Theorem indexNotes_records_follow_notes (fuel : nat) (notes : list AppleNote)
        (out : list ChunkRecord) :
  indexNotes fuel notes = Some out ->
  exists chunkLists,
    Forall2 (fun note chunks =>
               TextChunker.chunkText fuel (AppleNotesDB.content note) configured
               = Some chunks) (filter hasTitle notes) chunkLists
    /\ List.map fieldsOf out
       = List.concat (List.map (fun nc => fieldsFor (fst nc) (snd nc))
                          (combine (filter hasTitle notes) chunkLists)).
Proof.
  unfold Index.indexNotes.
  destruct (indexLoop fuel (filter hasTitle notes) _) as [st|] eqn:E; [|discriminate].
  intros [= <-]. destruct (indexLoop_records _ _ _ _ E) as (lists & Hl & Hr).
  exists lists. split; [exact Hl | exact Hr].
Qed.

(** *** From the rows to the records *)

Lemma indexLoop_returns fuel notes :
  0 < chunkSize ->
  Forall (fun note => (List.length (AppleNotesDB.content note) <= fuel)%nat) notes ->
  forall st, exists st', indexLoop fuel notes st = Some st'.
Proof.
  intros Hpos Hall. induction Hall as [|n r Hn _ IH]; intros st; cbn [Index.indexLoop].
  - eexists; reflexivity.
  - unfold Index.indexNote.
    destruct (chunkText_returns (AppleNotesDB.content n) configured fuel Hpos Hn)
      as (chunks & Hc).
    fold configured. rewrite Hc. destruct chunks as [|c cs]; apply IH.
Qed.

Lemma filter_hasTitle_titled (notes : list AppleNote) :
  Forall (fun n => AppleNotesDB.title n <> []) notes -> filter hasTitle notes = notes.
Proof.
  intros H. apply filter_id_Forall. eapply Forall_impl; [|exact H].
  intros n Hn. unfold hasTitle.
  destruct (Z.eqb_spec (JS.length (AppleNotesDB.title n)) 0) as [E|]; [|reflexivity].
  apply length_zero_nil in E. contradiction.
Qed.

Lemma getAllNotesWithContent_rows
      (ungzip : list byte -> completion (list byte)) (rows : list Row) :
  exists notes,
    getAllNotesWithContent ungzip rows = Normal notes
    /\ Forall2 (fun row note =>
                  AppleNotesDB.title note = orDefault (row_title row) (js "Untitled")
                  /\ parseNoteContent ungzip (row_content row)
                     = Normal (AppleNotesDB.content note))
               rows notes.
Proof.
  induction rows as [|row rest (notes & IH & Hall)].
  - exists []. split; [reflexivity | constructor].
  - cbn [getAllNotesWithContent]. unfold noteOfRow.
    destruct (parseNoteContent_normal ungzip (row_content row)) as (text & E).
    rewrite E. cbn [bind]. rewrite IH. cbn [bind].
    eexists. split; [reflexivity|].
    constructor; [|exact Hall]. cbn [AppleNotesDB.title AppleNotesDB.content].
    split; [reflexivity | exact E].
Qed.

(** The fields of the records of a list of notes: at least one for each
    note, with the title of the note; and each of them the title of a
    note and either that title again or one of the chunks of the note. *)
Lemma fields_of_notes (fuel : nat) (notes : list AppleNote)
      (chunkLists : list (list jsstring)) :
  Forall2 (fun note chunks =>
             TextChunker.chunkText fuel (AppleNotesDB.content note) configured
             = Some chunks) notes chunkLists ->
  let fields := List.concat (List.map (fun nc => fieldsFor (fst nc) (snd nc))
                                      (combine notes chunkLists)) in
  (List.length notes <= List.length fields)%nat
  /\ Forall (fun note => exists text dates,
                 In (AppleNotesDB.title note, text, fst dates, snd dates) fields) notes
  /\ Forall (fun f => exists note,
                 In note notes
                 /\ fst (fst (fst f)) = AppleNotesDB.title note
                 /\ (snd (fst (fst f)) = AppleNotesDB.title note
                     \/ snd (fst (fst f)) <> [])) fields.
Proof.
  intros H. cbv zeta. induction H as [|note chunks notes lists Hc _ (IH1 & IH2 & IH3)].
  - cbn. split; [lia|]. split; constructor.
  - cbn [combine List.map List.concat fst snd List.length].
    assert (Hne : exists text rest,
               Spec.textsOf note chunks = text :: rest).
    { destruct chunks as [|c cs]; eexists; eexists; reflexivity. }
    destruct Hne as (text & rest & Etexts).
    split; [|split].
    + assert (Hone : (1 <= List.length (fieldsFor note chunks))%nat).
      { unfold Spec.fieldsFor. rewrite List.length_map, Etexts. cbn [List.length]. lia. }
      rewrite List.length_app. lia.
    + constructor.
      * exists text, (toLocaleString (creationDate note),
                      toLocaleString (modificationDate note)).
        apply in_or_app. left. unfold Spec.fieldsFor. rewrite Etexts. left. reflexivity.
      * eapply Forall_impl; [|exact IH2]. intros n (t & d & Hin).
        exists t, d. apply in_or_app. right. exact Hin.
    + apply Forall_app. split.
      * apply Forall_forall. intros f Hf. unfold Spec.fieldsFor in Hf.
        apply in_map_iff in Hf. destruct Hf as (t & <- & Ht).
        exists note. split; [left; reflexivity|]. split; [reflexivity|].
        cbn [fst snd]. destruct chunks as [|c cs].
        -- destruct Ht as [<-|[]]. left. reflexivity.
        -- right. pose proof (chunkText_nonempty _ _ _ _ Hc) as Hall.
           rewrite Forall_forall in Hall. apply Hall, Ht.
      * eapply Forall_impl; [|exact IH3]. intros f (n & Hn & Hf).
        exists n. split; [right; exact Hn | exact Hf].
Qed.

(** X9. From the rows to the records.  Once the query has given its
    rows (the query itself is no part of the statement), mapping them to
    notes does not throw and gives one note for each row, in order, with
    its title, or ["Untitled"], and its decoded content.  With a positive
    chunk size the loop of the indexing over these notes ends (as many
    passes of the chunker as the longest content has code units are
    enough) and gives at least one record for each row; every note has a
    record with its title, and no record has an empty title or an empty
    content. *)
Theorem indexNotes_every_row
        (ungzip : list byte -> completion (list byte)) (rows : list Row) :
  exists notes,
    getAllNotesWithContent ungzip rows = Normal notes
    /\ Forall2 (fun row note =>
                  AppleNotesDB.title note = orDefault (row_title row) (js "Untitled")
                  /\ parseNoteContent ungzip (row_content row)
                     = Normal (AppleNotesDB.content note))
               rows notes
    /\ forall fuel,
         0 < chunkSize ->
         Forall (fun note => (List.length (AppleNotesDB.content note) <= fuel)%nat) notes ->
         exists out,
           indexNotes fuel notes = Some out
           /\ (List.length rows <= List.length out)%nat
           /\ Forall (fun note =>
                        Exists (fun r => chunk_title r = AppleNotesDB.title note) out) notes
           /\ Forall (fun r => chunk_title r <> [] /\ chunk_content r <> []) out.
Proof.
  destruct (getAllNotesWithContent_rows ungzip rows) as (notes & Hread & Hrows).
  exists notes. split; [exact Hread|]. split; [exact Hrows|].
  intros fuel Hpos Hfuel.
  assert (Htitled : Forall (fun n => AppleNotesDB.title n <> []) notes).
  { clear -Hrows. induction Hrows as [|row note rows notes [Ht _] _ IH]; constructor.
    - rewrite Ht. apply orDefault_nonempty. discriminate.
    - exact IH. }
  unfold Index.indexNotes. rewrite (filter_hasTitle_titled notes Htitled).
  destruct (indexLoop_returns fuel notes Hpos Hfuel {| chunkIndex := 0%N; records := [] |})
    as (st & Hst).
  rewrite Hst. cbn [option_map]. exists (records st). split; [reflexivity|].
  destruct (indexLoop_records _ _ _ _ Hst) as (lists & Hl & Hr). cbn [records List.map app] in Hr.
  destruct (fields_of_notes fuel notes lists Hl) as (H1 & H2 & H3). cbv zeta in H1, H2, H3.
  rewrite <- Hr in H1, H2, H3. rewrite List.length_map in H1.
  split; [|split].
  - rewrite (Forall2_length Hrows). exact H1.
  - eapply Forall_impl; [|exact H2]. intros note (text & dates & Hin).
    apply in_map_iff in Hin. destruct Hin as (r & Er & Hin).
    apply Exists_exists. exists r. split; [exact Hin|].
    unfold Spec.fieldsOf in Er. congruence.
  - apply Forall_forall. intros r Hin.
    rewrite Forall_forall in H3, Htitled.
    destruct (H3 (Spec.fieldsOf r) (in_map _ _ _ Hin)) as (note & Hn & Ht & Hc).
    cbn [Spec.fieldsOf fst snd] in Ht, Hc. split.
    + rewrite Ht. apply Htitled, Hn.
    + destruct Hc as [Hc|Hc]; [rewrite Hc; apply Htitled, Hn | exact Hc].
Qed.

End IndexingMore.

(* ================================================================= *)
(** ** Rank fusion: results that their keys give back *)

Section CleanKeys.

Import Index Spec.

Lemma beforeSeparator_none (s : jsstring) :
  hasSeparator s = false -> beforeSeparator s = s.
Proof.
  induction s as [|c r IH]; [reflexivity|].
  cbn [hasSeparator beforeSeparator]. intros H.
  apply orb_false_elim in H. destruct H as [H1 H2].
  rewrite H1, IH by exact H2. reflexivity.
Qed.

Lemma hitOfKey_separable (r : SearchResult) :
  separable r -> hitOfKey (keyOf r) = hitOf r.
Proof.
  intros [Ht Hc]. rewrite hitOfKey_truncates by exact Ht.
  rewrite beforeSeparator_none by exact Hc. reflexivity.
Qed.

Lemma hitOf_injective (r1 r2 : SearchResult) : hitOf r1 = hitOf r2 -> r1 = r2.
Proof. destruct r1, r2. unfold hitOf. cbn. intros [= -> ->]. reflexivity. Qed.

Lemma combineResults_keys (vector fts : list SearchResult) (limit : nat) :
  combineResults vector fts limit
  = List.map hitOfKey (keys (ranked vector fts limit)).
Proof. unfold combineResults, keys. rewrite map_map. reflexivity. Qed.

(** X10. When no title has a colon and no content has ["::"], every hit
    is the title and the content of one of the results, no hit comes
    twice, and results with the same key are the same result. *)
Theorem combineResults_separable (vector fts : list SearchResult) (limit : nat) :
  Forall separable (vector ++ fts) ->
  (forall hit, In hit (combineResults vector fts limit) ->
               exists r, In r (vector ++ fts) /\ hit = hitOf r)
  /\ NoDup (combineResults vector fts limit)
  /\ (forall r1 r2, In r1 (vector ++ fts) -> In r2 (vector ++ fts) ->
                    keyOf r1 = keyOf r2 -> r1 = r2).
Proof.
  intros Hall. rewrite Forall_forall in Hall.
  assert (Hkey : forall key, In key (keys (ranked vector fts limit)) ->
                   exists r, In r (vector ++ fts) /\ key = keyOf r /\ hitOfKey key = hitOf r).
  { intros key Hin. destruct (ranked_keys_of_results vector fts limit key Hin) as (r & Hr & ->).
    exists r. split; [exact Hr|]. split; [reflexivity|]. apply hitOfKey_separable, Hall, Hr. }
  split; [|split].
  - intros hit Hin. rewrite combineResults_keys in Hin.
    apply in_map_iff in Hin. destruct Hin as (key & <- & Hin).
    destruct (Hkey key Hin) as (r & Hr & _ & E). exists r. split; assumption.
  - rewrite combineResults_keys.
    apply NoDup_map_NoDup_ForallPairs; [|apply ranked_keys_NoDup].
    intros k1 k2 H1 H2 E.
    destruct (Hkey k1 H1) as (r1 & _ & -> & E1).
    destruct (Hkey k2 H2) as (r2 & _ & -> & E2).
    rewrite E1, E2 in E. apply hitOf_injective in E. congruence.
  - intros r1 r2 H1 H2 E. apply hitOf_injective.
    rewrite <- !hitOfKey_separable by (apply Hall; assumption). congruence.
Qed.

End CleanKeys.

(* ================================================================= *)
(** ** Rank fusion: what the cut keeps *)

Section Selection.

Import Index Spec.

Lemma StronglySorted_app_inv {A : Type} (R : A -> A -> Prop) (l1 l2 : list A) :
  StronglySorted R (l1 ++ l2) ->
  forall x y, In x l1 -> In y l2 -> R x y.
Proof.
  induction l1 as [|a l1 IH]; intros Hs x y Hx Hy; [destruct Hx|].
  cbn [app] in Hs. inversion Hs as [|? ? Hrest Ha]; subst.
  destruct Hx as [<-|Hx].
  - rewrite Forall_forall in Ha. apply Ha, in_or_app. right. exact Hy.
  - apply IH; assumption.
Qed.

Lemma fold_addKey_incl (l : list jsstring) :
  forall seen key, In key seen \/ In key l -> In key (fold_left addKey l seen).
Proof.
  induction l as [|x r IH]; intros seen key [H|H]; cbn [fold_left];
    [exact H | destruct H | |].
  - apply IH. left. unfold addKey. destruct (existsb _ seen); [exact H|].
    apply in_or_app. left. exact H.
  - destruct H as [<-|H]; [|apply IH; right; exact H].
    apply IH. left. unfold addKey.
    destruct (existsb (fun k' => strEq k' x) seen) eqn:E.
    + apply existsb_strEq_In, E.
    + apply in_or_app. right. left. reflexivity.
Qed.

Lemma keys_length (scores : ScoreMap) : List.length (keys scores) = List.length scores.
Proof. apply List.length_map. Qed.

(** X11. What the cut keeps.  The entries kept are the first [limit] of
    all entries in descending order of score, all of them when there are
    no more than [limit]: as many as there are different keys, up to
    [limit]; an entry that is cut off has no higher score than any entry
    that is kept; and when the different keys are no more than [limit],
    the key of every result is kept. *)
Theorem ranked_keeps_the_best (vector fts : list SearchResult) (limit : nat) :
  let distinct := firstOccurrences (List.map keyOf (vector ++ fts)) in
  List.length (ranked vector fts limit) = Nat.min limit (List.length distinct)
  /\ StronglySorted notBelow (ranked vector fts limit)
  /\ (forall kept cut,
         In kept (ranked vector fts limit) ->
         In cut (fuse vector fts) -> ~ In cut (ranked vector fts limit) ->
         notBelow kept cut)
  /\ ((List.length distinct <= limit)%nat ->
      forall r, In r (vector ++ fts) -> In (keyOf r) (keys (ranked vector fts limit))).
Proof.
  intros distinct.
  assert (Hlen : List.length (sort (fuse vector fts)) = List.length distinct).
  { rewrite (Permutation_length (sort_perm _)), <- keys_length.
    unfold distinct. rewrite fuse_first_encountered. reflexivity. }
  assert (Hsorted : StronglySorted notBelow (sort (fuse vector fts)))
    by apply sort_sorted, fuse_scores.
  split; [|split; [|split]].
  - unfold ranked. rewrite List.length_firstn, Hlen. reflexivity.
  - apply StronglySorted_firstn, Hsorted.
  - intros kept cut Hk Hc Hn. unfold ranked in *.
    rewrite <- (firstn_skipn limit (sort (fuse vector fts))) in Hsorted.
    apply (StronglySorted_app_inv _ _ _ Hsorted); [exact Hk|].
    assert (Hin : In cut (sort (fuse vector fts)))
      by (eapply Permutation_in; [apply Permutation_sym, sort_perm | exact Hc]).
    rewrite <- (firstn_skipn limit (sort (fuse vector fts))) in Hin.
    apply in_app_or in Hin. destruct Hin; [contradiction | assumption].
  - intros Hfew r Hr. unfold ranked. rewrite firstn_all2 by lia.
    unfold keys. eapply Permutation_in; [apply Permutation_sym, Permutation_map, sort_perm|].
    fold (keys (fuse vector fts)). rewrite fuse_first_encountered.
    apply fold_addKey_incl. right. apply in_map. exact Hr.
Qed.

End Selection.

(* ================================================================= *)
(** ** Rank fusion: ties *)

Section Ties.

Import Index Spec.

Lemma precedes_filter {A : Type} (f : A -> bool) (x y : A) (l : list A) :
  precedes x y l -> f x = true -> f y = true -> precedes x y (filter f l).
Proof.
  intros (l1 & l2 & l3 & ->) Hx Hy.
  exists (filter f l1), (filter f l2), (filter f l3).
  rewrite filter_app. cbn [filter]. rewrite Hx, filter_app. cbn [filter]. rewrite Hy.
  reflexivity.
Qed.

Lemma precedes_cons {A : Type} (a x y : A) (l : list A) :
  precedes x y l -> precedes x y (a :: l).
Proof. intros (l1 & l2 & l3 & ->). exists (a :: l1), l2, l3. reflexivity. Qed.

Lemma precedes_filter_inv {A : Type} (f : A -> bool) (x y : A) (l : list A) :
  precedes x y (filter f l) -> precedes x y l.
Proof.
  induction l as [|a l IH]; cbn [filter].
  - intros (l1 & l2 & l3 & E). destruct l1; discriminate.
  - destruct (f a); [|intros H; apply precedes_cons, IH, H].
    intros (l1 & l2 & l3 & E). destruct l1 as [|b l1]; cbn [app] in E.
    + injection E as -> E.
      assert (Hy : In y l).
      { assert (H : In y (filter f l)) by (rewrite E; apply in_or_app; right; left; reflexivity).
        apply filter_In in H. apply H. }
      apply in_split in Hy. destruct Hy as (p & q & ->).
      exists [], p, q. reflexivity.
    + injection E as -> E. apply precedes_cons, IH. exists l1, l2, l3. exact E.
Qed.

Lemma precedes_firstn {A : Type} (n : nat) (x y : A) (l : list A) :
  precedes x y (firstn n l) -> precedes x y l.
Proof.
  intros (l1 & l2 & l3 & E). exists l1, l2, (l3 ++ skipn n l).
  rewrite <- (firstn_skipn n l) at 1. rewrite E, <- !app_assoc. cbn [app].
  rewrite <- app_assoc. reflexivity.
Qed.

Lemma precedes_map {A B : Type} (f : A -> B) (x y : A) (l : list A) :
  precedes x y l -> precedes (f x) (f y) (List.map f l).
Proof.
  intros (l1 & l2 & l3 & ->). exists (List.map f l1), (List.map f l2), (List.map f l3).
  rewrite map_app. cbn [List.map]. rewrite map_app. reflexivity.
Qed.

Lemma StronglySorted_precedes {A : Type} (R : A -> A -> Prop) (x y : A) (l : list A) :
  StronglySorted R l -> precedes x y l -> R x y.
Proof.
  intros Hs (l1 & l2 & l3 & ->).
  induction l1 as [|a l1 IH]; cbn [app] in Hs; inversion Hs as [|? ? Hrest Ha]; subst.
  - rewrite Forall_forall in Ha. apply Ha, in_or_app. right. left. reflexivity.
  - apply IH, Hrest.
Qed.

Lemma same_score_hasUnits (x y : jsstring * JS.number) :
  notBelow x y -> notBelow y x ->
  hasUnits (units (snd x)) x = true /\ hasUnits (units (snd x)) y = true.
Proof.
  unfold notBelow, scoreLt, hasUnits.
  destruct (units (snd x)) as [u|], (units (snd y)) as [v|]; cbn [below];
    intros H1 H2; try discriminate.
  - apply Z.ltb_ge in H1, H2. split; apply Z.eqb_eq; lia.
  - split; reflexivity.
Qed.

(** X12. The order of the entries kept.  Of two entries, the one in
    front has at least the score of the other; and when their scores are
    equal, it is the one whose key the merge met first, in the vector
    results and then the lexical results. *)
Theorem ranked_ties_in_order_met (vector fts : list SearchResult) (limit : nat)
        (x y : jsstring * JS.number) :
  precedes x y (ranked vector fts limit) ->
  notBelow x y
  /\ (notBelow y x ->
      precedes (fst x) (fst y) (firstOccurrences (List.map keyOf (vector ++ fts)))).
Proof.
  intros Hp.
  assert (Hxy : notBelow x y).
  { eapply StronglySorted_precedes; [|exact Hp].
    apply StronglySorted_firstn, sort_sorted, fuse_scores. }
  split; [exact Hxy|]. intros Hyx.
  destruct (same_score_hasUnits x y Hxy Hyx) as [Hx Hy].
  unfold ranked in Hp. apply precedes_firstn in Hp.
  apply (precedes_filter (hasUnits (units (snd x)))) in Hp; [|assumption..].
  rewrite sort_stable in Hp by apply fuse_scores.
  apply precedes_filter_inv in Hp.
  rewrite <- fuse_first_encountered. apply (precedes_map fst), Hp.
Qed.

End Ties.

(* ================================================================= *)
(** ** createNote: the title and the content in the script *)

Section Escaping.

Import Tools Spec.

(** What the three replacements do to one code unit of the content. *)
Lemma escapedContent_each (content : jsstring) :
  escapedContent content
  = flat_map (fun c => if isQuoteOrBackslash c then [92; c]
                       else if c =? 10 then [92; 110]
                       else if c =? 13 then []
                       else [c]) content.
Proof.
  unfold escapedContent, escapeQuotes. induction content as [|c r IH]; [reflexivity|].
  cbn [flat_map]. unfold escapeNewlines, removeReturns in *.
  rewrite flat_map_app, filter_app, IH. f_equal.
  unfold isQuoteOrBackslash.
  destruct (Z.eqb_spec c 92) as [->|]; [reflexivity|].
  destruct (Z.eqb_spec c 39) as [->|]; [reflexivity|].
  destruct (Z.eqb_spec c 34) as [->|]; [reflexivity|].
  cbn [orb flat_map app].
  destruct (Z.eqb_spec c 10) as [->|]; [reflexivity|].
  cbn [filter app]. destruct (Z.eqb_spec c 13); reflexivity.
Qed.

Lemma readLiteral_escaped (e : JS.codeunit) (acc s : jsstring) :
  isQuoteOrBackslash e = true ->
  readLiteral acc (92 :: e :: s) = readLiteral (e :: acc) s.
Proof.
  unfold isQuoteOrBackslash. intros H.
  assert (He : e = 92 \/ e = 39 \/ e = 34).
  { destruct (Z.eqb_spec e 92); [left; assumption|].
    destruct (Z.eqb_spec e 39); [right; left; assumption|].
    destruct (Z.eqb_spec e 34); [right; right; assumption | discriminate]. }
  destruct He as [->|[->| ->]]; reflexivity.
Qed.

Lemma readLiteral_plain (c : JS.codeunit) (acc s : jsstring) :
  isQuoteOrBackslash c = false -> isLineBreak c = false ->
  readLiteral acc (c :: s) = readLiteral (c :: acc) s.
Proof.
  unfold isQuoteOrBackslash, isLineBreak. intros H1 H2. cbn [readLiteral].
  apply orb_false_elim in H1. destruct H1 as [H1 H34].
  apply orb_false_elim in H1. destruct H1 as [H92 _].
  rewrite H34, H2, H92. reflexivity.
Qed.

Lemma readLiteral_content (content : jsstring) :
  forall acc rest,
    readLiteral acc (escapedContent content ++ QUOTE :: rest)
    = Some (rev acc ++ removeReturns content, rest).
Proof.
  rewrite escapedContent_each.
  induction content as [|c r IH]; intros acc rest.
  - cbn. rewrite app_nil_r. reflexivity.
  - cbn [flat_map]. unfold removeReturns in *. cbn [filter].
    destruct (isQuoteOrBackslash c) eqn:Hq.
    + cbn [app]. rewrite readLiteral_escaped by exact Hq. rewrite IH.
      assert (Hc : (c =? 13) = false).
      { unfold isQuoteOrBackslash in Hq. destruct (Z.eqb_spec c 13) as [->|]; [discriminate | reflexivity]. }
      rewrite Hc. cbn [negb rev]. rewrite <- app_assoc. reflexivity.
    + destruct (Z.eqb_spec c 10) as [->|H10].
      * cbn [app]. change (readLiteral acc (92 :: 110 :: flat_map _ r ++ QUOTE :: rest))
          with (readLiteral (10 :: acc) (flat_map
                  (fun c => if isQuoteOrBackslash c then [92; c]
                            else if c =? 10 then [92; 110]
                            else if c =? 13 then [] else [c]) r ++ QUOTE :: rest)).
        rewrite IH. cbn [Z.eqb negb rev]. rewrite <- app_assoc. reflexivity.
      * destruct (Z.eqb_spec c 13) as [->|H13].
        -- cbn [app negb]. apply IH.
        -- cbn [app negb]. rewrite readLiteral_plain.
           ++ rewrite IH. cbn [rev]. rewrite <- app_assoc. reflexivity.
           ++ exact Hq.
           ++ unfold isLineBreak. destruct (Z.eqb_spec c 10); [contradiction|].
              destruct (Z.eqb_spec c 13); [contradiction | reflexivity].
Qed.

Lemma readLiteral_title (title : jsstring) :
  forall acc rest,
    readLiteral acc (escapedTitle title ++ QUOTE :: rest)
    = if existsb isLineBreak title then None else Some (rev acc ++ title, rest).
Proof.
  unfold escapedTitle, escapeQuotes.
  induction title as [|c r IH]; intros acc rest.
  - cbn. rewrite app_nil_r. reflexivity.
  - cbn [flat_map existsb].
    destruct (isQuoteOrBackslash c) eqn:Hq.
    + cbn [app]. rewrite readLiteral_escaped by exact Hq. rewrite IH.
      assert (Hc : isLineBreak c = false).
      { unfold isQuoteOrBackslash in Hq. unfold isLineBreak.
        destruct (Z.eqb_spec c 10) as [->|]; [discriminate|].
        destruct (Z.eqb_spec c 13) as [->|]; [discriminate | reflexivity]. }
      rewrite Hc. cbn [orb rev]. rewrite <- app_assoc. reflexivity.
    + destruct (isLineBreak c) eqn:Hb.
      * cbn [app orb readLiteral].
        assert (H34 : (c =? 34) = false).
        { unfold isQuoteOrBackslash in Hq. apply orb_false_elim in Hq. apply Hq. }
        rewrite H34. unfold isLineBreak in Hb. rewrite Hb. reflexivity.
      * cbn [app orb]. rewrite readLiteral_plain by assumption.
        rewrite IH. cbn [rev]. rewrite <- app_assoc. reflexivity.
Qed.

(** X13. The script holds the title and the content as string literals.
    The literal of the content always reads back as the content without
    its carriage returns, whatever quotes, backslashes and line feeds the
    content has.  The literal of the title reads back as the title when
    the title has no line break; a title with a line feed or a carriage
    return leaves the line break inside the literal, which is then no
    string literal. *)
Theorem createNote_literals_read_back (title content : jsstring) :
  script title content
  = scriptHead ++ escapedTitle title ++ [QUOTE] ++ scriptMiddle
    ++ escapedContent content ++ [QUOTE] ++ scriptTail
  /\ (forall rest,
         readLiteral [] (escapedContent content ++ QUOTE :: rest)
         = Some (removeReturns content, rest))
  /\ (forall rest,
         readLiteral [] (escapedTitle title ++ QUOTE :: rest)
         = if existsb isLineBreak title then None else Some (title, rest)).
Proof.
  split; [|split].
  - unfold script, scriptHead, scriptMiddle, scriptTail.
    cbn [JS.join]. rewrite <- !app_assoc. reflexivity.
  - intros rest. apply readLiteral_content.
  - intros rest. apply readLiteral_title.
Qed.

End Escaping.

(* ================================================================= *)
(** ** The readiness check *)

Section Readiness.

Import Tools.

Variable Table : Type.
Variable tableNames : completion (list jsstring).
Variable openTable : jsstring -> completion Table.
Variable countRows : Table -> completion Z.

(** X17. The readiness check never throws.  Its answer is [true] exactly
    when the table names are read and hold ["notes"], the table opens,
    its rows are counted and there is at least one; a call that throws
    makes the answer [false]. *)
Theorem isIndexReady_never_throws :
  exists ready,
    isIndexReady Table tableNames openTable countRows = Normal ready
    /\ (ready = true <->
        exists tables table count,
          tableNames = Normal tables /\ In (js "notes") tables
          /\ openTable (js "notes") = Normal table
          /\ countRows table = Normal count /\ 0 < count).
Proof.
  unfold isIndexReady.
  destruct tableNames as [tables|e] eqn:Et; cbn [bind tryCatch].
  - destruct (includes tables (js "notes")) eqn:Ei; cbn [negb].
    + assert (Hin : In (js "notes") tables) by (apply existsb_strEq_In, Ei).
      destruct (openTable (js "notes")) as [table|e] eqn:Eo; cbn [bind tryCatch].
      * destruct (countRows table) as [count|e] eqn:Ec; cbn [bind tryCatch].
        -- eexists. split; [reflexivity|]. split.
           ++ intros H. apply Z.ltb_lt in H. exists tables, table, count. auto.
           ++ intros (ts & t & c & [= <-] & _ & [= <-] & Hc & Hpos).
              rewrite Ec in Hc. injection Hc as <-. apply Z.ltb_lt, Hpos.
        -- eexists. split; [reflexivity|]. split; [discriminate|].
           intros (ts & t & c & _ & _ & [= <-] & Hc & _). rewrite Ec in Hc. discriminate.
      * eexists. split; [reflexivity|]. split; [discriminate|].
        intros (ts & t & c & _ & _ & Ho & _). discriminate.
    + eexists. split; [reflexivity|]. split; [discriminate|].
      intros (ts & t & c & [= <-] & Hin & _).
      apply existsb_strEq_In in Hin. unfold includes in Ei. congruence.
  - eexists. split; [reflexivity|]. split; [discriminate|].
    intros (ts & t & c & H & _). discriminate.
Qed.

End Readiness.

(* ================================================================= *)
(** ** The classifier by alphabet *)

Section Alphabet.

Import AppleNotesDB Spec.

Lemma printable_not_surrogate (c : Z) : isPrintable c = true -> isHighSurrogate c = false.
Proof.
  unfold isPrintable, isHighSurrogate, JS.inRange. intros H.
  destruct (Z.leb_spec 55296 c) as [Hlo|]; [|reflexivity].
  destruct (Z.leb_spec c 56319) as [Hhi|]; [|reflexivity]. exfalso.
  repeat (apply orb_prop in H; destruct H as [H|H]);
    apply andb_prop in H; destruct H as [Ha Hb];
    apply Z.leb_le in Ha, Hb; lia.
Qed.

(** A line of printable code units is left as it is. *)
Lemma cleanLine_printable (line : jsstring) :
  Forall (fun c => isPrintable c = true) line -> cleanLine line = line.
Proof.
  intros H. induction H as [|c r Hc _ IH]; [reflexivity|].
  cbn [cleanLine]. rewrite (printable_not_surrogate c Hc), Hc, IH. reflexivity.
Qed.

Lemma markersOnly_false (line : jsstring) :
  Exists (fun c => isMarker c = false) line -> markersOnly line = false.
Proof.
  intros H. destruct line as [|c r]; [reflexivity|].
  unfold markersOnly. apply not_true_is_false. intros Hall.
  rewrite forallb_forall in Hall. apply Exists_exists in H.
  destruct H as (x & Hin & Hx). rewrite (Hall x Hin) in Hx. discriminate.
Qed.

Lemma printableUnits_none (line : jsstring) :
  Forall (fun cp => isPrintable (fst cp) = false) (codePoints line) ->
  printableUnits line = 0.
Proof.
  unfold printableUnits. intros H.
  induction H as [|cp r Hcp _ IH]; [reflexivity|].
  cbn [fold_right]. rewrite Hcp. exact IH.
Qed.

(** X14. The classifier by alphabet.  A line of at least three code
    units, all of them printable, is kept unless it is made of marker
    characters only; a line of at least three code units, none of whose
    characters is printable, is garbage. *)
Theorem isGarbageLine_by_alphabet (line : jsstring) :
  3 <= JS.length line < 2147483648 ->
  (Forall (fun c => isPrintable c = true) line ->
   Exists (fun c => isMarker c = false) line ->
   isGarbageLine line = false)
  /\ (Forall (fun cp => isPrintable (fst cp) = false) (codePoints line) ->
      isGarbageLine line = true).
Proof.
  intros Hlen.
  assert (Hg : isGarbageLine line
               = markersOnly line
                 || JS.ltb (printableFraction line) (threshold (JS.length line))).
  { unfold isGarbageLine, printableFraction, threshold. rewrite cleanLine_printableUnits.
    destruct (Z.ltb_spec (JS.length line) 3); [lia|].
    destruct (markersOnly line); reflexivity. }
  rewrite Hg, fraction_below_threshold by lia. split.
  - intros Hp Hm. rewrite (markersOnly_false line Hm). cbn [orb].
    rewrite <- cleanLine_printableUnits, (cleanLine_printable line Hp).
    apply Z.ltb_ge. destruct (JS.length line <? 10); lia.
  - intros Hnone. rewrite (printableUnits_none line Hnone).
    apply orb_true_iff. right. apply Z.ltb_lt. destruct (JS.length line <? 10); lia.
Qed.

End Alphabet.

(* ================================================================= *)
(** ** The decoder and the extractor: sizes *)

Section DecoderSize.

Import AppleNotesDB.

Lemma decodeFrom_length (bs : list Z) :
  (List.length (flat_map Utf8.utf16 (Utf8.decodeFrom None bs)) <= List.length bs)%nat
  /\ (forall p, (List.length (flat_map Utf8.utf16 (Utf8.decodeFrom (Some p) bs))
                 <= S (List.length bs))%nat).
Proof.
  assert (Hu : forall cp, (List.length (Utf8.utf16 cp) <= 2)%nat).
  { intros cp. unfold Utf8.utf16. destruct (cp <? 65536); cbn; lia. }
  assert (Hu1 : forall b, b <= 127 -> List.length (Utf8.utf16 b) = 1%nat).
  { intros b Hb. unfold Utf8.utf16.
    destruct (Z.ltb_spec b 65536); [reflexivity | lia]. }
  assert (Hr : List.length (Utf8.utf16 JS.REPLACEMENT) = 1%nat) by reflexivity.
  induction bs as [|b rest [IHn IHs]].
  - split; [cbn; lia | intros p; cbn; lia].
  - assert (Hlead : (List.length (flat_map Utf8.utf16
                (match Utf8.leadByte b with
                 | Utf8.Emit cp => cp :: Utf8.decodeFrom None rest
                 | Utf8.Await q => Utf8.decodeFrom (Some q) rest
                 | Utf8.Invalid => JS.REPLACEMENT :: Utf8.decodeFrom None rest
                 end)) <= S (List.length rest))%nat).
    { unfold Utf8.leadByte. destruct (Z.leb_spec b 127) as [Hb|Hb].
      - cbn [flat_map]. rewrite List.length_app, (Hu1 b Hb). lia.
      - destruct (JS.inRange 194 223 b); [apply IHs|].
        destruct (JS.inRange 224 239 b); [apply IHs|].
        destruct (JS.inRange 240 244 b); [apply IHs|].
        cbn [flat_map]. rewrite List.length_app, Hr. lia. }
    split; [exact Hlead|]. intros p.
    cbn [Utf8.decodeFrom List.length].
    destruct (JS.inRange (Utf8.lower p) (Utf8.upper p) b).
    + pose proof (Hu (Z.lor (Z.shiftl (Utf8.bits p) 6) (Z.land b 63))) as H2.
      destruct (Utf8.needed p) as [|[|n]].
      * cbn [flat_map]. rewrite List.length_app. lia.
      * cbn [flat_map]. rewrite List.length_app. lia.
      * etransitivity; [apply IHs | lia].
    + match goal with
      | |- context [JS.REPLACEMENT :: ?X] =>
          change (flat_map Utf8.utf16 (JS.REPLACEMENT :: X))
            with (Utf8.utf16 JS.REPLACEMENT ++ flat_map Utf8.utf16 X)
      end.
      rewrite List.length_app, Hr. apply (le_n_S _ _ Hlead).
Qed.

Lemma toString_length (data : list byte) :
  JS.length (Utf8.toString data) <= Z.of_nat (List.length data).
Proof.
  unfold Utf8.toString, JS.length.
  pose proof (proj1 (decodeFrom_length (List.map (fun b => Z.of_N (Byte.to_N b)) data))) as H.
  rewrite List.length_map in H. lia.
Qed.

Lemma decodeFrom_ascii (bs : list Z) :
  Forall (fun b => b <= 127) bs ->
  flat_map Utf8.utf16 (Utf8.decodeFrom None bs) = bs.
Proof.
  intros H. induction H as [|b r Hb _ IH]; [reflexivity|].
  cbn [Utf8.decodeFrom]. unfold Utf8.leadByte.
  destruct (Z.leb_spec b 127); [|lia].
  cbn [flat_map]. rewrite IH. unfold Utf8.utf16.
  destruct (Z.ltb_spec b 65536); [reflexivity | lia].
Qed.

End DecoderSize.

Section Room.
Import AppleNotesDB Spec.

Lemma room_nonneg (l : list jsstring) : 0 <= room l.
Proof.
  induction l as [|x r IH]; cbn [room fold_right]; [lia|].
  fold (room r). pose proof (length_nonneg x). lia.
Qed.

Lemma room_app (l1 l2 : list jsstring) : room (l1 ++ l2) = room l1 + room l2.
Proof.
  induction l1 as [|x r IH]; cbn [app room fold_right]; [reflexivity|].
  fold (room (r ++ l2)) (room r). lia.
Qed.

Lemma room_cons (x : jsstring) (l : list jsstring) : room (x :: l) = JS.length x + 1 + room l.
Proof. reflexivity. Qed.

Lemma join_room (l : list jsstring) : JS.length (JS.join [JS.LF] l) <= Z.max 0 (room l - 1).
Proof.
  induction l as [|x r IH]; [cbn; lia|].
  destruct r as [|y r']; [cbn [JS.join]; rewrite room_cons; cbn [room fold_right]; lia|].
  rewrite join_cons2, !length_app, room_cons.
  change (JS.length [JS.LF]) with 1.
  pose proof (room_nonneg r'). pose proof (length_nonneg y).
  rewrite room_cons in IH |- *. lia.
Qed.

Lemma jslength_rev (s : jsstring) : JS.length (rev s) = JS.length s.
Proof. unfold JS.length. rewrite List.length_rev. reflexivity. Qed.

Lemma splitFrom_room (s : jsstring) :
  forall cur, room (JS.splitFrom [JS.LF] O cur s) = JS.length cur + JS.length s + 1.
Proof.
  induction s as [|c r IH]; intros cur.
  - cbn [JS.splitFrom]. rewrite room_cons, jslength_rev, length_nil.
    change (room []) with 0. lia.
  - cbn [JS.splitFrom]. destruct (JS.startsWith [JS.LF] (c :: r)).
    + cbn [List.length Nat.pred]. rewrite room_cons, IH, length_cons, jslength_rev, length_nil.
      lia.
    + rewrite IH, !length_cons. lia.
Qed.

Lemma room_map_trim (l : list jsstring) : room (List.map JS.trim l) <= room l.
Proof.
  induction l as [|x r IH]; [cbn; lia|].
  cbn [List.map]. rewrite !room_cons. pose proof (trim_length x). lia.
Qed.

Lemma room_filter (f : jsstring -> bool) (l : list jsstring) : room (filter f l) <= room l.
Proof.
  induction l as [|x r IH]; [cbn; lia|].
  cbn [filter]. destruct (f x); rewrite ?room_cons; pose proof (length_nonneg x); lia.
Qed.

Lemma scanLines_room (lines : list jsstring) :
  forall goodLines n, room (scanLines lines goodLines n) <= room goodLines + room lines.
Proof.
  induction lines as [|l r IH]; intros good n; cbn [scanLines].
  - cbn [room fold_right]. lia.
  - rewrite room_cons. pose proof (length_nonneg l). pose proof (room_nonneg r).
    destruct (isGarbageLine l).
    + destruct (maxConsecutiveGarbage <=? n + 1); [lia|].
      specialize (IH good (n + 1)). lia.
    + specialize (IH (good ++ [l]) 0). rewrite room_app, room_cons in IH.
      cbn [room fold_right] in IH. lia.
Qed.

Lemma linesOf_room (str : jsstring) : room (linesOf str) <= JS.length str + 1.
Proof.
  unfold linesOf.
  eapply Z.le_trans; [apply room_filter|].
  eapply Z.le_trans; [apply room_map_trim|].
  unfold JS.split. rewrite splitFrom_room. rewrite length_nil.
  assert (H : forall (f : Z -> bool) (s : jsstring), JS.length (filter f s) <= JS.length s).
  { intros f s. unfold JS.length. apply Nat2Z.inj_le, filter_length_le. }
  pose proof (H (fun c => negb (c =? JS.REPLACEMENT))
                (List.map (fun c => if isControl c then JS.LF else c) str)) as H1.
  unfold JS.length in *. rewrite List.length_map in H1. lia.
Qed.

(** The text extracted is no longer than the text decoded. *)
Lemma extractText_length (data : list byte) :
  JS.length (extractTextFromProtobuf data) <= JS.length (Utf8.toString data).
Proof.
  rewrite extractText_join.
  eapply Z.le_trans; [apply join_room|].
  pose proof (scanLines_room (linesOf (Utf8.toString data)) [] 0) as H1.
  pose proof (linesOf_room (Utf8.toString data)) as H2.
  pose proof (length_nonneg (Utf8.toString data)).
  cbn [room fold_right] in H1. lia.
Qed.

End Room.

(* ================================================================= *)
(** ** The extractor: what comes out *)

Section CleanOutput.

Import AppleNotesDB Spec.

Lemma splitFrom_Forall (P : Z -> Prop) (s : jsstring) :
  Forall P s ->
  forall skip cur, Forall P cur -> Forall (Forall P) (JS.splitFrom [JS.LF] skip cur s).
Proof.
  intros H. induction H as [|c r Hc Hr IH]; intros skip cur Hcur.
  - cbn. constructor; [apply Forall_rev, Hcur | constructor].
  - cbn [JS.splitFrom]. destruct skip as [|k]; [|apply IH, Hcur].
    destruct (JS.startsWith [JS.LF] (c :: r)).
    + constructor; [apply Forall_rev, Hcur | apply IH; constructor].
    + apply IH. constructor; assumption.
Qed.

Lemma splitFrom_no_break (s : jsstring) :
  forall cur, Forall (fun c => c <> JS.LF) cur ->
              Forall (Forall (fun c => c <> JS.LF)) (JS.splitFrom [JS.LF] O cur s).
Proof.
  induction s as [|c r IH]; intros cur Hcur.
  - cbn. constructor; [apply Forall_rev, Hcur | constructor].
  - cbn [JS.splitFrom]. rewrite startsWith_LF.
    destruct (Z.eqb_spec JS.LF c) as [E|E].
    + constructor; [apply Forall_rev, Hcur|]. cbn [List.length Nat.pred]. apply IH. constructor.
    + apply IH. constructor; [congruence | exact Hcur].
Qed.

Lemma trim_Forall (P : Z -> Prop) (s : jsstring) : Forall P s -> Forall P (JS.trim s).
Proof.
  intros H.
  assert (Ht : forall t, Forall P t -> Forall P (JS.trimStart t)).
  { intros t Ht. induction Ht as [|c r Hc Hr IH]; [constructor|].
    cbn [JS.trimStart]. destruct (JS.isWhiteSpace c); [exact IH | constructor; assumption]. }
  unfold JS.trim, JS.trimEnd. apply Forall_rev, Ht, Forall_rev, Ht, H.
Qed.

(** The code units of the lines: no control character, no U+FFFD, no
    line feed. *)
Lemma linesOf_clean (str : jsstring) :
  Forall (Forall (fun c => isControl c = false /\ c <> JS.REPLACEMENT /\ c <> JS.LF))
         (linesOf str).
Proof.
  unfold linesOf.
  set (s := filter (fun c => negb (c =? JS.REPLACEMENT))
                   (List.map (fun c => if isControl c then JS.LF else c) str)).
  assert (Hs : Forall (fun c => isControl c = false /\ c <> JS.REPLACEMENT) s).
  { apply Forall_forall. intros c Hin. apply filter_In in Hin. destruct Hin as [Hin Hr].
    apply in_map_iff in Hin. destruct Hin as (d & <- & _). split.
    - destruct (isControl d) eqn:Hd; [reflexivity | exact Hd].
    - intros E. rewrite E in Hr. discriminate. }
  pose proof (splitFrom_Forall _ s Hs O [] ltac:(constructor)) as H1.
  pose proof (splitFrom_no_break s [] ltac:(constructor)) as H2.
  fold (JS.split [JS.LF] s) in H1, H2.
  apply Forall_forall. intros line Hin. apply filter_In in Hin. destruct Hin as [Hin _].
  apply in_map_iff in Hin. destruct Hin as (seg & <- & Hseg).
  rewrite Forall_forall in H1, H2.
  pose proof (trim_Forall _ seg (H1 seg Hseg)) as T1.
  pose proof (trim_Forall _ seg (H2 seg Hseg)) as T2.
  rewrite Forall_forall in T1, T2. apply Forall_forall. intros c Hc.
  destruct (T1 c Hc). split; [assumption|]. split; [assumption | apply T2, Hc].
Qed.

Lemma scanLines_kept (lines : list jsstring) :
  forall goodLines n line,
    In line (scanLines lines goodLines n) ->
    In line goodLines \/ (In line lines /\ isGarbageLine line = false).
Proof.
  induction lines as [|l r IH]; intros good n line Hin; cbn [scanLines] in Hin.
  - left. exact Hin.
  - destruct (isGarbageLine l) eqn:Hl.
    + destruct (maxConsecutiveGarbage <=? n + 1); [left; exact Hin|].
      destruct (IH _ _ _ Hin) as [H|[H1 H2]]; [left; exact H | right; split; [right|]; assumption].
    + destruct (IH _ _ _ Hin) as [H|[H1 H2]].
      * apply in_app_or in H. destruct H as [H|[<-|[]]];
          [left; exact H | right; split; [left; reflexivity | exact Hl]].
      * right; split; [right|]; assumption.
Qed.

(** X15. What comes out of the extractor: lines that the classifier
    keeps, each of at least three code units with no white space at
    either end and no line feed inside, joined by line feeds; the text has
    no control character (of those the extractor replaces) and no U+FFFD,
    no white space at either end, and no more code units than the buffer
    has bytes. *)
Theorem extractText_output_is_clean (data : list byte) :
  let out := extractTextFromProtobuf data in
  (exists lines,
      out = JS.join [JS.LF] lines
      /\ Forall (fun line => isGarbageLine line = false
                             /\ 3 <= JS.length line
                             /\ isLine line
                             /\ Forall (fun c => c <> JS.LF) line) lines)
  /\ Forall (fun c => isControl c = false /\ c <> JS.REPLACEMENT) out
  /\ JS.trim out = out
  /\ JS.length out <= Z.of_nat (List.length data).
Proof.
  cbv zeta.
  assert (Hsize : JS.length (extractTextFromProtobuf data) <= Z.of_nat (List.length data)).
  { eapply Z.le_trans; [apply extractText_length | apply toString_length]. }
  rewrite extractText_join in *.
  set (lines := linesOf (Utf8.toString data)).
  set (good := scanLines lines [] 0).
  assert (Hgood : forall line, In line good -> In line lines /\ isGarbageLine line = false).
  { intros line Hin. apply scanLines_kept in Hin. destruct Hin as [[]|H]. exact H. }
  pose proof (linesOf_isLine (Utf8.toString data)) as HisLine. fold lines in HisLine.
  pose proof (linesOf_clean (Utf8.toString data)) as Hclean. fold lines in Hclean.
  rewrite Forall_forall in HisLine, Hclean.
  split; [|split; [|split; [|exact Hsize]]].
  - exists good. split; [reflexivity|]. apply Forall_forall. intros line Hin.
    destruct (Hgood line Hin) as [Hl Hg]. split; [exact Hg|]. split.
    + destruct (Z.lt_ge_cases (JS.length line) 3) as [Hshort|]; [|assumption].
      rewrite (short_is_garbage line Hshort) in Hg. discriminate.
    + split; [apply HisLine, Hl|].
      eapply Forall_impl; [|apply Hclean, Hl]. intros c (_ & _ & H). exact H.
  - apply join_Forall.
    + constructor; [split; [reflexivity | discriminate] | constructor].
    + apply Forall_forall. intros line Hin. destruct (Hgood line Hin) as [Hl _].
      eapply Forall_impl; [|apply Hclean, Hl]. intros c (H1 & H2 & _). split; assumption.
  - apply trim_join_lines. apply Forall_forall. intros line Hin.
    apply HisLine, Hgood, Hin.
Qed.

End CleanOutput.

(* ================================================================= *)
(** ** Content that is not compressed *)

Section PlainBuffer.

Import AppleNotesDB.

Variable ungzip : list byte -> completion (list byte).

(** X16. Content that is not compressed.  A buffer of ASCII bytes is
    returned as the text it holds, byte for code unit; and whatever the
    bytes, the text has no more code units than the buffer has bytes. *)
Theorem parseNoteContent_plain_buffer (buffer : list byte) :
  hasGzipMagic buffer = false ->
  exists text,
    parseNoteContent ungzip (Some buffer) = Normal text
    /\ JS.length text <= Z.of_nat (List.length buffer)
    /\ (Forall (fun b => (Byte.to_N b < 128)%N) buffer ->
        text = List.map (fun b => Z.of_N (Byte.to_N b)) buffer).
Proof.
  intros Hm. exists (Utf8.toString buffer). split; [|split].
  - unfold parseNoteContent. rewrite Hm. reflexivity.
  - apply toString_length.
  - intros Hascii. unfold Utf8.toString. apply decodeFrom_ascii.
    apply Forall_forall. intros z Hz. apply in_map_iff in Hz. destruct Hz as (b & <- & Hb).
    rewrite Forall_forall in Hascii. specialize (Hascii b Hb). lia.
Qed.

End PlainBuffer.

(* ================================================================= *)
(** ** Rank fusion: reciprocals of ranks *)

Section Reciprocals.

Import Index Spec.

Lemma weight_pos : 0 < weight.
Proof. unfold weight. apply Z.pow_pos_nonneg; lia. Qed.

Lemma ofZ_one : JS.ofZ 1 = S754_finite false two52 (-52).
Proof. reflexivity. Qed.

(** The reciprocal of an integer, in units of the smallest number: the
    exact value is [2 ^ 1074 / n], and the number is off by less than
    one part in [2 ^ 52]. *)
Lemma reciprocal_units (pn : positive) :
  digits pn <= 52 ->
  exists U,
    units (JS.div (JS.ofZ 1) (JS.ofZ (Z.pos pn))) = Some U
    /\ weight * (2 ^ 105 - 2 ^ 53) < U * Z.pos pn
    /\ U * Z.pos pn < weight * (2 ^ 105 + 2 ^ 53).
Proof.
  intros Hd. pose proof (digits_pos pn) as Hd0.
  rewrite ofZ_one, (ofZ_exact pn) by lia.
  assert (H52 : digits two52 = 53) by reflexivity.
  rewrite div_53 by (try apply mant53_digits; try exact H52; lia).
  pose proof (mant53_value pn ltac:(lia)) as Hm2.
  pose proof (mant53_bounds pn ltac:(lia)) as Hb2.
  rewrite two52_pow, two53_pow in Hb2. rewrite two53_pow.
  set (d := digits pn) in *.
  set (P := 2 ^ (53 - d)) in *.
  assert (HP : 0 < P) by (apply Z.pow_pos_nonneg; lia).
  set (m2 := Z.pos (mant53 pn)) in *.
  replace (-52 - (d - 53) - 53) with (- d - 52) by lia.
  set (E := - d - 52).
  set (N := Z.pos two52 * 9007199254740992).
  pose proof (Z.div_mod N m2 ltac:(lia)) as Hdiv.
  pose proof (Z.mod_pos_bound N m2 ltac:(lia)) as Hmod.
  set (q := N / m2) in *. set (r := N mod m2) in *.
  assert (HN : N = 2 ^ 105) by reflexivity.
  assert (HW : 2 ^ (E - emin) = weight * P).
  { unfold weight, P, E, emin, SpecFloat.emin, JS.prec, JS.emax.
    rewrite <- Z.pow_add_r by lia. f_equal. lia. }
  assert (Hw := weight_pos).
  assert (Hemin : emin <= E) by (unfold E, emin, SpecFloat.emin, JS.prec, JS.emax; lia).
  (* what is to be shown about the rounded mantissa [M] *)
  assert (Hgoal : forall M, 0 < M -> (M - 1) * m2 <= N -> N < (M + 1) * m2 ->
             weight * (2 ^ 105 - 2 ^ 53) < M * 2 ^ (E - emin) * Z.pos pn
             /\ M * 2 ^ (E - emin) * Z.pos pn < weight * (2 ^ 105 + 2 ^ 53)).
  { intros M HM Hlo Hhi. rewrite HW.
    replace (M * (weight * P) * Z.pos pn) with (weight * (M * m2))
      by (rewrite Hm2; ring).
    rewrite <- HN. rewrite two53_pow.
    split; apply Z.mul_lt_mono_pos_l; try exact Hw; lia. }
  destruct (Z.eq_dec m2 4503599627370496) as [Hpow|Hnot].
  - (* the divisor is a power of two: the quotient is exact *)
    assert (Hq : q = 9007199254740992).
    { unfold q, N. rewrite Hpow. reflexivity. }
    assert (Hr : r = 0).
    { unfold r, N. rewrite Hpow. reflexivity. }
    rewrite Hq, Hr.
    rewrite binary_round_aux_54; [|reflexivity | exact Hemin | unfold E; lia].
    rewrite new_location_spec by lia. cbv zeta.
    change (0 =? 0) with true. cbv iota.
    change (shr_1 (shr_record_of_loc 9007199254740992 loc_Exact))
      with {| shr_m := 4503599627370496; shr_r := false; shr_s := false |}.
    cbn [shr_m loc_of_shr_record shr_r shr_s round_nearest_even].
    change (4503599627370496 =? two53) with false. cbv iota.
    change (Z.to_pos 4503599627370496) with two52.
    eexists. split; [reflexivity|].
    replace (E + 1 - emin) with (E - emin + 1) by lia.
    rewrite Z.pow_add_r by lia. change (2 ^ 1) with 2.
    replace (Z.pos two52 * (2 ^ (E - emin) * 2))
      with (9007199254740992 * 2 ^ (E - emin)) by (unfold two52; lia).
    apply Hgoal; [lia | rewrite Hpow; unfold N, two52; lia
                  | rewrite Hpow; unfold N, two52; lia].
  - (* the quotient has 53 digits *)
    assert (Hq : 4503599627370496 <= q < 9007199254740992).
    { unfold q, N. split.
      - apply Z.div_le_lower_bound; unfold two52; lia.
      - apply Z.div_lt_upper_bound; unfold two52; lia. }
    destruct q as [|qp|qp] eqn:Eq; try lia.
    assert (Hqd : digits qp = 53).
    { apply digits_unique. change (53 - 1) with 52. rewrite two52_pow, two53_pow. lia. }
    rewrite binary_round_aux_53; [|exact Hqd | exact Hemin | unfold E; lia].
    cbv zeta.
    assert (HM : round_nearest_even (Z.pos qp) (new_location m2 r) = Z.pos qp
                 \/ round_nearest_even (Z.pos qp) (new_location m2 r) = Z.pos qp + 1).
    { unfold round_nearest_even. destruct (new_location m2 r) as [|[| |]];
        try destruct (Z.even _); auto. }
    set (M := round_nearest_even (Z.pos qp) (new_location m2 r)) in *.
    assert (Hlo : (M - 1) * m2 <= N) by (destruct HM as [-> | ->]; nia).
    assert (Hhi : N < (M + 1) * m2) by (destruct HM as [-> | ->]; nia).
    destruct (Z.eqb_spec M two53) as [EM|EM].
    + eexists. split; [reflexivity|].
      replace (E + 1 - emin) with (E - emin + 1) by lia.
      rewrite Z.pow_add_r by lia. change (2 ^ 1) with 2.
      replace (Z.pos two52 * (2 ^ (E - emin) * 2))
        with (M * 2 ^ (E - emin)) by (rewrite EM; unfold two52, two53; lia).
      apply Hgoal; [lia | exact Hlo | exact Hhi].
    + eexists. split; [reflexivity|].
      rewrite Z2Pos.id by lia.
      apply Hgoal; [lia | exact Hlo | exact Hhi].
Qed.

(** The contribution of a rank is strictly smaller than the one of any
    better rank. *)
Lemma contribution_decreasing (i j : Z) :
  0 <= i < j -> j < 2 ^ 50 ->
  scoreLt (contribution 0 j) (contribution 0 i) = true.
Proof.
  intros Hij Hj. change (2 ^ 50) with 1125899906842624 in Hj.
  unfold contribution, k.
  assert (Hdig : forall n, 0 < Z.pos n < 2 ^ 51 -> digits n <= 52).
  { intros n Hn. pose proof (digits_bounds n) as [Hlo _].
    assert (H : 2 ^ (digits n - 1) < 2 ^ 51) by lia.
    apply Z.pow_lt_mono_r_iff in H; lia. }
  change (2 ^ 51) with 2251799813685248 in Hdig.
  destruct (60 + 0 + i) as [|a|a] eqn:Ea; try lia.
  destruct (60 + 0 + j) as [|b|b] eqn:Eb; try lia.
  unfold scoreLt.
  destruct (reciprocal_units a ltac:(apply Hdig; lia)) as (Ua & -> & Ha1 & Ha2).
  destruct (reciprocal_units b ltac:(apply Hdig; lia)) as (Ub & -> & Hb1 & Hb2).
  unfold below. apply Z.ltb_lt.
  destruct (Z.lt_ge_cases Ub Ua) as [|Hle]; [assumption|]. exfalso.
  pose proof weight_pos as Hw.
  assert (H1 : weight * (2 ^ 105 - 2 ^ 53) * Z.pos b < Ua * Z.pos a * Z.pos b)
    by (apply Z.mul_lt_mono_pos_r; lia).
  assert (H2 : Ub * Z.pos b * Z.pos a < weight * (2 ^ 105 + 2 ^ 53) * Z.pos a)
    by (apply Z.mul_lt_mono_pos_r; lia).
  assert (H3 : Ua * (Z.pos a * Z.pos b) <= Ub * (Z.pos a * Z.pos b))
    by (apply Z.mul_le_mono_nonneg_r; lia).
  assert (H4 : weight * ((2 ^ 105 - 2 ^ 53) * Z.pos b)
               < weight * ((2 ^ 105 + 2 ^ 53) * Z.pos a)) by lia.
  apply Z.mul_lt_mono_pos_l in H4; [|exact Hw].
  change (2 ^ 105) with 40564819207303340847894502572032 in H4.
  change (2 ^ 53) with 9007199254740992 in H4. lia.
Qed.

End Reciprocals.

(* ================================================================= *)
(** ** Rank fusion: lists without a common key *)

Section Interleaving.

Import Index Spec.

Lemma merge_nil_r (v : ScoreMap) : merge v [] = v.
Proof. destruct v; reflexivity. Qed.

Lemma merge_cons (x y : jsstring * JS.number) (v f : ScoreMap) :
  merge (x :: v) (y :: f)
  = if scoreLt (snd x) (snd y) then y :: merge (x :: v) f else x :: merge v (y :: f).
Proof. reflexivity. Qed.

Lemma below_le_lt (a b c : option Z) :
  below a b = false -> below a c = true -> below b c = true.
Proof.
  destruct a, b, c; cbn; try congruence; intros H1 H2.
  apply Z.ltb_ge in H1. apply Z.ltb_lt in H2. apply Z.ltb_lt. lia.
Qed.

(** A list in descending order is sorted already. *)
Lemma sort_of_sorted (l : ScoreMap) :
  allScores l -> StronglySorted notBelow l -> sort l = l.
Proof.
  intros Hl Hs. induction Hs as [|x r Hr IH Hx]; [reflexivity|].
  inversion Hl as [|? ? Hxs Hrs]; subst.
  cbn [sort]. rewrite IH by exact Hrs.
  destruct r as [|y r']; [reflexivity|]. cbn [insertSorted].
  inversion Hrs as [|? ? Hys _]; subst.
  rewrite compareFn_positive by assumption.
  inversion Hx as [|? ? Hxy _]; subst. unfold notBelow in Hxy. rewrite Hxy. reflexivity.
Qed.

Lemma insertSorted_front (x : jsstring * JS.number) (l : ScoreMap) :
  isScore (snd x) -> allScores l ->
  match l with [] => True | y :: _ => notBelow x y end ->
  insertSorted x l = x :: l.
Proof.
  intros Hx Hl Hfront. destruct l as [|y r]; [reflexivity|].
  cbn [insertSorted]. inversion Hl as [|? ? Hy _]; subst.
  rewrite compareFn_positive by assumption. unfold notBelow in Hfront.
  rewrite Hfront. reflexivity.
Qed.

Lemma merge_scores (v f : ScoreMap) :
  allScores v -> allScores f -> allScores (merge v f).
Proof.
  intros Hv. revert f. induction Hv as [|x v Hx Hv IH]; intros f Hf; [exact Hf|].
  induction Hf as [|y f Hy Hf IHf]; [constructor; assumption|].
  rewrite merge_cons. destruct (scoreLt (snd x) (snd y)).
  - constructor; [exact Hy | exact IHf].
  - constructor; [exact Hx | apply IH; constructor; assumption].
Qed.

(** The first entry of a merge is the first of one of the two lists. *)
Lemma merge_front (x : jsstring * JS.number) (v f : ScoreMap) :
  match v with [] => True | y :: _ => notBelow x y end ->
  match f with [] => True | y :: _ => notBelow x y end ->
  match merge v f with [] => True | y :: _ => notBelow x y end.
Proof.
  intros Hv Hf. destruct v as [|a v]; [exact Hf|].
  destruct f as [|b f]; [exact Hv|].
  rewrite merge_cons. destruct (scoreLt (snd a) (snd b)); assumption.
Qed.

(** Putting an entry that is not below any entry of [v] into the merge
    of [v] and [f]. *)
Lemma insertSorted_merge (x : jsstring * JS.number) (v f : ScoreMap) :
  isScore (snd x) -> allScores v -> allScores f ->
  match v with [] => True | y :: _ => notBelow x y end ->
  insertSorted x (merge v f) = merge (x :: v) f.
Proof.
  intros Hx Hv Hf Hfront. induction Hf as [|y f Hy Hf IH].
  - rewrite !merge_nil_r. apply insertSorted_front; assumption.
  - rewrite (merge_cons x y). destruct (scoreLt (snd x) (snd y)) eqn:E.
    + assert (Hm : merge v (y :: f) = y :: merge v f).
      { destruct v as [|a v']; [reflexivity|]. rewrite merge_cons.
        replace (scoreLt (snd a) (snd y)) with true; [reflexivity|].
        symmetry. unfold notBelow, scoreLt in *. eapply below_le_lt; eassumption. }
      rewrite Hm. cbn [insertSorted].
      rewrite compareFn_positive by assumption. rewrite E. f_equal. exact IH.
    + apply insertSorted_front; [exact Hx | |].
      * apply merge_scores; [exact Hv | constructor; assumption].
      * apply merge_front; [exact Hfront | exact E].
Qed.

(** Sorting two lists in descending order, one behind the other, merges
    them. *)
Lemma sort_app_sorted (v f : ScoreMap) :
  allScores v -> allScores f ->
  StronglySorted notBelow v -> StronglySorted notBelow f ->
  sort (v ++ f) = merge v f.
Proof.
  intros Hv Hf Hsv Hsf. induction Hsv as [|x v Hsv IH Hx].
  - cbn [app merge]. apply sort_of_sorted; assumption.
  - inversion Hv as [|? ? Hxs Hvs]; subst.
    cbn [app sort]. rewrite IH by exact Hvs.
    apply insertSorted_merge; try assumption.
    destruct v as [|y v']; [exact I|]. inversion Hx; assumption.
Qed.

(** *** The entries of a list without repeated keys *)

Lemma mapGet_fresh key scores : ~ In key (keys scores) -> mapGet key scores = None.
Proof.
  induction scores as [|[k' v'] r IH]; cbn; [reflexivity|]. intros Hn.
  rewrite strEq_neq by (intros ->; apply Hn; left; reflexivity).
  apply IH. intros H. apply Hn. right. exact H.
Qed.

Lemma mapSet_fresh key v scores :
  ~ In key (keys scores) -> mapSet key v scores = scores ++ [(key, v)].
Proof.
  induction scores as [|[k' v'] r IH]; cbn; [reflexivity|]. intros Hn.
  rewrite strEq_neq by (intros ->; apply Hn; left; reflexivity).
  rewrite IH; [reflexivity|]. intros H. apply Hn. right. exact H.
Qed.

Lemma keys_entriesFrom (results : list SearchResult) :
  forall idx, keys (entriesFrom idx results) = List.map keyOf results.
Proof.
  induction results as [|r rest IH]; intros idx; cbn; [reflexivity|].
  f_equal. apply IH.
Qed.

Lemma processFrom_fresh (results : list SearchResult) :
  forall idx scores,
    0 <= idx ->
    NoDup (keys scores ++ List.map keyOf results) ->
    processFrom idx results 0 scores = scores ++ entriesFrom idx results.
Proof.
  induction results as [|r rest IH]; intros idx scores Hidx Hnd.
  - cbn. rewrite app_nil_r. reflexivity.
  - cbn [processFrom entriesFrom List.map] in *.
    assert (Hfresh : ~ In (keyOf r) (keys scores)).
    { intros Hin. apply NoDup_remove_2 in Hnd. apply Hnd.
      apply in_or_app. left. exact Hin. }
    unfold getOrZero. rewrite (mapGet_fresh _ _ Hfresh).
    rewrite add_zero_l by (apply contribution_nonneg, Hidx).
    rewrite (mapSet_fresh _ _ _ Hfresh).
    rewrite IH; [rewrite <- app_assoc; reflexivity | lia |].
    unfold keys in *. rewrite map_app. cbn [List.map fst]. rewrite <- app_assoc. cbn [app].
    eapply Permutation_NoDup; [|exact Hnd].
    apply Permutation_app_head. apply Permutation_refl.
Qed.

Lemma fuse_fresh (vector fts : list SearchResult) :
  NoDup (List.map keyOf (vector ++ fts)) ->
  fuse vector fts = entriesFrom 0 vector ++ entriesFrom 0 fts.
Proof.
  intros Hnd. unfold fuse, processResults.
  rewrite (processFrom_fresh vector 0 []); [|lia|].
  - cbn [app]. rewrite processFrom_fresh; [reflexivity | lia |].
    rewrite keys_entriesFrom, <- map_app. exact Hnd.
  - cbn [keys List.map app]. rewrite map_app in Hnd.
    apply NoDup_app_remove_r in Hnd. exact Hnd.
Qed.

Lemma entriesFrom_scores (results : list SearchResult) :
  forall idx, 0 <= idx -> allScores (entriesFrom idx results).
Proof.
  induction results as [|r rest IH]; intros idx Hidx; cbn [entriesFrom]; constructor.
  - apply contribution_isScore, Hidx.
  - apply IH. lia.
Qed.

Lemma entriesFrom_bound (results : list SearchResult) :
  forall idx bound,
    0 <= bound < idx ->
    idx + Z.of_nat (List.length results) <= 2 ^ 50 ->
    Forall (fun e => scoreLt (snd e) (contribution 0 bound) = true)
           (entriesFrom idx results).
Proof.
  induction results as [|r rest IH]; intros idx bound Hb Hlen; cbn [entriesFrom];
    constructor.
  - cbn [snd]. apply contribution_decreasing; [lia|].
    cbn [List.length] in Hlen. lia.
  - apply IH; [lia|]. cbn [List.length] in Hlen. lia.
Qed.

Lemma entriesFrom_sorted (results : list SearchResult) :
  forall idx,
    0 <= idx -> idx + Z.of_nat (List.length results) <= 2 ^ 50 ->
    StronglySorted notBelow (entriesFrom idx results).
Proof.
  induction results as [|r rest IH]; intros idx Hidx Hlen; cbn [entriesFrom];
    constructor.
  - apply IH; [lia|]. cbn [List.length] in Hlen. lia.
  - eapply Forall_impl; [|apply (entriesFrom_bound rest (idx + 1) idx)];
      [|lia | cbn [List.length] in Hlen; lia].
    intros e He. unfold notBelow, scoreLt in *. cbn [snd]. apply below_asym, He.
Qed.

(** Merging the entries of two lists ranked alike takes them in turn. *)
Lemma merge_entries (vector : list SearchResult) :
  forall fts idx,
    0 <= idx ->
    idx + Z.of_nat (List.length vector) <= 2 ^ 50 ->
    idx + Z.of_nat (List.length fts) <= 2 ^ 50 ->
    merge (entriesFrom idx vector) (entriesFrom idx fts)
    = interleave (entriesFrom idx vector) (entriesFrom idx fts).
Proof.
  induction vector as [|v vector IH]; intros fts idx Hidx Hv Hf; [reflexivity|].
  destruct fts as [|f fts]; [reflexivity|].
  cbn [entriesFrom interleave]. rewrite merge_cons. cbn [snd].
  unfold scoreLt at 1. rewrite below_irrefl. f_equal.
  cbn [List.length] in Hv, Hf.
  destruct vector as [|v' vector'].
  - reflexivity.
  - cbn [entriesFrom]. rewrite merge_cons. cbn [snd].
    cbn [List.length] in Hv.
    rewrite contribution_decreasing by lia. f_equal.
    apply (IH fts (idx + 1)); [lia | cbn [List.length]; lia | lia].
Qed.

Lemma interleave_map {A B : Type} (g : A -> B) (v : list A) :
  forall f, List.map g (interleave v f) = interleave (List.map g v) (List.map g f).
Proof.
  induction v as [|x v IH]; intros f; [reflexivity|].
  destruct f as [|y f]; cbn [interleave List.map]; [reflexivity|].
  rewrite IH. reflexivity.
Qed.

(** X18. Two lists of results without a repeated and without a common
    key are fused by taking their results in turn: the vector result of
    a rank, the lexical result of the same rank, then the next rank; what
    is left of the longer list comes last.  The output is the first
    [limit] of these: of their keys, of the hits rebuilt from the keys
    and, when no title has a colon and no content has ["::"], of the
    results themselves. *)
Theorem ranked_takes_turns (vector fts : list SearchResult) (limit : nat) :
  NoDup (List.map keyOf (vector ++ fts)) ->
  Z.of_nat (List.length vector) <= 2 ^ 50 ->
  Z.of_nat (List.length fts) <= 2 ^ 50 ->
  keys (ranked vector fts limit)
  = firstn limit (interleave (List.map keyOf vector) (List.map keyOf fts))
  /\ combineResults vector fts limit
     = firstn limit (interleave (List.map (fun r => hitOfKey (keyOf r)) vector)
                                (List.map (fun r => hitOfKey (keyOf r)) fts))
  /\ (Forall separable (vector ++ fts) ->
      combineResults vector fts limit
      = firstn limit (interleave (List.map hitOf vector) (List.map hitOf fts))).
Proof.
  intros Hnd Hv Hf.
  assert (Hsort : sort (fuse vector fts)
                  = interleave (entriesFrom 0 vector) (entriesFrom 0 fts)).
  { rewrite (fuse_fresh vector fts Hnd).
    rewrite sort_app_sorted;
      [apply merge_entries; lia
      | apply entriesFrom_scores; lia | apply entriesFrom_scores; lia
      | apply entriesFrom_sorted; lia | apply entriesFrom_sorted; lia]. }
  assert (Hkeys : keys (ranked vector fts limit)
                  = firstn limit (interleave (List.map keyOf vector) (List.map keyOf fts))).
  { unfold ranked, keys. rewrite <- firstn_map, Hsort, interleave_map.
    fold (keys (entriesFrom 0 vector)) (keys (entriesFrom 0 fts)).
    rewrite !keys_entriesFrom. reflexivity. }
  assert (Hhits : combineResults vector fts limit
                  = firstn limit (interleave (List.map (fun r => hitOfKey (keyOf r)) vector)
                                             (List.map (fun r => hitOfKey (keyOf r)) fts))).
  { rewrite combineResults_keys, Hkeys, <- firstn_map, interleave_map, !map_map.
    reflexivity. }
  split; [exact Hkeys|]. split; [exact Hhits|].
  intros Hsep. rewrite Hhits. apply Forall_app in Hsep. destruct Hsep as [Hs1 Hs2].
  rewrite Forall_forall in Hs1, Hs2.
  rewrite (map_ext_in _ hitOf vector) by (intros r Hr; apply hitOfKey_separable, Hs1, Hr).
  rewrite (map_ext_in _ hitOf fts) by (intros r Hr; apply hitOfKey_separable, Hs2, Hr).
  reflexivity.
Qed.

End Interleaving.

(* ================================================================= *)
(** ** The configuration *)

Section Numerals.

Import Config Spec.

Lemma of_uint_acc_value (d : Decimal.uint) :
  forall acc, N.pos (Pos.of_uint_acc d acc) = valueFrom (N.pos acc) d.
Proof.
  induction d; intros acc; cbn [Pos.of_uint_acc valueFrom];
    try reflexivity; rewrite IHd; f_equal.
Qed.

Lemma of_uint_value (d : Decimal.uint) : N.of_uint d = valueFrom 0 d.
Proof.
  unfold N.of_uint.
  induction d; cbn [Pos.of_uint valueFrom]; try reflexivity;
    try (rewrite of_uint_acc_value; reflexivity).
  exact IHd.
Qed.

Lemma digitsFrom_stop (acc : option Z) (rest : jsstring) :
  match rest with
  | [] => True
  | c :: _ => digitValue 10 c = None
  end ->
  digitsFrom 10 acc rest = acc.
Proof. destruct rest as [|c r]; [reflexivity|]. cbn [digitsFrom]. intros ->. reflexivity. Qed.

Lemma js_String (c : ascii) (t : string) :
  js (String c t) = Z.of_N (N_of_ascii c) :: js t.
Proof. reflexivity. Qed.

Lemma digitsFrom_digit (c a : Z) (s : jsstring) :
  48 <= c <= 57 ->
  digitsFrom 10 (Some a) (c :: s) = digitsFrom 10 (Some (a * 10 + (c - 48))) s.
Proof.
  intros Hc. cbn [digitsFrom]. unfold digitValue, JS.isDigit, JS.inRange.
  destruct (Z.leb_spec 48 c); [|lia]. destruct (Z.leb_spec c 57); [|lia]. reflexivity.
Qed.

Ltac read_digit :=
  rewrite js_String; cbn [app];
  rewrite digitsFrom_digit by (vm_compute; split; discriminate);
  match goal with
  | |- context [Z.of_N (N_of_ascii ?c) - 48] =>
      let v := eval vm_compute in (Z.of_N (N_of_ascii c) - 48) in
      change (Z.of_N (N_of_ascii c) - 48) with v
  end.

(** The digits of a numeral are read as its value. *)
Lemma digitsFrom_numeral (d : Decimal.uint) :
  forall (a : Z) (rest : jsstring),
    0 <= a ->
    match rest with
    | [] => True
    | c :: _ => digitValue 10 c = None
    end ->
    digitsFrom 10 (Some a) (js (NilEmpty.string_of_uint d) ++ rest)
    = Some (Z.of_N (valueFrom (Z.to_N a) d)).
Proof.
  induction d; intros a rest Ha Hrest; cbn [NilEmpty.string_of_uint valueFrom].
  - change (js "" ++ rest) with rest. rewrite digitsFrom_stop by exact Hrest.
    rewrite Z2N.id by exact Ha. reflexivity.
  - read_digit. rewrite IHd by (try exact Hrest; lia). do 3 f_equal. lia.
  - read_digit. rewrite IHd by (try exact Hrest; lia). do 3 f_equal. lia.
  - read_digit. rewrite IHd by (try exact Hrest; lia). do 3 f_equal. lia.
  - read_digit. rewrite IHd by (try exact Hrest; lia). do 3 f_equal. lia.
  - read_digit. rewrite IHd by (try exact Hrest; lia). do 3 f_equal. lia.
  - read_digit. rewrite IHd by (try exact Hrest; lia). do 3 f_equal. lia.
  - read_digit. rewrite IHd by (try exact Hrest; lia). do 3 f_equal. lia.
  - read_digit. rewrite IHd by (try exact Hrest; lia). do 3 f_equal. lia.
  - read_digit. rewrite IHd by (try exact Hrest; lia). do 3 f_equal. lia.
  - read_digit. rewrite IHd by (try exact Hrest; lia). do 3 f_equal. lia.
Qed.

(** The digits of a numeral, from the first one on. *)
Lemma digitsFrom_numeral_start (d : Decimal.uint) :
  d <> Decimal.Nil ->
  digitsFrom 10 None (js (NilEmpty.string_of_uint d))
  = Some (Z.of_N (valueFrom 0 d)).
Proof.
  intros Hd.
  assert (Hstep : forall c s, 48 <= c <= 57 ->
            digitsFrom 10 None (c :: s) = digitsFrom 10 (Some (c - 48)) s).
  { intros c s Hc. cbn [digitsFrom]. unfold digitValue, JS.isDigit, JS.inRange.
    destruct (Z.leb_spec 48 c); [|lia]. destruct (Z.leb_spec c 57); [|lia]. reflexivity. }
  destruct d; [congruence|..]; cbn [NilEmpty.string_of_uint valueFrom];
    rewrite js_String, Hstep by (vm_compute; split; discriminate);
    match goal with
    | |- context [Z.of_N (N_of_ascii ?c) - 48] =>
        let v := eval vm_compute in (Z.of_N (N_of_ascii c) - 48) in
        change (Z.of_N (N_of_ascii c) - 48) with v
    end;
    rewrite <- (app_nil_r (js _));
    rewrite digitsFrom_numeral by (try exact I; lia); reflexivity.
Qed.

(** A numeral has no sign, no white space and no [0x] at its start. *)
Lemma parseInt_numeral (d : Decimal.uint) :
  d <> Decimal.Nil ->
  let s := js (NilEmpty.string_of_uint d) in
  JS.trimStart s = s /\ stripSign s = (1, s) /\ stripPrefix s = (10, s).
Proof.
  intros Hd. cbv zeta.
  destruct d as [|l|l|l|l|l|l|l|l|l|l]; [congruence|..];
    cbn [NilEmpty.string_of_uint]; rewrite js_String;
    try (repeat split; reflexivity).
  destruct l; cbn [NilEmpty.string_of_uint]; rewrite ?js_String; repeat split; reflexivity.
Qed.

(** [parseInt] gives a decimal numeral its value, also behind a minus
    sign. *)
Lemma parseInt_decimal (n : N) :
  parseInt (Index.decimal n) = Some (Z.of_N n)
  /\ parseInt (45 :: Index.decimal n) = Some (- Z.of_N n).
Proof.
  unfold Index.decimal.
  assert (Hnil : N.to_uint n <> Decimal.Nil).
  { destruct n as [|p]; [discriminate | apply DecimalPos.Unsigned.to_uint_nonnil]. }
  assert (Hstr : NilZero.string_of_uint (N.to_uint n)
                 = NilEmpty.string_of_uint (N.to_uint n)).
  { destruct (N.to_uint n); [congruence | reflexivity..]. }
  rewrite Hstr.
  destruct (parseInt_numeral (N.to_uint n) Hnil) as (H1 & H2 & H3).
  pose proof (digitsFrom_numeral_start (N.to_uint n) Hnil) as H4.
  rewrite <- of_uint_value, DecimalN.Unsigned.of_to in H4.
  set (s := js (NilEmpty.string_of_uint (N.to_uint n))) in *.
  split.
  - unfold parseInt. rewrite H1, H2, H3, H4. cbn [option_map]. f_equal; lia.
  - unfold parseInt.
    change (JS.trimStart (45 :: s)) with (45 :: s).
    change (stripSign (45 :: s)) with (-1, s). cbv beta iota.
    rewrite H3, H4. cbn [option_map]. f_equal; lia.
Qed.

(** Text that starts with no white space, no sign and no digit is not a
    number. *)
Lemma parseInt_NaN (c : Z) (r : jsstring) :
  JS.isWhiteSpace c = false -> c <> 45 -> c <> 43 -> JS.isDigit c = false ->
  parseInt (c :: r) = None.
Proof.
  intros Hw H45 H43 Hd. unfold parseInt. cbn [JS.trimStart]. rewrite Hw.
  assert (Hsign : stripSign (c :: r) = (1, c :: r)).
  { unfold stripSign. destruct c as [|p|p]; try reflexivity.
    do 6 (destruct p as [p|p|]; try reflexivity); lia. }
  rewrite Hsign.
  assert (Hprefix : stripPrefix (c :: r) = (10, c :: r)).
  { unfold stripPrefix. destruct c as [|p|p]; try reflexivity.
    do 6 (destruct p as [p|p|]; try reflexivity). discriminate Hd. }
  rewrite Hprefix. cbn [digitsFrom]. unfold digitValue. rewrite Hd. reflexivity.
Qed.

Variable env : jsstring -> option jsstring.

(** X19. The sizes in the configuration.  A variable that is not set,
    or set to the empty string, gives the default, 1000 for the chunk
    size and 100 for the overlap.  A variable set to a decimal numeral
    below [2 ^ 53] gives its value, zero included, and such a numeral
    behind a minus sign gives the negative value: the sizes are not
    checked.  A value that starts with no digit (and no white space or
    sign) gives [NaN]. *)
Theorem loadConfig_reads_numerals :
  let config := loadConfig env in
  (forall name fallback,
      env name = None \/ env name = Some [] -> envOr env name fallback = fallback)
  /\ ((env (js "CHUNK_SIZE") = None \/ env (js "CHUNK_SIZE") = Some []) ->
      chunkSize config = Some 1000)
  /\ ((env (js "CHUNK_OVERLAP") = None \/ env (js "CHUNK_OVERLAP") = Some []) ->
      chunkOverlap config = Some 100)
  /\ (forall n, (n < 2 ^ 53)%N ->
                env (js "CHUNK_SIZE") = Some (Index.decimal n) ->
                chunkSize config = Some (Z.of_N n))
  /\ (forall n, (n < 2 ^ 53)%N ->
                env (js "CHUNK_OVERLAP") = Some (Index.decimal n) ->
                chunkOverlap config = Some (Z.of_N n))
  /\ (forall n, (n < 2 ^ 53)%N ->
                env (js "CHUNK_SIZE") = Some (45 :: Index.decimal n) ->
                chunkSize config = Some (- Z.of_N n))
  /\ (forall c r, env (js "CHUNK_SIZE") = Some (c :: r) ->
                  JS.isWhiteSpace c = false -> c <> 45 -> c <> 43 ->
                  JS.isDigit c = false ->
                  chunkSize config = None).
Proof.
  cbv zeta. unfold loadConfig. cbn [chunkSize chunkOverlap].
  assert (Hdec : forall n, exists c r, Index.decimal n = c :: r).
  { intros n. pose proof (proj1 (parseInt_decimal n)) as H.
    destruct (Index.decimal n) as [|c r]; [discriminate H | eauto]. }
  split; [|split; [|split; [|split; [|split; [|split]]]]].
  - intros name fallback [H|H]; unfold envOr; rewrite H; reflexivity.
  - intros [H|H]; unfold envOr; rewrite H; reflexivity.
  - intros [H|H]; unfold envOr; rewrite H; reflexivity.
  - intros n _ H. unfold envOr. rewrite H.
    destruct (Hdec n) as (c & r & E). rewrite E, <- E. apply parseInt_decimal.
  - intros n _ H. unfold envOr. rewrite H.
    destruct (Hdec n) as (c & r & E). rewrite E, <- E. apply parseInt_decimal.
  - intros n _ H. unfold envOr. rewrite H. apply parseInt_decimal.
  - intros c r H Hw H45 H43 Hd. unfold envOr. rewrite H. apply parseInt_NaN; assumption.
Qed.

End Numerals.

(* ================================================================= *)
(** ** The theorems at sample inputs *)

Section Witnesses.

Import Examples.

Ltac each_line :=
  repeat (apply Forall_cons; [vm_compute; reflexivity|]); apply Forall_nil.

Lemma isGarbageLine_accented_line :
  let line := js "Caf" ++ [233; 1; 2; 3; 4; 5; 6; 7] in
  JS.length line < 2147483648
  /\ 100 * Spec.printableUnits line < 90 * JS.length line
  /\ AppleNotesDB.isGarbageLine line = true.
Proof.
  intros line.
  assert (H1 : JS.length line < 2147483648) by (vm_compute; reflexivity).
  assert (H2 : 100 * Spec.printableUnits line
               < (if JS.length line <? 10 then 98 else 90) * JS.length line)
    by (vm_compute; reflexivity).
  split; [exact H1|]. split; [exact H2|].
  apply (proj2 (proj1 (isGarbageLine_spec line))).
  right; right. exact (proj2 (proj2 (isGarbageLine_spec line) H1) H2).
Defined.

Lemma extractText_five_prose_four_short :
  AppleNotesDB.linesOf (Utf8.toString noteBytes)
  = List.map js prose ++ List.map js short
  /\ Forall (fun l => Spec.isProse l = true) (List.map js prose)
  /\ Forall (fun l => JS.length l < 3) (List.map js short)
  /\ AppleNotesDB.extractTextFromProtobuf noteBytes
     = JS.join [JS.LF] (List.map js prose).
Proof.
  assert (H1 : AppleNotesDB.linesOf (Utf8.toString noteBytes)
               = List.map js prose ++ List.map js short)
    by (vm_compute; reflexivity).
  assert (H2 : Forall (fun l => Spec.isProse l = true) (List.map js prose))
    by (cbn [List.map prose]; each_line).
  assert (H3 : Forall (fun l => JS.length l < 3) (List.map js short))
    by (cbn [List.map short]; each_line).
  split; [exact H1|]. split; [exact H2|]. split; [exact H3|].
  exact (proj1 (proj2 (extractText_keeps_prose_until_cutoff noteBytes)) _ _ H1 H2 H3).
Defined.

Lemma fuse_A_B_C_with_C_A_D :
  NoDup [Index.keyOf A; Index.keyOf B; Index.keyOf C; Index.keyOf D]
  /\ Index.mapGet (Index.keyOf A) (Index.fuse [A; B; C] [C; A; D])
     = Some (JS.add (JS.div (JS.ofZ 1) (JS.ofZ 60)) (JS.div (JS.ofZ 1) (JS.ofZ 61)))
  /\ Index.mapGet (Index.keyOf C) (Index.fuse [A; B; C] [C; A; D])
     = Some (JS.add (JS.div (JS.ofZ 1) (JS.ofZ 62)) (JS.div (JS.ofZ 1) (JS.ofZ 60))).
Proof.
  assert (H : NoDup [Index.keyOf A; Index.keyOf B; Index.keyOf C; Index.keyOf D]).
  { vm_compute.
    repeat (apply NoDup_cons; [cbn [In]; intuition discriminate|]).
    apply NoDup_nil. }
  split; [exact H|].
  exact (proj2 fuse_sums_contributions A B C D H).
Defined.


Lemma chunkText_long_text_sizes :
  let text : jsstring := repeat 97 2000 in
  0 < TextChunker.maxChunkSize testChunks
  /\ 0 <= TextChunker.overlap testChunks < TextChunker.maxChunkSize testChunks
  /\ TextChunker.chunkText 5 text testChunks
     = Some [repeat 97 500; repeat 97 500; repeat 97 500; repeat 97 500; repeat 97 200]
  /\ Forall (fun c => JS.length c <= 500)
            [repeat 97 500; repeat 97 500; repeat 97 500; repeat 97 500; repeat 97 200].
Proof.
  intros text.
  assert (H1 : 0 < TextChunker.maxChunkSize testChunks) by (vm_compute; reflexivity).
  assert (H2 : 0 <= TextChunker.overlap testChunks < TextChunker.maxChunkSize testChunks)
    by (vm_compute; split; [discriminate | reflexivity]).
  assert (H3 : TextChunker.chunkText 5 text testChunks
               = Some [repeat 97 500; repeat 97 500; repeat 97 500; repeat 97 500; repeat 97 200])
    by (vm_compute; reflexivity).
  split; [exact H1|]. split; [exact H2|]. split; [exact H3|].
  exact (proj1 (proj2 (chunkText_chunk_sizes text testChunks H1 H2)) 5%nat _ H3).
Defined.

Lemma chunkText_hello_world :
  JS.trim (js "Hello world") <> []
  /\ JS.length (js "Hello world") <= TextChunker.maxChunkSize testChunks
  /\ TextChunker.chunkText 0 (js "Hello world") testChunks = Some [js "Hello world"].
Proof.
  assert (H1 : JS.trim (js "Hello world") <> []) by (vm_compute; discriminate).
  assert (H2 : JS.length (js "Hello world") <= TextChunker.maxChunkSize testChunks)
    by (vm_compute; discriminate).
  split; [exact H1|]. split; [exact H2|].
  exact (proj2 (chunkText_short_text 0 (js "Hello world") testChunks) H1 H2).
Defined.


Lemma hitOfKey_a_b_c :
  let r := {| Index.title := js "a"; Index.content := js "b::c" |} in
  Forall (fun u => u <> Spec.COLON) (Index.title r)
  /\ Index.hitOfKey (Index.keyOf r)
     = {| Index.hit_title := Some (js "a"); Index.hit_content := Some (js "b") |}.
Proof.
  intros r.
  assert (H : Forall (fun u => u <> Spec.COLON) (Index.title r)).
  { apply Forall_cons; [vm_compute; discriminate | apply Forall_nil]. }
  split; [exact H|].
  exact (proj1 (proj2 hits_rebuilt_from_keys) r H).
Defined.

End Witnesses.

(* ================================================================= *)
(** ** More theorems at sample inputs *)

Section MoreWitnesses.

Import Examples.

Lemma chunks_of_sentences_not_blank :
  let out := [js "First sentence."; js "nce."; js "Second sentence.";
              js "nce. Third sentence."] in
  TextChunker.chunkText 48 sentences smallChunks = Some out
  /\ Forall (fun chunk => JS.trim chunk <> []) out
  /\ (TextChunker.maxChunkSize smallChunks < JS.length sentences ->
      Forall (fun chunk => JS.trim chunk = chunk) out).
Proof.
  intros out.
  assert (H : TextChunker.chunkText 48 sentences smallChunks = Some out)
    by (vm_compute; reflexivity).
  split; [exact H|].
  exact (chunkText_chunks_not_blank 48 sentences smallChunks out H).
Defined.

Lemma chunks_of_sentences_are_pieces :
  let out := [js "First sentence."; js "nce."; js "Second sentence.";
              js "nce. Third sentence."] in
  TextChunker.chunkText 48 sentences smallChunks = Some out
  /\ Forall (Spec.pieceOf sentences) out.
Proof.
  intros out.
  assert (H : TextChunker.chunkText 48 sentences smallChunks = Some out)
    by (vm_compute; reflexivity).
  split; [exact H|].
  exact (chunkText_chunks_are_pieces 48 sentences smallChunks out H).
Defined.

Lemma second_sentence_is_kept :
  let before := js "First sentence. " in
  let after := js "econd sentence. Third sentence." in
  let text := before ++ 83 :: after in
  let out := [js "First sentence."; js "nce."; js "Second sentence.";
              js "nce. Third sentence."] in
  0 < TextChunker.maxChunkSize smallChunks
  /\ 0 <= TextChunker.overlap smallChunks
  /\ JS.isWhiteSpace 83 = false
  /\ TextChunker.chunkText 48 text smallChunks = Some out
  /\ Exists (Spec.holds text (List.length before)) out.
Proof.
  intros before after text out.
  assert (H1 : 0 < TextChunker.maxChunkSize smallChunks) by (vm_compute; reflexivity).
  assert (H2 : 0 <= TextChunker.overlap smallChunks) by (vm_compute; discriminate).
  assert (H3 : JS.isWhiteSpace 83 = false) by reflexivity.
  assert (H4 : TextChunker.chunkText 48 text smallChunks = Some out)
    by (vm_compute; reflexivity).
  split; [exact H1|]. split; [exact H2|]. split; [exact H3|]. split; [exact H4|].
  exact (chunkText_loses_no_text 48 before after 83 smallChunks out H1 H2 H3 H4).
Defined.

Lemma first_window_of_sentences :
  let full := Z.min (0 + TextChunker.maxChunkSize smallChunks) (JS.length sentences) in
  let from := Z.max (full - 200) 0 in
  let end_ := TextChunker.windowEnd sentences smallChunks 0 in
  0 < TextChunker.maxChunkSize smallChunks
  /\ 0 <= 0 < JS.length sentences
  /\ end_ = 16
  /\ (full = JS.length sentences -> end_ = JS.length sentences)
  /\ (full < JS.length sentences ->
      (end_ = full
       /\ forall p, from <= p -> p + 2 <= full -> Spec.sentenceEndAt sentences p = false)
      \/ (from <= end_ - 2 /\ end_ <= full
          /\ Spec.sentenceEndAt sentences (end_ - 2) = true
          /\ forall p, from <= p < end_ - 2 -> Spec.sentenceEndAt sentences p = false)).
Proof.
  intros full from end_.
  assert (H1 : 0 < TextChunker.maxChunkSize smallChunks) by (vm_compute; reflexivity).
  assert (H2 : 0 <= 0 < JS.length sentences) by (vm_compute; split; [discriminate | reflexivity]).
  split; [exact H1|]. split; [exact H2|]. split; [vm_compute; reflexivity|].
  exact (windowEnd_first_sentence_end sentences smallChunks 0 H1 H2).
Defined.

Lemma chunks_of_sentences_count :
  let out := [js "First sentence."; js "nce."; js "Second sentence.";
              js "nce. Third sentence."] in
  0 < TextChunker.maxChunkSize smallChunks
  /\ TextChunker.chunkText 48 sentences smallChunks = Some out
  /\ (List.length out <= List.length sentences)%nat.
Proof.
  intros out.
  assert (H1 : 0 < TextChunker.maxChunkSize smallChunks) by (vm_compute; reflexivity).
  assert (H2 : TextChunker.chunkText 48 sentences smallChunks = Some out)
    by (vm_compute; reflexivity).
  split; [exact H1|]. split; [exact H2|].
  exact (chunkText_count 48 sentences smallChunks out H1 H2).
Defined.

Lemma zero_size_on_a_note :
  JS.trim (js "Plant a tree") <> []
  /\ 0 <= 100
  /\ forall fuel,
       TextChunker.chunkText fuel (js "Plant a tree")
         {| TextChunker.maxChunkSize := 0; TextChunker.overlap := 100 |} = None.
Proof.
  assert (H1 : JS.trim (js "Plant a tree") <> []) by (vm_compute; discriminate).
  assert (H2 : 0 <= 100) by discriminate.
  split; [exact H1|]. split; [exact H2|].
  exact (chunkText_zero_size_diverges (js "Plant a tree") 100 H1 H2).
Defined.

Lemma ids_of_three_records :
  let notes := [fullNote; emptyNote; fullNote] in
  Index.indexNotes 1000 100 toyLocaleString 10 notes = Some threeRecords
  /\ List.map Index.chunk_id threeRecords = [js "0"; js "1"; js "2"]
  /\ (forall i r, nth_error threeRecords i = Some r ->
                  Index.chunk_id r = Index.decimal (N.of_nat i))
  /\ NoDup (List.map Index.chunk_id threeRecords).
Proof.
  intros notes.
  assert (H : Index.indexNotes 1000 100 toyLocaleString 10 notes = Some threeRecords)
    by (vm_compute; reflexivity).
  split; [exact H|]. split; [vm_compute; reflexivity|].
  exact (indexNotes_ids_are_positions 1000 100 toyLocaleString 10 notes threeRecords H).
Defined.

Lemma records_of_three_notes :
  let notes := [fullNote; emptyNote; fullNote] in
  Index.indexNotes 1000 100 toyLocaleString 10 notes = Some threeRecords
  /\ exists chunkLists,
       Forall2 (fun note chunks =>
                  TextChunker.chunkText 10 (AppleNotesDB.content note)
                    (Spec.configured 1000 100) = Some chunks)
               (filter Index.hasTitle notes) chunkLists
       /\ List.map Spec.fieldsOf threeRecords
          = List.concat
              (List.map (fun nc => Spec.fieldsFor toyLocaleString (fst nc) (snd nc))
                        (combine (filter Index.hasTitle notes) chunkLists)).
Proof.
  intros notes.
  assert (H : Index.indexNotes 1000 100 toyLocaleString 10 notes = Some threeRecords)
    by (vm_compute; reflexivity).
  split; [exact H|].
  exact (indexNotes_records_follow_notes 1000 100 toyLocaleString 10 notes threeRecords H).
Defined.

Lemma separable_A_B_C_D :
  Forall Spec.separable ([A; B; C] ++ [C; A; D])
  /\ Index.combineResults [A; B; C] [C; A; D] 10
     = [Spec.hitOf A; Spec.hitOf C; Spec.hitOf B; Spec.hitOf D]
  /\ NoDup (Index.combineResults [A; B; C] [C; A; D] 10).
Proof.
  assert (H : Forall Spec.separable ([A; B; C] ++ [C; A; D])).
  { cbn [app].
    repeat (apply Forall_cons;
            [split; [repeat (apply Forall_cons; [vm_compute; discriminate|]); apply Forall_nil
                    | vm_compute; reflexivity]|]).
    apply Forall_nil. }
  split; [exact H|]. split; [vm_compute; reflexivity|].
  exact (proj1 (proj2 (combineResults_separable [A; B; C] [C; A; D] 10 H))).
Defined.

Lemma tie_of_A_and_B :
  let score := S754_finite false 4764463868081574 (-57) in
  let x := (Index.keyOf A, score) in
  let y := (Index.keyOf B, score) in
  Spec.precedes x y (Index.ranked [A; B] [B; A] 10)
  /\ Spec.notBelow x y
  /\ (Spec.notBelow y x ->
      Spec.precedes (fst x) (fst y)
        (Spec.firstOccurrences (List.map Index.keyOf ([A; B] ++ [B; A])))).
Proof.
  intros score x y.
  assert (H : Spec.precedes x y (Index.ranked [A; B] [B; A] 10)).
  { exists [], [], []. vm_compute. reflexivity. }
  split; [exact H|].
  exact (ranked_ties_in_order_met [A; B] [B; A] 10 x y H).
Defined.

Lemma hello_is_kept :
  let line := js "Hello" in
  3 <= JS.length line < 2147483648
  /\ Forall (fun c => AppleNotesDB.isPrintable c = true) line
  /\ Exists (fun c => AppleNotesDB.isMarker c = false) line
  /\ AppleNotesDB.isGarbageLine line = false.
Proof.
  intros line.
  assert (H1 : 3 <= JS.length line < 2147483648)
    by (vm_compute; split; [discriminate | reflexivity]).
  assert (H2 : Forall (fun c => AppleNotesDB.isPrintable c = true) line)
    by (repeat (apply Forall_cons; [vm_compute; reflexivity|]); apply Forall_nil).
  assert (H3 : Exists (fun c => AppleNotesDB.isMarker c = false) line)
    by (apply Exists_cons_hd; vm_compute; reflexivity).
  split; [exact H1|]. split; [exact H2|]. split; [exact H3|].
  exact (proj1 (isGarbageLine_by_alphabet line H1) H2 H3).
Defined.

Lemma plain_buffer_buy_milk :
  AppleNotesDB.hasGzipMagic plainBuffer = false
  /\ exists text,
       AppleNotesDB.parseNoteContent toyUngzip (Some plainBuffer) = Normal text
       /\ JS.length text <= Z.of_nat (List.length plainBuffer)
       /\ (Forall (fun b => (Byte.to_N b < 128)%N) plainBuffer ->
           text = List.map (fun b => Z.of_N (Byte.to_N b)) plainBuffer).
Proof.
  assert (H : AppleNotesDB.hasGzipMagic plainBuffer = false) by reflexivity.
  split; [exact H|].
  exact (parseNoteContent_plain_buffer toyUngzip plainBuffer H).
Defined.

Lemma A_B_with_C_D_take_turns :
  NoDup (List.map Index.keyOf ([A; B] ++ [C; D]))
  /\ Z.of_nat (List.length [A; B]) <= 2 ^ 50
  /\ Z.of_nat (List.length [C; D]) <= 2 ^ 50
  /\ Spec.keys (Index.ranked [A; B] [C; D] 3)
     = [Index.keyOf A; Index.keyOf C; Index.keyOf B].
Proof.
  assert (H1 : NoDup (List.map Index.keyOf ([A; B] ++ [C; D]))).
  { vm_compute.
    repeat (apply NoDup_cons; [cbn [In]; intuition discriminate|]).
    apply NoDup_nil. }
  assert (H2 : Z.of_nat (List.length [A; B]) <= 2 ^ 50) by (vm_compute; discriminate).
  assert (H3 : Z.of_nat (List.length [C; D]) <= 2 ^ 50) by (vm_compute; discriminate).
  split; [exact H1|]. split; [exact H2|]. split; [exact H3|].
  exact (proj1 (ranked_takes_turns [A; B] [C; D] 3 H1 H2 H3)).
Defined.

End MoreWitnesses.
